(** * Slice interning (src/core/lib/slice/slice_intern.c)

    A shallow embedding of the slice-interning tables of the gRPC core:
    the static metadata hash table, the 32 mutex-guarded shards of the
    dynamic intern table, and the reference-counted interned records.

    Conventions of the embedding.
    - [uint32_t], [size_t] and [gpr_atm] values are integers of [Z]; every
      arithmetic operation of the C code is followed by the wrap-around of
      its C type ([size_t] and [gpr_atm] are 64 bits wide, the LP64 model).
    - An [interned_slice_refcount] lives in a store keyed by its address.
      The bytes that the C code keeps right behind the header (at [s + 1])
      are the field [bytes] of the record.
    - A bucket chain, threaded in C through the [bucket_next] fields, is the
      list of the addresses of its records, head of the chain first.
    - Every function of the C file is a program of atomic actions on the
      global state ([prog]); an action is one access to a mutex or to a
      reference counter, or a block of code that runs under a shard mutex.
      [run] executes a program without interference (one thread);
      [step] executes one action, after which another thread may run;
      [interleave] executes the actions of two threads in a given order. *)

From Stdlib Require Import ZArith Lia List Bool.
From Stdlib Require Import Init.Byte.
From stdpp Require Import base tactics option list numbers gmap.

Local Open Scope Z_scope.

(** ** Machine integers *)

Definition uint32_t (z : Z) : Z := z mod 2 ^ 32.
Definition size_t (z : Z) : Z := z mod 2 ^ 64.
(** [gpr_atm] is [intptr_t]: two's complement on 64 bits. *)
Definition gpr_atm (z : Z) : Z := (z + 2 ^ 63) mod 2 ^ 64 - 2 ^ 63.

Definition LOG2_SHARD_COUNT : Z := 5.
Definition SHARD_COUNT : Z := Z.shiftl 1 LOG2_SHARD_COUNT.
Definition INITIAL_SHARD_CAPACITY : Z := 8.

Definition TABLE_IDX (hash capacity : Z) : Z :=
  (Z.shiftr hash LOG2_SHARD_COUNT) mod capacity.
Definition SHARD_IDX (hash : Z) : Z :=
  Z.land hash (Z.shiftl 1 LOG2_SHARD_COUNT - 1).

(** ** Data model *)

Abbreviation addr := positive.

#[global] Instance byte_eq_dec : EqDecision byte.
Proof. intros x y. destruct (Byte.eqb x y) eqn:E.
  - left. now apply Byte.byte_dec_bl.
  - right. intros ->. rewrite (Byte.byte_dec_lb eq_refl) in E. discriminate.
Defined.

(** [struct interned_slice_refcount]; [base] is the vtable pointer (always
    [interned_slice_vtable]), [bucket_next] is the order of the chain
    that holds the record, and [rlength] is the field [length]. *)
Record interned_slice_refcount : Type := mk_refcount {
  rlength : Z;
  refcnt : Z;
  hash : Z;
  bytes : list byte
}.

Inductive mu_state : Type := MuUninit | MuUnlocked | MuLocked | MuDestroyed.

(** [struct slice_shard]; [strs] has one chain per bucket. *)
Record slice_shard : Type := mk_shard {
  mu : mu_state;
  strs : list (list addr);
  count : Z;
  capacity : Z
}.

Record static_metadata_hash_ent : Type := mk_ent {
  ent_hash : Z;
  ent_idx : Z
}.

(** A [grpc_slice] by the kind of its reference counter:
    - [slice_inlined]: [refcount == NULL], the bytes are in the value;
    - [slice_static i]: entry [i] of [grpc_static_slice_table]
      ([grpc_is_static_metadata_string] holds);
    - [slice_static_part i off len]: a slice with the static counter that
      is carved out of entry [i], [len] bytes from offset [off] on
      ([grpc_is_static_metadata_string] holds: it looks at the counter);
    - [slice_interned s off len]: [refcount == &s->base],
      [bytes == (uint8_t * )(s + 1) + off], [length == len];
    - [slice_refcounted r data]: any other counter [r], whose vtable hashes
      with [grpc_slice_default_hash_impl]. *)
Inductive grpc_slice : Type :=
| slice_inlined (data : list byte)
| slice_static (idx : Z)
| slice_static_part (idx off len : Z)
| slice_interned (s : addr) (off len : Z)
| slice_refcounted (r : positive) (data : list byte).

Inductive log_record : Type :=
| LogWarningLeaked (n : Z)
| LogLeaked (dump : list byte).

(** What a call does to its environment besides the tables. *)
Inductive event : Type :=
| EvLock (shard : Z)
| EvUnlock (shard : Z)
| EvMalloc (p : addr)
| EvFree (p : addr)
| EvMallocStrs (capacity : Z)
| EvFreeStrs
| EvUnrefOther (r : positive)
| EvLog (r : log_record).

(** The globals of the file, the store of the interned records and the
    events so far (latest first). *)
Record state : Type := mk_state {
  g_hash_seed : Z;
  g_forced_hash_seed : bool;
  g_shards : list slice_shard;
  static_metadata_hash : list static_metadata_hash_ent;
  max_static_metadata_hash_probe : Z;
  static_metadata_hash_values : list Z;
  heap : gmap addr interned_slice_refcount;
  trace : list event
}.

Definition set_refcnt (v : Z) (r : interned_slice_refcount) :=
  mk_refcount (rlength r) v (hash r) (bytes r).

Definition set_mu (m : mu_state) (sh : slice_shard) :=
  mk_shard m (strs sh) (count sh) (capacity sh).

Definition set_heap (h : gmap addr interned_slice_refcount) (σ : state) :=
  mk_state (g_hash_seed σ) (g_forced_hash_seed σ) (g_shards σ)
    (static_metadata_hash σ) (max_static_metadata_hash_probe σ)
    (static_metadata_hash_values σ) h (trace σ).

Definition set_shards (l : list slice_shard) (σ : state) :=
  mk_state (g_hash_seed σ) (g_forced_hash_seed σ) l
    (static_metadata_hash σ) (max_static_metadata_hash_probe σ)
    (static_metadata_hash_values σ) (heap σ) (trace σ).

Definition emit (e : event) (σ : state) :=
  mk_state (g_hash_seed σ) (g_forced_hash_seed σ) (g_shards σ)
    (static_metadata_hash σ) (max_static_metadata_hash_probe σ)
    (static_metadata_hash_values σ) (heap σ) (e :: trace σ).

Definition set_shard (i : Z) (sh : slice_shard) (σ : state) :=
  set_shards (<[Z.to_nat i := sh]> (g_shards σ)) σ.

(** Projections of the updated state; the updates themselves stay folded. *)
Lemma g_hash_seed_set_heap h σ : g_hash_seed (set_heap h σ) = g_hash_seed σ.
Proof. reflexivity. Qed.
Lemma g_forced_hash_seed_set_heap h σ : g_forced_hash_seed (set_heap h σ) = g_forced_hash_seed σ.
Proof. reflexivity. Qed.
Lemma g_shards_set_heap h σ : g_shards (set_heap h σ) = g_shards σ.
Proof. reflexivity. Qed.
Lemma static_metadata_hash_set_heap h σ : static_metadata_hash (set_heap h σ) = static_metadata_hash σ.
Proof. reflexivity. Qed.
Lemma max_static_metadata_hash_probe_set_heap h σ : max_static_metadata_hash_probe (set_heap h σ) = max_static_metadata_hash_probe σ.
Proof. reflexivity. Qed.
Lemma static_metadata_hash_values_set_heap h σ : static_metadata_hash_values (set_heap h σ) = static_metadata_hash_values σ.
Proof. reflexivity. Qed.
Lemma heap_set_heap h σ : heap (set_heap h σ) = h.
Proof. reflexivity. Qed.
Lemma trace_set_heap h σ : trace (set_heap h σ) = trace σ.
Proof. reflexivity. Qed.
Lemma g_hash_seed_set_shards l σ : g_hash_seed (set_shards l σ) = g_hash_seed σ.
Proof. reflexivity. Qed.
Lemma g_forced_hash_seed_set_shards l σ : g_forced_hash_seed (set_shards l σ) = g_forced_hash_seed σ.
Proof. reflexivity. Qed.
Lemma g_shards_set_shards l σ : g_shards (set_shards l σ) = l.
Proof. reflexivity. Qed.
Lemma static_metadata_hash_set_shards l σ : static_metadata_hash (set_shards l σ) = static_metadata_hash σ.
Proof. reflexivity. Qed.
Lemma max_static_metadata_hash_probe_set_shards l σ : max_static_metadata_hash_probe (set_shards l σ) = max_static_metadata_hash_probe σ.
Proof. reflexivity. Qed.
Lemma static_metadata_hash_values_set_shards l σ : static_metadata_hash_values (set_shards l σ) = static_metadata_hash_values σ.
Proof. reflexivity. Qed.
Lemma heap_set_shards l σ : heap (set_shards l σ) = heap σ.
Proof. reflexivity. Qed.
Lemma trace_set_shards l σ : trace (set_shards l σ) = trace σ.
Proof. reflexivity. Qed.
Lemma g_hash_seed_emit e σ : g_hash_seed (emit e σ) = g_hash_seed σ.
Proof. reflexivity. Qed.
Lemma g_forced_hash_seed_emit e σ : g_forced_hash_seed (emit e σ) = g_forced_hash_seed σ.
Proof. reflexivity. Qed.
Lemma g_shards_emit e σ : g_shards (emit e σ) = g_shards σ.
Proof. reflexivity. Qed.
Lemma static_metadata_hash_emit e σ : static_metadata_hash (emit e σ) = static_metadata_hash σ.
Proof. reflexivity. Qed.
Lemma max_static_metadata_hash_probe_emit e σ : max_static_metadata_hash_probe (emit e σ) = max_static_metadata_hash_probe σ.
Proof. reflexivity. Qed.
Lemma static_metadata_hash_values_emit e σ : static_metadata_hash_values (emit e σ) = static_metadata_hash_values σ.
Proof. reflexivity. Qed.
Lemma heap_emit e σ : heap (emit e σ) = heap σ.
Proof. reflexivity. Qed.
Lemma trace_emit e σ : trace (emit e σ) = e :: trace σ.
Proof. reflexivity. Qed.
Lemma g_hash_seed_set_shard i sh σ : g_hash_seed (set_shard i sh σ) = g_hash_seed σ.
Proof. reflexivity. Qed.
Lemma g_forced_hash_seed_set_shard i sh σ : g_forced_hash_seed (set_shard i sh σ) = g_forced_hash_seed σ.
Proof. reflexivity. Qed.
Lemma g_shards_set_shard i sh σ : g_shards (set_shard i sh σ) = <[Z.to_nat i := sh]> (g_shards σ).
Proof. reflexivity. Qed.
Lemma static_metadata_hash_set_shard i sh σ : static_metadata_hash (set_shard i sh σ) = static_metadata_hash σ.
Proof. reflexivity. Qed.
Lemma max_static_metadata_hash_probe_set_shard i sh σ : max_static_metadata_hash_probe (set_shard i sh σ) = max_static_metadata_hash_probe σ.
Proof. reflexivity. Qed.
Lemma static_metadata_hash_values_set_shard i sh σ : static_metadata_hash_values (set_shard i sh σ) = static_metadata_hash_values σ.
Proof. reflexivity. Qed.
Lemma heap_set_shard i sh σ : heap (set_shard i sh σ) = heap σ.
Proof. reflexivity. Qed.
Lemma trace_set_shard i sh σ : trace (set_shard i sh σ) = trace σ.
Proof. reflexivity. Qed.

Create Rewrite HintDb state_proj.
#[global] Hint Rewrite
  g_hash_seed_set_heap
  g_forced_hash_seed_set_heap
  g_shards_set_heap
  static_metadata_hash_set_heap
  max_static_metadata_hash_probe_set_heap
  static_metadata_hash_values_set_heap
  heap_set_heap
  trace_set_heap
  g_hash_seed_set_shards
  g_forced_hash_seed_set_shards
  g_shards_set_shards
  static_metadata_hash_set_shards
  max_static_metadata_hash_probe_set_shards
  static_metadata_hash_values_set_shards
  heap_set_shards
  trace_set_shards
  g_hash_seed_emit
  g_forced_hash_seed_emit
  g_shards_emit
  static_metadata_hash_emit
  max_static_metadata_hash_probe_emit
  static_metadata_hash_values_emit
  heap_emit
  trace_emit
  g_hash_seed_set_shard
  g_forced_hash_seed_set_shard
  g_shards_set_shard
  static_metadata_hash_set_shard
  max_static_metadata_hash_probe_set_shard
  static_metadata_hash_values_set_shard
  heap_set_shard
  trace_set_shard : state_proj.

#[global] Arguments set_heap : simpl never.
#[global] Arguments set_shards : simpl never.
#[global] Arguments emit : simpl never.
#[global] Arguments set_shard : simpl never.

Ltac proj := autorewrite with state_proj in *.

Definition set_static (tbl : list static_metadata_hash_ent) (maxp : Z)
    (vals : list Z) (σ : state) :=
  mk_state (g_hash_seed σ) (g_forced_hash_seed σ) (g_shards σ)
    tbl maxp vals (heap σ) (trace σ).

Definition set_seed (seed : Z) (forced : bool) (σ : state) :=
  mk_state seed forced (g_shards σ)
    (static_metadata_hash σ) (max_static_metadata_hash_probe σ)
    (static_metadata_hash_values σ) (heap σ) (trace σ).

Lemma g_hash_seed_set_static tbl maxp vals σ : g_hash_seed (set_static tbl maxp vals σ) = g_hash_seed σ.
Proof. reflexivity. Qed.
Lemma g_forced_hash_seed_set_static tbl maxp vals σ : g_forced_hash_seed (set_static tbl maxp vals σ) = g_forced_hash_seed σ.
Proof. reflexivity. Qed.
Lemma g_shards_set_static tbl maxp vals σ : g_shards (set_static tbl maxp vals σ) = g_shards σ.
Proof. reflexivity. Qed.
Lemma static_metadata_hash_set_static tbl maxp vals σ : static_metadata_hash (set_static tbl maxp vals σ) = tbl.
Proof. reflexivity. Qed.
Lemma max_static_metadata_hash_probe_set_static tbl maxp vals σ : max_static_metadata_hash_probe (set_static tbl maxp vals σ) = maxp.
Proof. reflexivity. Qed.
Lemma static_metadata_hash_values_set_static tbl maxp vals σ : static_metadata_hash_values (set_static tbl maxp vals σ) = vals.
Proof. reflexivity. Qed.
Lemma heap_set_static tbl maxp vals σ : heap (set_static tbl maxp vals σ) = heap σ.
Proof. reflexivity. Qed.
Lemma trace_set_static tbl maxp vals σ : trace (set_static tbl maxp vals σ) = trace σ.
Proof. reflexivity. Qed.
Lemma g_hash_seed_set_seed seed forced σ : g_hash_seed (set_seed seed forced σ) = seed.
Proof. reflexivity. Qed.
Lemma g_forced_hash_seed_set_seed seed forced σ : g_forced_hash_seed (set_seed seed forced σ) = forced.
Proof. reflexivity. Qed.
Lemma g_shards_set_seed seed forced σ : g_shards (set_seed seed forced σ) = g_shards σ.
Proof. reflexivity. Qed.
Lemma static_metadata_hash_set_seed seed forced σ : static_metadata_hash (set_seed seed forced σ) = static_metadata_hash σ.
Proof. reflexivity. Qed.
Lemma max_static_metadata_hash_probe_set_seed seed forced σ : max_static_metadata_hash_probe (set_seed seed forced σ) = max_static_metadata_hash_probe σ.
Proof. reflexivity. Qed.
Lemma static_metadata_hash_values_set_seed seed forced σ : static_metadata_hash_values (set_seed seed forced σ) = static_metadata_hash_values σ.
Proof. reflexivity. Qed.
Lemma heap_set_seed seed forced σ : heap (set_seed seed forced σ) = heap σ.
Proof. reflexivity. Qed.
Lemma trace_set_seed seed forced σ : trace (set_seed seed forced σ) = trace σ.
Proof. reflexivity. Qed.

#[global] Hint Rewrite
  g_hash_seed_set_static
  g_forced_hash_seed_set_static
  g_shards_set_static
  static_metadata_hash_set_static
  max_static_metadata_hash_probe_set_static
  static_metadata_hash_values_set_static
  heap_set_static
  trace_set_static
  g_hash_seed_set_seed
  g_forced_hash_seed_set_seed
  g_shards_set_seed
  static_metadata_hash_set_seed
  max_static_metadata_hash_probe_set_seed
  static_metadata_hash_values_set_seed
  heap_set_seed
  trace_set_seed : state_proj.

#[global] Arguments set_static : simpl never.
#[global] Arguments set_seed : simpl never.

(** ** Programs of atomic actions *)

Inductive fault : Type :=
| AssertFailed      (* GPR_ASSERT *)
| InvalidAccess     (* access through NULL or to freed or foreign memory *)
| OutOfMemory       (* gpr_malloc aborts *)
| BadMutex          (* a mutex that is not initialised, or unlocked twice *)
| LeakAbort.        (* abort() of grpc_slice_intern_shutdown *)

(** The result of an action: a value and the next state, the end of the
    process, or a caller that waits (for a mutex). *)
Inductive res (A : Type) : Type :=
| Ok (a : A) (σ : state)
| Crash (f : fault) (σ : state)
| Block.
Arguments Ok {A} a σ.
Arguments Crash {A} f σ.
Arguments Block {A}.

Inductive prog (A : Type) : Type :=
| Ret (a : A)
| Atomic {X : Type} (act : state -> res X) (k : X -> prog A).
Arguments Ret {A} a.
Arguments Atomic {A X} act k.

Fixpoint bind {A B : Type} (p : prog A) (f : A -> prog B) : prog B :=
  match p with
  | Ret a => f a
  | Atomic act k => Atomic act (fun x => bind (k x) f)
  end.

Fixpoint run {A : Type} (p : prog A) (σ : state) : res A :=
  match p with
  | Ret a => Ok a σ
  | Atomic act k =>
      match act σ with
      | Ok x σ' => run (k x) σ'
      | Crash f σ' => Crash f σ'
      | Block => Block
      end
  end.

(** Reads of memory that is immutable or protected by a held mutex. *)
Definition read {X : Type} (f : state -> option X) : state -> res X :=
  fun σ => match f σ with Some x => Ok x σ | None => Crash InvalidAccess σ end.

Definition shard_at (i : Z) (σ : state) : option slice_shard :=
  g_shards σ !! Z.to_nat i.

(** *** Mutexes and reference counters *)

Definition gpr_mu_lock (i : Z) : state -> res unit := fun σ =>
  match shard_at i σ with
  | Some sh =>
      match mu sh with
      | MuUnlocked => Ok tt (emit (EvLock i) (set_shard i (set_mu MuLocked sh) σ))
      | MuLocked => Block
      | _ => Crash BadMutex σ
      end
  | None => Crash InvalidAccess σ
  end.

Definition gpr_mu_unlock (i : Z) : state -> res unit := fun σ =>
  match shard_at i σ with
  | Some sh =>
      match mu sh with
      | MuLocked => Ok tt (emit (EvUnlock i) (set_shard i (set_mu MuUnlocked sh) σ))
      | _ => Crash BadMutex σ
      end
  | None => Crash InvalidAccess σ
  end.

(** [gpr_atm_no_barrier_fetch_add] and [gpr_atm_full_fetch_add]: the value
    before the addition. *)
Definition gpr_atm_fetch_add (s : addr) (delta : Z) : state -> res Z := fun σ =>
  match heap σ !! s with
  | Some r => Ok (refcnt r)
                (set_heap (<[s := set_refcnt (gpr_atm (refcnt r + delta)) r]> (heap σ)) σ)
  | None => Crash InvalidAccess σ
  end.

Definition gpr_atm_rel_cas (s : addr) (o n : Z) : state -> res bool := fun σ =>
  match heap σ !! s with
  | Some r =>
      if decide (refcnt r = o)
      then Ok true (set_heap (<[s := set_refcnt n r]> (heap σ)) σ)
      else Ok false σ
  | None => Crash InvalidAccess σ
  end.

Definition gpr_atm_no_barrier_load (s : addr) : state -> res Z :=
  read (fun σ => refcnt <$> heap σ !! s).

Definition GPR_ASSERT (b : bool) : state -> res unit := fun σ =>
  if b then Ok tt σ else Crash AssertFailed σ.

(** ** The functions of slice_intern.c *)

Section Intern.

(** [gpr_murmur_hash3 key seed] (support/murmur_hash.c) and the table
    [grpc_static_slice_table] of [GRPC_STATIC_MDSTR_COUNT] static metadata
    strings (transport/static_metadata.c) are declared outside this file:
    an opaque seeded hash and a fixed list of byte strings. *)
Variable gpr_murmur_hash3 : list byte -> Z -> Z.
Variable grpc_static_slice_table : list (list byte).

Definition GRPC_STATIC_MDSTR_COUNT : Z :=
  Z.of_nat (List.length grpc_static_slice_table).

(** [GPR_ARRAY_SIZE(static_metadata_hash)] *)
Definition STATIC_HASH_SIZE : Z := 4 * GRPC_STATIC_MDSTR_COUNT.

Definition static_slice (i : Z) : option (list byte) :=
  if decide (0 <= i) then grpc_static_slice_table !! Z.to_nat i else None.

(** *** Slices *)

Definition grpc_is_static_metadata_string (slice : grpc_slice) : bool :=
  match slice with
  | slice_static _ | slice_static_part _ _ _ => true
  | _ => false
  end.

(** The bytes [off .. off + len) of [str], if they are within it. *)
Definition sub_bytes (str : list byte) (off len : Z) : option (list byte) :=
  if decide (0 <= off /\ 0 <= len /\ off + len <= Z.of_nat (List.length str))
  then Some (take (Z.to_nat len) (drop (Z.to_nat off) str))
  else None.

(** The bytes between [GRPC_SLICE_START_PTR] and [GRPC_SLICE_END_PTR];
    [None] when the slice points outside its storage. *)
Definition slice_data (σ : state) (slice : grpc_slice) : option (list byte) :=
  match slice with
  | slice_inlined data => Some data
  | slice_static i => static_slice i
  | slice_static_part i off len =>
      match static_slice i with
      | Some str => sub_bytes str off len
      | None => None
      end
  | slice_interned s off len =>
      match heap σ !! s with
      | Some r =>
          if decide (0 <= off /\ 0 <= len /\ off + len <= Z.of_nat (List.length (bytes r)))
          then Some (take (Z.to_nat len) (drop (Z.to_nat off) (bytes r)))
          else None
      | None => None
      end
  | slice_refcounted _ data => Some data
  end.

Definition grpc_slice_default_hash_impl (σ : state) (data : list byte) : Z :=
  uint32_t (gpr_murmur_hash3 data (g_hash_seed σ)).

(** [interned_slice_hash]: the cached hash when the slice is the whole of
    the record's storage. *)
Definition interned_slice_hash (σ : state) (s : addr) (off len : Z) : option Z :=
  match heap σ !! s with
  | Some r =>
      if decide (off = 0 /\ len = rlength r) then Some (hash r)
      else grpc_slice_default_hash_impl σ <$> slice_data σ (slice_interned s off len)
  | None => None
  end.

(** [grpc_static_metadata_index] (transport/static_metadata.h) of a slice
    with the static counter: the index of the entry of
    [grpc_static_slice_table] that the slice is, and -1 for a slice that
    is not the whole of an entry. *)
Definition grpc_static_metadata_index (slice : grpc_slice) : Z :=
  match slice with
  | slice_static i => i
  | slice_static_part i off len =>
      match static_slice i with
      | Some str =>
          if decide (off = 0 /\ len = Z.of_nat (List.length str)) then i else -1
      | None => -1
      end
  | _ => -1
  end.

(** [grpc_static_slice_hash], the [hash] of the static vtable: lines
    166-170. *)
Definition grpc_static_slice_hash (σ : state) (slice : grpc_slice) : option Z :=
  let id := grpc_static_metadata_index slice in
  if decide (id = -1)
  then grpc_slice_default_hash_impl σ <$> slice_data σ slice
  else
    match static_slice id with
    | Some _ => static_metadata_hash_values σ !! Z.to_nat id
    | None => None
    end.

Definition grpc_slice_hash (σ : state) (slice : grpc_slice) : option Z :=
  match slice with
  | slice_inlined data => Some (grpc_slice_default_hash_impl σ data)
  | slice_static _ | slice_static_part _ _ _ => grpc_static_slice_hash σ slice
  | slice_interned s off len => interned_slice_hash σ s off len
  | slice_refcounted _ data => Some (grpc_slice_default_hash_impl σ data)
  end.

Definition materialize (s : addr) : state -> res grpc_slice :=
  read (fun σ => (fun r => slice_interned s 0 (rlength r)) <$> heap σ !! s).

(** *** The static table *)

(** The loop of lines 184-193 and 202-209 from offset [i], [fuel]
    iterations: the index of the static string found, if any. The outer
    [option] is [None] on an access outside the array. *)
Fixpoint static_probe (σ : state) (h : Z) (data : list byte) (fuel : nat) (i : Z)
  : option (option Z) :=
  match fuel with
  | O => Some None
  | S fuel' =>
      match static_metadata_hash σ
              !! Z.to_nat (uint32_t (h + i) mod STATIC_HASH_SIZE) with
      | Some ent =>
          if bool_decide (ent_hash ent = h)
             && bool_decide (ent_idx ent < GRPC_STATIC_MDSTR_COUNT)
             && bool_decide (static_slice (ent_idx ent) = Some data)
          then Some (Some (ent_idx ent))
          else static_probe σ h data fuel' (uint32_t (i + 1))
      | None => None
      end
  end.

(** [i] runs from 0 while [i <= max_static_metadata_hash_probe]. *)
Definition static_lookup (σ : state) (h : Z) (data : list byte) : option (option Z) :=
  static_probe σ h data (Z.to_nat (max_static_metadata_hash_probe σ + 1)) 0.

(** What lines 183-193 and 201-209 read: the hash of the slice, its bytes
    and the result of the probe. *)
Definition static_query (slice : grpc_slice) (σ : state)
  : option (Z * list byte * option Z) :=
  match grpc_slice_hash σ slice, slice_data σ slice with
  | Some h, Some data =>
      match static_lookup σ h data with
      | Some probe => Some (h, data, probe)
      | None => None
      end
  | _, _ => None
  end.

(** *** Reference counting and destruction *)

Definition interned_slice_ref (s : addr) : prog unit :=
  Atomic (gpr_atm_fetch_add s 1) (fun old =>
  Atomic (GPR_ASSERT (bool_decide (old > 0))) Ret).

(** The loop of lines 96-99: the chain without [s]; when [s] is not in the
    chain the loop runs off its end ([cur == NULL]). *)
Fixpoint unlink (s : addr) (chain : list addr) : option (list addr) :=
  match chain with
  | [] => None
  | cur :: rest =>
      if decide (cur = s) then Some rest
      else (fun l => cur :: l) <$> unlink s rest
  end.

(** Lines 96-102, under the mutex of shard [i]. *)
Definition destroy_unlink (i : Z) (s : addr) : state -> res unit := fun σ =>
  match shard_at i σ, heap σ !! s with
  | Some sh, Some r =>
      if decide (capacity sh = 0) then Crash InvalidAccess σ else
      let idx := Z.to_nat (TABLE_IDX (hash r) (capacity sh)) in
      match strs sh !! idx with
      | Some chain =>
          match unlink s chain with
          | Some chain' =>
              let sh' := mk_shard (mu sh) (<[idx := chain']> (strs sh))
                           (size_t (count sh - 1)) (capacity sh) in
              Ok tt (emit (EvFree s)
                       (set_shard i sh' (set_heap (delete s (heap σ)) σ)))
          | None => Crash InvalidAccess σ
          end
      | None => Crash InvalidAccess σ
      end
  | _, _ => Crash InvalidAccess σ
  end.

Definition destroy_locked (i : Z) (s : addr) : prog unit :=
  Atomic (gpr_atm_no_barrier_load s) (fun v =>
  Atomic (GPR_ASSERT (bool_decide (0 = v))) (fun _ =>
  Atomic (destroy_unlink i s) (fun _ =>
  Atomic (gpr_mu_unlock i) Ret))).

Definition interned_slice_destroy (s : addr) : prog unit :=
  Atomic (read (fun σ => hash <$> heap σ !! s)) (fun h =>
  Atomic (gpr_mu_lock (SHARD_IDX h)) (fun _ =>
  destroy_locked (SHARD_IDX h) s)).

Definition interned_slice_unref (s : addr) : prog unit :=
  Atomic (gpr_atm_fetch_add s (-1)) (fun old =>
  if decide (1 = old) then interned_slice_destroy s else Ret tt).

(** [grpc_slice_unref] (slice.c) calls [unref] of the slice's vtable when
    [refcount != NULL]; the static vtable's [unref] does nothing. *)
Definition grpc_slice_unref (slice : grpc_slice) : prog unit :=
  match slice with
  | slice_inlined _ => Ret tt
  | slice_static _ | slice_static_part _ _ _ => Ret tt
  | slice_interned s _ _ => interned_slice_unref s
  | slice_refcounted r _ => Atomic (fun σ => Ok tt (emit (EvUnrefOther r) σ)) Ret
  end.

(** *** Growth *)

(** The inner loop of lines 137-142 for one chain. *)
Fixpoint relink (h : gmap addr interned_slice_refcount) (capacity : Z)
    (chain : list addr) (strtab : list (list addr)) : option (list (list addr)) :=
  match chain with
  | [] => Some strtab
  | s :: next =>
      match h !! s with
      | Some r =>
          if decide (capacity = 0) then None else
          let idx := Z.to_nat (TABLE_IDX (hash r) capacity) in
          match strtab !! idx with
          | Some bucket => relink h capacity next (<[idx := s :: bucket]> strtab)
          | None => None
          end
      | None => None
      end
  end.

(** The outer loop of lines 136-143 over the buckets of the old array. *)
Fixpoint relink_all (h : gmap addr interned_slice_refcount) (capacity : Z)
    (old : list (list addr)) (strtab : list (list addr)) : option (list (list addr)) :=
  match old with
  | [] => Some strtab
  | chain :: rest =>
      match relink h capacity chain strtab with
      | Some strtab' => relink_all h capacity rest strtab'
      | None => None
      end
  end.

Definition grow_shard (i : Z) : state -> res unit := fun σ =>
  match shard_at i σ with
  | Some sh =>
      let capacity' := size_t (capacity sh * 2) in
      let strtab := replicate (Z.to_nat capacity') [] in
      match relink_all (heap σ) capacity' (strs sh) strtab with
      | Some strtab' =>
          Ok tt (emit EvFreeStrs
                   (set_shard i (mk_shard (mu sh) strtab' (count sh) capacity')
                      (emit (EvMallocStrs capacity') σ)))
      | None => Crash InvalidAccess σ
      end
  | None => Crash InvalidAccess σ
  end.

(** *** Interning *)

(** Modelled from the spec: [gpr_malloc] (support/alloc.c) is not in this
    file. "Resource exhaustion (allocation failure for a new handle or a
    grown bucket array): treated as fatal/unrecoverable by this core".
    A record takes at least 32 bytes of a 64-bit address space, so
    fewer than [2 ^ 59] records are live; the address is one not in use. *)
Definition MAX_RECORDS : Z := 2 ^ 59.
Definition gpr_malloc (σ : state) : option addr :=
  if decide (Z.of_nat (size (heap σ)) < MAX_RECORDS)
  then Some (fresh (dom (heap σ))) else None.

(** Line 219: [s->hash == hash && grpc_slice_cmp(slice, materialize(s)) == 0],
    [data] being the bytes of [slice]. *)
Definition slice_matches (s : addr) (h : Z) (data : list byte) (σ : state)
  : option bool :=
  match heap σ !! s with
  | Some r =>
      if bool_decide (hash r = h) then
        (fun d => bool_decide (data = d))
          <$> slice_data σ (slice_interned s 0 (rlength r))
      else Some false
  | None => None
  end.

(** Lines 237-250, under the mutex of shard [i]: the new record. *)
Definition intern_create (i idx h : Z) (data : list byte) : state -> res addr :=
  fun σ =>
  match shard_at i σ with
  | Some sh =>
      match gpr_malloc σ with
      | Some s =>
          match strs sh !! Z.to_nat idx with
          | Some chain =>
              let r := mk_refcount (Z.of_nat (List.length data)) 1 h data in
              let sh' := mk_shard (mu sh) (<[Z.to_nat idx := s :: chain]> (strs sh))
                           (size_t (count sh + 1)) (capacity sh) in
              let σ' := emit (EvMalloc s)
                          (set_shard i sh' (set_heap (<[s := r]> (heap σ)) σ)) in
              if decide (count sh' > size_t (capacity sh' * 2)) then
                match grow_shard i σ' with
                | Ok _ σ'' => Ok s σ''
                | Crash f σ'' => Crash f σ''
                | Block => Block
                end
              else Ok s σ'
          | None => Crash InvalidAccess σ
          end
      | None => Crash OutOfMemory σ
      end
  | None => Crash InvalidAccess σ
  end.

Definition intern_return (s : addr) : prog grpc_slice :=
  Atomic (materialize s) Ret.

(** Lines 228-230. *)
Definition intern_hit (i : Z) (s : addr) : prog grpc_slice :=
  Atomic (gpr_mu_unlock i) (fun _ => intern_return s).

(** Lines 235-254. *)
Definition intern_miss (i idx h : Z) (data : list byte) : prog grpc_slice :=
  Atomic (intern_create i idx h data) (fun s =>
  Atomic (gpr_mu_unlock i) (fun _ => intern_return s)).

(** Lines 221-226; [k] is the rest of the loop. *)
Definition intern_backout (s : addr) (k : prog grpc_slice) : prog grpc_slice :=
  Atomic (gpr_atm_rel_cas s 1 0) (fun ok =>
  Atomic (GPR_ASSERT ok) (fun _ => k)).

(** Lines 220-231. *)
Definition intern_try (i : Z) (s : addr) (k : prog grpc_slice) : prog grpc_slice :=
  Atomic (gpr_atm_fetch_add s 1) (fun old =>
  if decide (old = 0) then intern_backout s k else intern_hit i s).

(** One turn of the loop of lines 218-233. *)
Definition intern_visit (i h : Z) (data : list byte) (s : addr)
    (k : prog grpc_slice) : prog grpc_slice :=
  Atomic (read (slice_matches s h data)) (fun m =>
  if m : bool then intern_try i s k else k).

Fixpoint intern_scan (i idx h : Z) (data : list byte) (chain : list addr)
  : prog grpc_slice :=
  match chain with
  | [] => intern_miss i idx h data
  | s :: rest => intern_visit i h data s (intern_scan i idx h data rest)
  end.

(** Line 217 and the head of the chain, under the mutex. *)
Definition intern_bucket (i h : Z) (σ : state) : option (Z * list addr) :=
  match shard_at i σ with
  | Some sh =>
      if decide (capacity sh = 0) then None else
      let idx := TABLE_IDX h (capacity sh) in
      (fun chain => (idx, chain)) <$> strs sh !! Z.to_nat idx
  | None => None
  end.

(** Lines 211-254. *)
Definition intern_dynamic (h : Z) (data : list byte) : prog grpc_slice :=
  Atomic (gpr_mu_lock (SHARD_IDX h)) (fun _ =>
  Atomic (read (intern_bucket (SHARD_IDX h) h)) (fun b =>
  intern_scan (SHARD_IDX h) (fst b) h data (snd b))).

Definition grpc_slice_intern (slice : grpc_slice) : prog grpc_slice :=
  if grpc_is_static_metadata_string slice then Ret slice
  else
    Atomic (read (static_query slice)) (fun q =>
    match q with
    | (_, _, Some idx) => Ret (slice_static idx)
    | (h, data, None) => intern_dynamic h data
    end).

(** [grpc_slice_static_intern]: the result is the new value of [*slice]. *)
Definition grpc_slice_static_intern (slice : grpc_slice) : prog grpc_slice :=
  if grpc_is_static_metadata_string slice then Ret slice
  else
    Atomic (read (static_query slice)) (fun q =>
    match q with
    | (_, _, Some idx) =>
        bind (grpc_slice_unref slice) (fun _ => Ret (slice_static idx))
    | (_, _, None) => Ret slice
    end).

(** *** Initialisation and shutdown *)

Definition grpc_test_only_set_slice_hash_seed (seed : Z) : state -> res unit :=
  fun σ => Ok tt (set_seed (uint32_t seed) true σ).

(** Lines 267-272 for one shard. *)
Definition init_shard : slice_shard :=
  mk_shard MuUnlocked (replicate (Z.to_nat INITIAL_SHARD_CAPACITY) [])
    0 INITIAL_SHARD_CAPACITY.

(** Lines 266-273: shards [i], [i + 1], ... ([fuel] of them). *)
Fixpoint init_shards (fuel : nat) (i : Z) (σ : state) : state :=
  match fuel with
  | O => σ
  | S fuel' =>
      init_shards fuel' (i + 1)
        (emit (EvMallocStrs INITIAL_SHARD_CAPACITY) (set_shard i init_shard σ))
  end.

(** Lines 282-293 from offset [j]: the table and the longest probe after
    string [i] with hash [hv] has taken the first free slot. *)
Fixpoint init_probe (fuel : nat) (j hv i : Z)
    (tbl : list static_metadata_hash_ent) (maxp : Z)
  : list static_metadata_hash_ent * Z :=
  match fuel with
  | O => (tbl, maxp)
  | S fuel' =>
      let slot := Z.to_nat (size_t (hv + j) mod STATIC_HASH_SIZE) in
      match tbl !! slot with
      | Some e =>
          if decide (ent_idx e = GRPC_STATIC_MDSTR_COUNT)
          then (<[slot := mk_ent hv (uint32_t i)]> tbl,
                if decide (j > maxp) then uint32_t j else maxp)
          else init_probe fuel' (size_t (j + 1)) hv i tbl maxp
      | None => (tbl, maxp)
      end
  end.

(** Lines 279-294 for the strings [i], [i + 1], ... of the table. *)
Fixpoint init_static (strings : list (list byte)) (i : Z) (σ : state) : state :=
  match strings with
  | [] => σ
  | str :: rest =>
      let hv := grpc_slice_default_hash_impl σ str in
      let vals := <[Z.to_nat i := hv]> (static_metadata_hash_values σ) in
      let '(tbl, maxp) :=
        init_probe (Z.to_nat STATIC_HASH_SIZE) 0 hv i
          (static_metadata_hash σ) (max_static_metadata_hash_probe σ) in
      init_static rest (i + 1) (set_static tbl maxp vals σ)
  end.

(** [tv_nsec] is [gpr_now(GPR_CLOCK_REALTIME).tv_nsec]. *)
Definition grpc_slice_intern_init (tv_nsec : Z) : state -> res unit := fun σ =>
  let σ1 := if g_forced_hash_seed σ then σ
            else set_seed (uint32_t tv_nsec) (g_forced_hash_seed σ) σ in
  let σ2 := init_shards (Z.to_nat SHARD_COUNT) 0 σ1 in
  let σ3 := set_static
              ((fun _ => mk_ent 0 GRPC_STATIC_MDSTR_COUNT) <$> static_metadata_hash σ2)
              0 (static_metadata_hash_values σ2) σ2 in
  Ok tt (init_static grpc_static_slice_table 0 σ3).

(** The globals before [main]: static storage is zero. *)
Definition zero_state : state :=
  mk_state 0 false
    (replicate (Z.to_nat SHARD_COUNT) (mk_shard MuUninit [] 0 0))
    (replicate (Z.to_nat STATIC_HASH_SIZE) (mk_ent 0 0))
    0 (replicate (Z.to_nat GRPC_STATIC_MDSTR_COUNT) 0) ∅ [].

(** Lines 305-313: one [LEAKED] record per record of the chains. *)
Fixpoint dump_chain (h : gmap addr interned_slice_refcount) (chain : list addr)
  : option (list log_record) :=
  match chain with
  | [] => Some []
  | s :: next =>
      match h !! s, dump_chain h next with
      | Some r, Some l => Some (LogLeaked (take (Z.to_nat (rlength r)) (bytes r)) :: l)
      | _, _ => None
      end
  end.

Fixpoint dump_chains (h : gmap addr interned_slice_refcount)
    (chains : list (list addr)) : option (list log_record) :=
  match chains with
  | [] => Some []
  | c :: rest =>
      match dump_chain h c, dump_chains h rest with
      | Some l, Some l' => Some (l ++ l')
      | _, _ => None
      end
  end.

(** The records of [l] logged in order (the trace is latest first). *)
Definition emit_logs (l : list log_record) (σ : state) : state :=
  foldl (fun σ r => emit (EvLog r) σ) σ l.

(** Lines 299-318 for shard [i]; [abort_on_leaks] is
    [grpc_iomgr_abort_on_leaks()]. *)
Definition shutdown_shard (abort_on_leaks : bool) (i : Z) : state -> res unit :=
  fun σ =>
  match shard_at i σ with
  | Some sh =>
      let σ1 := set_shard i (set_mu MuDestroyed sh) σ in
      if decide (count sh = 0) then Ok tt (emit EvFreeStrs σ1)
      else
        match dump_chains (heap σ) (strs sh) with
        | Some leaks =>
            let σ2 := emit_logs (LogWarningLeaked (count sh) :: leaks) σ1 in
            if abort_on_leaks then Crash LeakAbort σ2
            else Ok tt (emit EvFreeStrs σ2)
        | None => Crash InvalidAccess σ1
        end
  | None => Crash InvalidAccess σ
  end.

Fixpoint shutdown_shards (abort_on_leaks : bool) (fuel : nat) (i : Z) (σ : state)
  : res unit :=
  match fuel with
  | O => Ok tt σ
  | S fuel' =>
      match shutdown_shard abort_on_leaks i σ with
      | Ok _ σ' => shutdown_shards abort_on_leaks fuel' (i + 1) σ'
      | r => r
      end
  end.

Definition grpc_slice_intern_shutdown (abort_on_leaks : bool) : state -> res unit :=
  shutdown_shards abort_on_leaks (Z.to_nat SHARD_COUNT) 0.

(** ** Properties of the machine integers *)

Lemma uint32_t_range z : 0 <= uint32_t z < 2 ^ 32.
Proof. unfold uint32_t. apply Z.mod_pos_bound. lia. Qed.

Lemma uint32_t_small z : 0 <= z < 2 ^ 32 -> uint32_t z = z.
Proof. intros. unfold uint32_t. apply Z.mod_small. lia. Qed.

Lemma size_t_small z : 0 <= z < 2 ^ 64 -> size_t z = z.
Proof. intros. unfold size_t. apply Z.mod_small. lia. Qed.

Lemma gpr_atm_small z : - 2 ^ 63 <= z < 2 ^ 63 -> gpr_atm z = z.
Proof. intros. unfold gpr_atm. rewrite Z.mod_small; lia. Qed.

Lemma SHARD_IDX_range h : 0 <= SHARD_IDX h < SHARD_COUNT.
Proof.
  unfold SHARD_IDX, SHARD_COUNT, LOG2_SHARD_COUNT.
  change (Z.shiftl 1 5 - 1) with (Z.ones 5). rewrite Z.land_ones by lia.
  change (Z.shiftl 1 5) with (2 ^ 5). apply Z.mod_pos_bound. lia.
Qed.

Lemma TABLE_IDX_range h c : 0 < c -> 0 <= TABLE_IDX h c < c.
Proof. intros. unfold TABLE_IDX. apply Z.mod_pos_bound. lia. Qed.

Lemma default_hash_range σ data :
  0 <= grpc_slice_default_hash_impl σ data < 2 ^ 32.
Proof. apply uint32_t_range. Qed.

(** Fewer than [n] numbers leave one below [n] out. *)
Lemma free_index (used : list nat) (n : nat) :
  (List.length used < n)%nat -> exists x, (x < n)%nat /\ x ∉ used.
Proof.
  intros Hlen.
  destruct (decide (Forall (fun x => x ∈ used) (seq 0 n))) as [Hall|Hnot].
  - exfalso. assert (seq 0 n ⊆+ used) as Hsub.
    { apply NoDup_submseteq; [apply NoDup_seq|].
      intros x Hx. rewrite Forall_forall in Hall. by apply Hall. }
    apply submseteq_length in Hsub. rewrite length_seq in Hsub. lia.
  - apply not_Forall_Exists in Hnot; [|intros x; apply _].
    apply Exists_exists in Hnot as (x & Hx & Hnx).
    exists x. split; [|exact Hnx]. apply elem_of_seq in Hx. lia.
Qed.

(** ** The static table after initialisation *)

(** The slot that offset [j] of the probe sequence of hash [hv] names when
    the sum does not wrap. *)
Definition slot_of (hv j : Z) : nat := Z.to_nat ((hv + j) mod STATIC_HASH_SIZE).

(** The array parameters a build of the file has: at least one static
    string, and an array size that fits [uint32_t]. *)
Definition table_size_ok : Prop :=
  0 < GRPC_STATIC_MDSTR_COUNT /\ STATIC_HASH_SIZE < 2 ^ 32.

Lemma slot_of_lt hv j : table_size_ok -> (slot_of hv j < Z.to_nat STATIC_HASH_SIZE)%nat.
Proof.
  intros [Hc Hs]. unfold slot_of.
  assert (0 < STATIC_HASH_SIZE) by (unfold STATIC_HASH_SIZE; lia).
  pose proof (Z.mod_pos_bound (hv + j) STATIC_HASH_SIZE). lia.
Qed.

Lemma init_probe_spec fuel : forall j hv i tbl maxp,
  table_size_ok ->
  0 <= hv < 2 ^ 32 -> 0 <= j -> j + Z.of_nat fuel <= STATIC_HASH_SIZE ->
  List.length tbl = Z.to_nat STATIC_HASH_SIZE ->
  0 <= maxp < 2 ^ 32 ->
  (exists j' e, j <= j' < j + Z.of_nat fuel /\
     tbl !! slot_of hv j' = Some e /\ ent_idx e = GRPC_STATIC_MDSTR_COUNT) ->
  exists j0, j <= j0 < j + Z.of_nat fuel /\
    (exists e, tbl !! slot_of hv j0 = Some e /\ ent_idx e = GRPC_STATIC_MDSTR_COUNT) /\
    init_probe fuel j hv i tbl maxp =
      (<[slot_of hv j0 := mk_ent hv (uint32_t i)]> tbl, Z.max maxp j0).
Proof.
  induction fuel as [|fuel IH]; intros j hv i tbl maxp Hok Hhv Hj Hfuel Hlen Hmax Hex.
  - destruct Hex as (j' & e & ? & _). lia.
  - pose proof Hok as [Hc Hs]. simpl.
    rewrite (size_t_small (hv + j)) by lia. fold (slot_of hv j).
    destruct (lookup_lt_is_Some_2 tbl (slot_of hv j)) as [e He].
    { rewrite Hlen. by apply slot_of_lt. }
    rewrite He. destruct (decide (ent_idx e = GRPC_STATIC_MDSTR_COUNT)) as [Hfree|Hocc].
    + exists j. split; [lia|]. split; [eauto|]. f_equal.
      destruct (decide (j > maxp)).
      * rewrite uint32_t_small by lia. lia.
      * lia.
    + rewrite (size_t_small (j + 1)) by lia.
      destruct (IH (j + 1) hv i tbl maxp) as (j0 & Hj0 & Hfree0 & Heq); try done; try lia.
      { destruct Hex as (j' & e' & Hj' & He' & Hfree').
        exists j', e'. split; [|done].
        assert (j' <> j) by (intros ->; congruence). lia. }
      exists j0. split; [lia|]. done.
Qed.

(** The hash of a static string under [seed]. *)
Definition static_hash (seed : Z) (str : list byte) : Z :=
  uint32_t (gpr_murmur_hash3 str seed).

(** The table, the longest probe and the hash values after the first [k]
    static strings have been placed. *)
Record static_inv (seed : Z) (tbl : list static_metadata_hash_ent)
    (maxp : Z) (vals : list Z) (k : nat) : Prop := {
  si_len : List.length tbl = Z.to_nat STATIC_HASH_SIZE;
  si_max : 0 <= maxp < STATIC_HASH_SIZE;
  si_used : exists used : list nat, (List.length used <= k)%nat /\
      forall slot e, tbl !! slot = Some e ->
        ent_idx e <> GRPC_STATIC_MDSTR_COUNT -> slot ∈ used;
  si_placed : forall (i : nat) str, (i < k)%nat ->
      grpc_static_slice_table !! i = Some str ->
      exists j, 0 <= j <= maxp /\
        tbl !! slot_of (static_hash seed str) j
          = Some (mk_ent (static_hash seed str) (Z.of_nat i));
  si_vals_len : List.length vals = List.length grpc_static_slice_table;
  si_vals : forall (i : nat) str, (i < k)%nat ->
      grpc_static_slice_table !! i = Some str ->
      vals !! i = Some (static_hash seed str)
}.

Lemma slot_of_reach hv (x : nat) :
  table_size_ok -> (x < Z.to_nat STATIC_HASH_SIZE)%nat ->
  exists j, 0 <= j < STATIC_HASH_SIZE /\ slot_of hv j = x.
Proof.
  intros [Hc Hs] Hx.
  assert (0 < STATIC_HASH_SIZE) by (unfold STATIC_HASH_SIZE; lia).
  exists ((Z.of_nat x - hv) mod STATIC_HASH_SIZE). split.
  - apply Z.mod_pos_bound. lia.
  - unfold slot_of. rewrite Z.add_mod_idemp_r by lia.
    replace (hv + (Z.of_nat x - hv)) with (Z.of_nat x) by lia.
    rewrite Z.mod_small by lia. lia.
Qed.

Lemma init_static_step seed tbl maxp vals (k : nat) str :
  table_size_ok ->
  grpc_static_slice_table !! k = Some str ->
  static_inv seed tbl maxp vals k ->
  let hv := static_hash seed str in
  let r := init_probe (Z.to_nat STATIC_HASH_SIZE) 0 hv (Z.of_nat k) tbl maxp in
  static_inv seed (fst r) (snd r) (<[k := hv]> vals) (S k).
Proof.
  intros Hok Hk [Hlen Hmax (used & Hused & Hocc) Hplaced Hvl Hvals] hv r.
  pose proof Hok as [Hc Hs].
  assert (k < List.length grpc_static_slice_table)%nat as Hklt
    by (apply lookup_lt_is_Some; eauto).
  assert (Z.of_nat k < GRPC_STATIC_MDSTR_COUNT) as HkN
    by (unfold GRPC_STATIC_MDSTR_COUNT; lia).
  assert (GRPC_STATIC_MDSTR_COUNT <= STATIC_HASH_SIZE) as HNS
    by (unfold STATIC_HASH_SIZE; lia).
  assert (0 <= hv < 2 ^ 32) as Hhv by apply uint32_t_range.
  destruct (free_index used (Z.to_nat STATIC_HASH_SIZE)) as (x & Hx & Hxu); [lia|].
  destruct (lookup_lt_is_Some_2 tbl x) as [ex Hex]; [lia|].
  assert (ent_idx ex = GRPC_STATIC_MDSTR_COUNT) as Hfree.
  { destruct (decide (ent_idx ex = GRPC_STATIC_MDSTR_COUNT)); [done|].
    exfalso. eauto. }
  destruct (slot_of_reach hv x Hok Hx) as (jx & Hjx & Hsx).
  destruct (init_probe_spec (Z.to_nat STATIC_HASH_SIZE) 0 hv (Z.of_nat k) tbl maxp)
    as (j0 & Hj0 & (e0 & He0 & Hfree0) & Heq); try done; try lia.
  { exists jx, ex. rewrite Hsx. split; [lia|done]. }
  subst r. rewrite Heq. simpl.
  assert (slot_of hv j0 < List.length tbl)%nat as Hs0
    by (rewrite Hlen; by apply slot_of_lt).
  constructor.
  - by rewrite length_insert.
  - lia.
  - exists (slot_of hv j0 :: used). split; [simpl; lia|].
    intros slot e He Hne. destruct (decide (slot = slot_of hv j0)) as [->|Hd].
    + left.
    + right. rewrite list_lookup_insert_ne in He by done. eauto.
  - intros i s Hi Hs'. destruct (decide (i = k)) as [->|Hik].
    + assert (s = str) as -> by congruence.
      exists j0. split; [lia|].
      rewrite list_lookup_insert_eq by done.
      rewrite uint32_t_small by lia. done.
    + destruct (Hplaced i s) as (j & Hj & Hent); [lia|done|].
      exists j. split; [lia|].
      rewrite list_lookup_insert_ne; [done|].
      intros Heqs. rewrite Heqs, Hent in He0. injection He0 as <-.
      simpl in Hfree0.
      assert (i < List.length grpc_static_slice_table)%nat
        by (apply lookup_lt_is_Some; eauto).
      unfold GRPC_STATIC_MDSTR_COUNT in Hfree0. lia.
  - by rewrite length_insert.
  - intros i s Hi Hs'. destruct (decide (i = k)) as [->|Hik].
    + assert (s = str) as -> by congruence.
      rewrite list_lookup_insert_eq by lia. done.
    + rewrite list_lookup_insert_ne by done. apply Hvals; [lia|done].
Qed.

Lemma init_static_inv strings : forall (k : nat) σ,
  table_size_ok -> (k <= List.length grpc_static_slice_table)%nat ->
  drop k grpc_static_slice_table = strings ->
  static_inv (g_hash_seed σ) (static_metadata_hash σ)
    (max_static_metadata_hash_probe σ) (static_metadata_hash_values σ) k ->
  let σ' := init_static strings (Z.of_nat k) σ in
  static_inv (g_hash_seed σ') (static_metadata_hash σ')
    (max_static_metadata_hash_probe σ') (static_metadata_hash_values σ')
    (List.length grpc_static_slice_table)
  /\ g_hash_seed σ' = g_hash_seed σ /\ g_forced_hash_seed σ' = g_forced_hash_seed σ
  /\ g_shards σ' = g_shards σ /\ heap σ' = heap σ /\ trace σ' = trace σ.
Proof.
  induction strings as [|str rest IH]; intros k σ Hok Hkle Hdrop Hinv; simpl.
  - split; [|done].
    assert (k = List.length grpc_static_slice_table) as <-; [|done].
    apply (f_equal List.length) in Hdrop. rewrite length_drop in Hdrop.
    simpl in Hdrop. lia.
  - assert (grpc_static_slice_table !! k = Some str) as Hk.
    { rewrite <- (Nat.add_0_r k), <- lookup_drop, Hdrop. done. }
    pose proof (init_static_step _ _ _ _ k str Hok Hk Hinv) as Hstep.
    unfold static_hash in Hstep. fold (grpc_slice_default_hash_impl σ str) in Hstep.
    simpl in Hstep.
    destruct (init_probe _ 0 _ _ _ _) as [tbl maxp] eqn:Hprobe. simpl in Hstep.
    replace (Z.of_nat k + 1) with (Z.of_nat (S k)) by lia.
    destruct (IH (S k)
      (set_static tbl maxp
         (<[Z.to_nat (Z.of_nat k) := grpc_slice_default_hash_impl σ str]>
            (static_metadata_hash_values σ)) σ)) as (Hfin & Hrest); [done| | |simpl|].
    + apply lookup_lt_Some in Hk. lia.
    + rewrite (drop_S _ _ _ Hk) in Hdrop. by injection Hdrop.
    + rewrite Nat2Z.id. exact Hstep.
    + split; [exact Hfin|]. exact Hrest.
Qed.

Definition static_ok (σ : state) : Prop :=
  table_size_ok /\
  static_inv (g_hash_seed σ) (static_metadata_hash σ)
    (max_static_metadata_hash_probe σ) (static_metadata_hash_values σ)
    (List.length grpc_static_slice_table).

(** The sizes of the three global arrays. *)
Definition arrays_ok (σ : state) : Prop :=
  List.length (g_shards σ) = Z.to_nat SHARD_COUNT /\
  List.length (static_metadata_hash σ) = Z.to_nat STATIC_HASH_SIZE /\
  List.length (static_metadata_hash_values σ) = List.length grpc_static_slice_table.

Lemma init_shards_spec fuel : forall (i : nat) σ,
  (i + fuel <= List.length (g_shards σ))%nat ->
  let σ' := init_shards fuel (Z.of_nat i) σ in
  (forall j : nat, g_shards σ' !! j =
     if decide (i <= j < i + fuel)%nat then Some init_shard else g_shards σ !! j)
  /\ g_hash_seed σ' = g_hash_seed σ /\ g_forced_hash_seed σ' = g_forced_hash_seed σ
  /\ static_metadata_hash σ' = static_metadata_hash σ
  /\ max_static_metadata_hash_probe σ' = max_static_metadata_hash_probe σ
  /\ static_metadata_hash_values σ' = static_metadata_hash_values σ
  /\ heap σ' = heap σ.
Proof.
  induction fuel as [|fuel IH]; intros i σ Hlen; simpl.
  - split; [|done]. intros j. case_decide; [lia|done].
  - replace (Z.of_nat i + 1) with (Z.of_nat (S i)) by lia.
    destruct (IH (S i) (emit (EvMallocStrs INITIAL_SHARD_CAPACITY)
                          (set_shard (Z.of_nat i) init_shard σ))) as (Hsh & Hrest).
    { simpl. rewrite length_insert. lia. }
    split; [|exact Hrest]. intros j. rewrite Hsh. simpl. rewrite Nat2Z.id.
    destruct (decide (i = j)) as [->|Hne].
    + rewrite list_lookup_insert_eq by lia. repeat case_decide; try done; lia.
    + rewrite list_lookup_insert_ne by done. repeat case_decide; try done; lia.
Qed.

Lemma init_spec tv_nsec σ :
  table_size_ok -> arrays_ok σ ->
  exists σ', grpc_slice_intern_init tv_nsec σ = Ok tt σ' /\
    static_ok σ' /\
    g_shards σ' = replicate (Z.to_nat SHARD_COUNT) init_shard /\
    heap σ' = heap σ /\
    g_hash_seed σ' = (if g_forced_hash_seed σ then g_hash_seed σ else uint32_t tv_nsec).
Proof.
  intros Hok (Hsh & Htbl & Hvals). unfold grpc_slice_intern_init.
  set (σ1 := if g_forced_hash_seed σ then σ else _).
  assert (g_shards σ1 = g_shards σ /\ heap σ1 = heap σ /\
          static_metadata_hash σ1 = static_metadata_hash σ /\
          static_metadata_hash_values σ1 = static_metadata_hash_values σ /\
          g_hash_seed σ1 = (if g_forced_hash_seed σ then g_hash_seed σ
                            else uint32_t tv_nsec)) as (E1 & E2 & E3 & E4 & E5).
  { subst σ1. by destruct (g_forced_hash_seed σ). }
  destruct (init_shards_spec (Z.to_nat SHARD_COUNT) 0 σ1) as (Hs2 & S1 & S2 & S3 & S4 & S5 & S6).
  { rewrite E1. lia. }
  change (Z.of_nat 0) with 0 in *.
  set (σ2 := init_shards (Z.to_nat SHARD_COUNT) 0 σ1) in *.
  set (σ3 := set_static _ 0 _ σ2).
  destruct (init_static_inv grpc_static_slice_table 0 σ3) as (Hinv & T1 & T2 & T3 & T4 & T5);
    try done; try lia.
  { pose proof Hok as [Hc Hs]. subst σ3. simpl.
    assert (0 < STATIC_HASH_SIZE) by (unfold STATIC_HASH_SIZE; lia).
    constructor; try (intros; lia).
    - rewrite length_fmap, ?S3, ?E3. done.
    - exists []. split; [done|]. intros slot e He Hne.
      rewrite list_lookup_fmap in He.
      destruct (_ !! slot); [|discriminate He].
      injection He as <-. by destruct Hne.
    - rewrite ?S5, ?E4. done. }
  change (Z.of_nat 0) with 0 in *. eexists. split; [reflexivity|].
  split; [by split|]. rewrite T3, T4, T1. subst σ3.
  rewrite g_shards_set_static, heap_set_static, g_hash_seed_set_static.
  split; [|split; [congruence|congruence]].
  apply list_eq. intros j. rewrite Hs2.
  destruct (decide (j < Z.to_nat SHARD_COUNT)%nat).
  - rewrite lookup_replicate_2 by done. case_decide; [done|lia].
  - rewrite (lookup_ge_None_2 (replicate _ _)) by (rewrite length_replicate; lia).
    case_decide; [lia|]. apply lookup_ge_None_2. rewrite E1. lia.
Qed.

(** *** The probe of [grpc_slice_intern] and [grpc_slice_static_intern] *)

Lemma static_probe_sound σ h data fuel : forall i k,
  static_probe σ h data fuel i = Some (Some k) ->
  static_slice k = Some data /\ k < GRPC_STATIC_MDSTR_COUNT.
Proof.
  induction fuel as [|fuel IH]; intros i k; simpl; [done|].
  destruct (_ !! _) as [ent|]; [|done].
  destruct (bool_decide (ent_hash ent = h) && _ && _) eqn:Htest.
  - intros [= <-]. apply andb_prop in Htest as [Htest H3].
    apply andb_prop in Htest as [_ H2].
    apply bool_decide_eq_true in H2, H3. done.
  - apply IH.
Qed.

Lemma static_index_lt σ x :
  table_size_ok ->
  List.length (static_metadata_hash σ) = Z.to_nat STATIC_HASH_SIZE ->
  (Z.to_nat (x mod STATIC_HASH_SIZE) < List.length (static_metadata_hash σ))%nat.
Proof.
  intros [Hc Hs] ->.
  assert (0 < STATIC_HASH_SIZE) by (unfold STATIC_HASH_SIZE; lia).
  pose proof (Z.mod_pos_bound x STATIC_HASH_SIZE). lia.
Qed.

Lemma static_probe_total σ h data fuel : forall i,
  table_size_ok ->
  List.length (static_metadata_hash σ) = Z.to_nat STATIC_HASH_SIZE ->
  is_Some (static_probe σ h data fuel i).
Proof.
  intros i Hok Hlen. revert i.
  induction fuel as [|fuel IH]; intros i; simpl; [done|].
  destruct (lookup_lt_is_Some_2 (static_metadata_hash σ)
              (Z.to_nat (uint32_t (h + i) mod STATIC_HASH_SIZE))) as [ent ->].
  { by apply static_index_lt. }
  destruct (_ && _); [done|apply IH].
Qed.

Lemma static_probe_miss σ h data fuel : forall i,
  table_size_ok ->
  List.length (static_metadata_hash σ) = Z.to_nat STATIC_HASH_SIZE ->
  (forall k, static_slice k <> Some data) ->
  static_probe σ h data fuel i = Some None.
Proof.
  intros i Hok Hlen Hno.
  destruct (static_probe_total σ h data fuel i Hok Hlen) as [[k|] Hr]; [|done].
  apply static_probe_sound in Hr as [Hr _]. by apply Hno in Hr.
Qed.

(** An entry for [data] at an offset the loop reaches without wrap-around
    ends the loop with a hit. *)
Lemma static_probe_hit σ h data fuel : forall i j ent,
  table_size_ok ->
  List.length (static_metadata_hash σ) = Z.to_nat STATIC_HASH_SIZE ->
  0 <= i -> i <= j < i + Z.of_nat fuel -> i + Z.of_nat fuel <= 2 ^ 32 ->
  static_metadata_hash σ !! Z.to_nat (uint32_t (h + j) mod STATIC_HASH_SIZE)
    = Some ent ->
  ent_hash ent = h -> ent_idx ent < GRPC_STATIC_MDSTR_COUNT ->
  static_slice (ent_idx ent) = Some data ->
  exists k, static_probe σ h data fuel i = Some (Some k).
Proof.
  induction fuel as [|fuel IH]; intros i j ent Hok Hlen Hi Hj Hfuel Hent H1 H2 H3;
    [lia|]. simpl.
  destruct (decide (i = j)) as [->|Hne].
  - rewrite Hent. rewrite !bool_decide_eq_true_2 by done. simpl. eauto.
  - destruct (lookup_lt_is_Some_2 (static_metadata_hash σ)
                (Z.to_nat (uint32_t (h + i) mod STATIC_HASH_SIZE))) as [e ->].
    { by apply static_index_lt. }
    destruct (_ && _); [eauto|].
    rewrite uint32_t_small by lia.
    apply (IH (i + 1) j ent); try done; lia.
Qed.

(** Probe bound: every static string sits at an offset of at most
    [max_static_metadata_hash_probe] from the slot its hash names, the
    offset being added without wrap-around as [grpc_slice_intern_init]
    does. *)
Lemma static_probe_bound σ (i : nat) str :
  static_ok σ -> grpc_static_slice_table !! i = Some str ->
  exists j, 0 <= j <= max_static_metadata_hash_probe σ /\
    static_metadata_hash σ
      !! Z.to_nat ((grpc_slice_default_hash_impl σ str + j) mod STATIC_HASH_SIZE)
    = Some (mk_ent (grpc_slice_default_hash_impl σ str) (Z.of_nat i)).
Proof.
  intros [Hok Hinv] Hi. apply (si_placed _ _ _ _ _ Hinv i str); [|done].
  by apply lookup_lt_Some in Hi.
Qed.

(** The lookup finds a static string unless an offset wraps around
    [2 ^ 32]. *)
Lemma static_lookup_complete σ (i : nat) data :
  static_ok σ -> grpc_static_slice_table !! i = Some data ->
  grpc_slice_default_hash_impl σ data + max_static_metadata_hash_probe σ < 2 ^ 32 ->
  exists k, static_lookup σ (grpc_slice_default_hash_impl σ data) data = Some (Some k)
    /\ static_slice k = Some data.
Proof.
  intros Hst Hi Hwrap. pose proof Hst as [Hok Hinv].
  destruct (static_probe_bound σ i data Hst Hi) as (j & Hj & Hent).
  pose proof (default_hash_range σ data) as Hh.
  pose proof (si_max _ _ _ _ _ Hinv) as Hmax. pose proof Hok as [Hc Hs].
  assert (Z.of_nat i < GRPC_STATIC_MDSTR_COUNT) as HiN.
  { apply lookup_lt_Some in Hi. unfold GRPC_STATIC_MDSTR_COUNT. lia. }
  destruct (static_probe_hit σ (grpc_slice_default_hash_impl σ data) data
              (Z.to_nat (max_static_metadata_hash_probe σ + 1)) 0 j
              (mk_ent (grpc_slice_default_hash_impl σ data) (Z.of_nat i)))
    as [k Hk]; try done; try lia.
  - apply (si_len _ _ _ _ _ Hinv).
  - rewrite uint32_t_small by lia. exact Hent.
  - simpl. unfold static_slice. rewrite decide_True by lia. by rewrite Nat2Z.id.
  - exists k. split; [exact Hk|]. by apply static_probe_sound in Hk as [? _].
Qed.

Lemma static_lookup_sound σ h data k :
  static_lookup σ h data = Some (Some k) ->
  static_slice k = Some data /\ k < GRPC_STATIC_MDSTR_COUNT.
Proof. apply static_probe_sound. Qed.

Lemma static_lookup_miss σ h data :
  static_ok σ -> (forall k, static_slice k <> Some data) ->
  static_lookup σ h data = Some None.
Proof.
  intros [Hok Hinv] Hno. apply static_probe_miss; try done.
  apply (si_len _ _ _ _ _ Hinv).
Qed.

Lemma static_lookup_total σ h data :
  static_ok σ -> is_Some (static_lookup σ h data).
Proof.
  intros [Hok Hinv]. apply static_probe_total; [done|].
  apply (si_len _ _ _ _ _ Hinv).
Qed.

(** ** The invariant of the dynamic table *)

(** A record holds the length and the hash of its bytes. *)
Definition record_ok (σ : state) (r : interned_slice_refcount) : Prop :=
  rlength r = Z.of_nat (List.length (bytes r)) /\
  hash r = grpc_slice_default_hash_impl σ (bytes r).

(** Shard [i]: one chain per bucket, [count] records in all, none twice,
    each in the store and in the shard and the bucket its hash names. *)
Record shard_ok (hp : gmap addr interned_slice_refcount) (i : Z)
    (sh : slice_shard) : Prop := {
  so_cap : 0 < capacity sh <= MAX_RECORDS;
  so_len : List.length (strs sh) = Z.to_nat (capacity sh);
  so_count : count sh = Z.of_nat (List.length (concat (strs sh)));
  so_nodup : NoDup (concat (strs sh));
  so_home : forall (idx : nat) chain s,
      strs sh !! idx = Some chain -> s ∈ chain ->
      exists r, hp !! s = Some r /\ SHARD_IDX (hash r) = i /\
                TABLE_IDX (hash r) (capacity sh) = Z.of_nat idx
}.

(** The bucket chain that a record with hash [h] belongs to. *)
Definition home_chain (σ : state) (h : Z) : option (list addr) :=
  match shard_at (SHARD_IDX h) σ with
  | Some sh => strs sh !! Z.to_nat (TABLE_IDX h (capacity sh))
  | None => None
  end.

Record wf (σ : state) : Prop := {
  wf_shards : List.length (g_shards σ) = Z.to_nat SHARD_COUNT;
  wf_shard : forall (i : nat) sh,
      g_shards σ !! i = Some sh -> shard_ok (heap σ) (Z.of_nat i) sh;
  wf_linked : forall s r, heap σ !! s = Some r ->
      exists chain, home_chain σ (hash r) = Some chain /\ s ∈ chain;
  wf_record : forall s r, heap σ !! s = Some r -> record_ok σ r;
  wf_mem : Z.of_nat (size (heap σ)) <= MAX_RECORDS
}.

(** No two records that a lookup may return hold the same bytes. *)
Definition canonical (σ : state) : Prop :=
  forall s1 r1 s2 r2,
    heap σ !! s1 = Some r1 -> heap σ !! s2 = Some r2 ->
    refcnt r1 <> 0 -> refcnt r2 <> 0 -> bytes r1 = bytes r2 -> s1 = s2.

(** No record holds a string that the static lookup finds. *)
Definition static_miss (σ : state) : Prop :=
  forall s r, heap σ !! s = Some r ->
    static_lookup σ (hash r) (bytes r) = Some None.

(** No mutex is held: the state between two calls of one thread. *)
Definition quiet (σ : state) : Prop :=
  forall sh, sh ∈ g_shards σ -> mu sh = MuUnlocked.

(** Every record is referenced, and no counter is at its maximum. *)
Definition all_live (σ : state) : Prop :=
  forall s r, heap σ !! s = Some r -> 0 < refcnt r.

Definition no_overflow (σ : state) : Prop :=
  forall s r, heap σ !! s = Some r -> refcnt r < 2 ^ 63 - 1.

(** The counters are within [gpr_atm] and not negative. *)
Definition refs_in_range (σ : state) : Prop :=
  forall s r, heap σ !! s = Some r -> 0 <= refcnt r < 2 ^ 63.

(** The invariant of the states between the calls of a run. *)
Record inv (σ : state) : Prop := {
  inv_static : static_ok σ;
  inv_wf : wf σ;
  inv_canonical : canonical σ;
  inv_static_miss : static_miss σ;
  inv_quiet : quiet σ;
  inv_live : all_live σ;
  inv_range : refs_in_range σ
}.

(** *** Setters *)

Lemma set_heap_id σ : set_heap (heap σ) σ = σ.
Proof. by destruct σ. Qed.

Lemma set_shards_id σ : set_shards (g_shards σ) σ = σ.
Proof. by destruct σ. Qed.

Lemma set_shard_id i sh σ : shard_at i σ = Some sh -> set_shard i sh σ = σ.
Proof.
  unfold shard_at, set_shard. intros H. rewrite list_insert_id by done.
  apply set_shards_id.
Qed.

Lemma shard_at_set_shard i j sh σ :
  shard_at j (set_shard i sh σ) =
    if decide (Z.to_nat i = Z.to_nat j /\ (Z.to_nat i < List.length (g_shards σ))%nat)
    then Some sh else shard_at j σ.
Proof.
  unfold shard_at, set_shard. simpl. case_decide as H.
  - destruct H as [-> ?]. by rewrite list_lookup_insert_eq.
  - destruct (decide (Z.to_nat i = Z.to_nat j)) as [E|E].
    + rewrite <- E. rewrite list_insert_ge by lia. done.
    + by rewrite list_lookup_insert_ne.
Qed.

Lemma shard_at_Some i σ sh :
  shard_at i σ = Some sh -> (Z.to_nat i < List.length (g_shards σ))%nat.
Proof. unfold shard_at. apply lookup_lt_Some. Qed.

Lemma shard_at_set_shard_eq i sh sh0 σ :
  shard_at i σ = Some sh0 -> shard_at i (set_shard i sh σ) = Some sh.
Proof.
  intros H%shard_at_Some. rewrite shard_at_set_shard. by rewrite decide_True.
Qed.

Lemma wf_shard_at σ i sh :
  wf σ -> 0 <= i -> shard_at i σ = Some sh -> shard_ok (heap σ) i sh.
Proof.
  intros Hwf Hi Hsh. unfold shard_at in Hsh.
  pose proof (wf_shard σ Hwf _ _ Hsh) as H. by rewrite Z2Nat.id in H.
Qed.

Lemma wf_shard_exists σ i :
  wf σ -> 0 <= i < SHARD_COUNT -> exists sh, shard_at i σ = Some sh.
Proof.
  intros Hwf Hi. apply lookup_lt_is_Some. rewrite (wf_shards σ Hwf). lia.
Qed.

Lemma quiet_shard_at σ i sh : quiet σ -> shard_at i σ = Some sh -> mu sh = MuUnlocked.
Proof. intros Hq Hsh. apply Hq. by eapply list_elem_of_lookup_2. Qed.

Lemma shard_at_set_heap_eq i hp σ : shard_at i (set_heap hp σ) = shard_at i σ.
Proof. done. Qed.

Lemma shard_at_emit i e σ : shard_at i (emit e σ) = shard_at i σ.
Proof. done. Qed.

(** ** The chain scan of [grpc_slice_intern] *)

(** The first record of the chain with the hash and the bytes looked for and
    a counter that is not zero. *)
Fixpoint first_live (hp : gmap addr interned_slice_refcount) (h : Z)
    (data : list byte) (chain : list addr) : option addr :=
  match chain with
  | [] => None
  | s :: rest =>
      match hp !! s with
      | Some r =>
          if bool_decide (hash r = h) && bool_decide (data = bytes r)
             && bool_decide (refcnt r <> 0)
          then Some s else first_live hp h data rest
      | None => first_live hp h data rest
      end
  end.

(** The state after one more reference to [s]. *)
Definition bump (s : addr) (σ : state) : state :=
  match heap σ !! s with
  | Some r => set_heap (<[s := set_refcnt (gpr_atm (refcnt r + 1)) r]> (heap σ)) σ
  | None => σ
  end.

Lemma slice_data_whole σ s r :
  heap σ !! s = Some r -> rlength r = Z.of_nat (List.length (bytes r)) ->
  slice_data σ (slice_interned s 0 (rlength r)) = Some (bytes r).
Proof.
  intros Hs Hlen. unfold slice_data. rewrite Hs.
  rewrite decide_True by lia. rewrite drop_0, take_ge by lia. done.
Qed.

Lemma slice_matches_ok σ s r h data :
  heap σ !! s = Some r -> rlength r = Z.of_nat (List.length (bytes r)) ->
  slice_matches s h data σ
    = Some (bool_decide (hash r = h) && bool_decide (data = bytes r)).
Proof.
  intros Hs Hlen. unfold slice_matches. rewrite Hs.
  destruct (bool_decide (hash r = h)); [|done].
  by rewrite (slice_data_whole σ s r).
Qed.

Lemma set_refcnt_set_refcnt a b r : set_refcnt a (set_refcnt b r) = set_refcnt a r.
Proof. done. Qed.

Lemma set_refcnt_id r : set_refcnt (refcnt r) r = r.
Proof. by destruct r. Qed.

Lemma set_heap_set_heap h1 h2 σ : set_heap h1 (set_heap h2 σ) = set_heap h1 σ.
Proof. done. Qed.

(** The back-out of lines 220-226 leaves the state as it was. *)
Lemma run_backout σ i s r (k : prog grpc_slice) :
  heap σ !! s = Some r -> refcnt r = 0 ->
  run (intern_try i s k) σ = run k σ.
Proof.
  intros Hs H0. unfold intern_try. cbn [run]. unfold gpr_atm_fetch_add at 1.
  rewrite Hs, H0. rewrite decide_True by done.
  unfold intern_backout. cbn [run]. unfold gpr_atm_rel_cas.
  rewrite heap_set_heap, lookup_insert_eq. cbn [refcnt set_refcnt].
  rewrite decide_True by done.
  cbn [GPR_ASSERT]. rewrite set_heap_set_heap, insert_insert_eq.
  rewrite set_refcnt_set_refcnt. rewrite <- H0, set_refcnt_id.
  rewrite insert_id by done. by rewrite set_heap_id.
Qed.

Lemma run_try_live σ i s r (k : prog grpc_slice) :
  heap σ !! s = Some r -> refcnt r <> 0 ->
  run (intern_try i s k) σ = run (intern_hit i s) (bump s σ).
Proof.
  intros Hs H0. unfold intern_try. cbn [run]. unfold gpr_atm_fetch_add, bump.
  rewrite Hs. by rewrite decide_False.
Qed.

Lemma run_scan i idx h data chain : forall σ,
  (forall s, s ∈ chain -> exists r, heap σ !! s = Some r /\
      rlength r = Z.of_nat (List.length (bytes r))) ->
  run (intern_scan i idx h data chain) σ =
    match first_live (heap σ) h data chain with
    | Some s => run (intern_hit i s) (bump s σ)
    | None => run (intern_miss i idx h data) σ
    end.
Proof.
  induction chain as [|s rest IH]; intros σ Hin; [done|].
  destruct (Hin s) as (r & Hs & Hlen); [left|].
  cbn [intern_scan first_live]. rewrite Hs.
  unfold intern_visit. cbn [run]. unfold read.
  rewrite (slice_matches_ok σ s r) by done.
  assert (forall s', s' ∈ rest -> exists r', heap σ !! s' = Some r' /\
      rlength r' = Z.of_nat (List.length (bytes r'))) as Hrest
    by (intros s' Hs'; apply Hin; by right).
  destruct (bool_decide (hash r = h) && bool_decide (data = bytes r)) eqn:Hm;
    cbn [andb].
  - destruct (decide (refcnt r = 0)) as [H0|H0].
    + rewrite bool_decide_eq_false_2 by tauto.
      rewrite (run_backout σ i s r) by done. by apply IH.
    + rewrite bool_decide_eq_true_2 by done.
      by rewrite (run_try_live σ i s r).
  - by apply IH.
Qed.

(** ** Bucket arrays *)

Lemma elem_of_concat (l : list (list addr)) s :
  s ∈ concat l <-> exists (idx : nat) c, l !! idx = Some c /\ s ∈ c.
Proof.
  rewrite list_elem_of_In, in_concat. split.
  - intros (c & Hc & Hs). apply list_elem_of_In, list_elem_of_lookup in Hc as [idx Hidx].
    exists idx, c. by rewrite list_elem_of_In.
  - intros (idx & c & Hidx & Hs). exists c. rewrite <- !list_elem_of_In.
    split; [by eapply list_elem_of_lookup_2|done].
Qed.

Lemma concat_insert (l : list (list addr)) (i : nat) b b' :
  l !! i = Some b ->
  concat (<[i := b']> l) = concat (take i l) ++ b' ++ concat (drop (S i) l).
Proof.
  intros Hi. rewrite insert_take_drop by (by eapply lookup_lt_Some).
  by rewrite concat_app, concat_cons.
Qed.

Lemma concat_lookup (l : list (list addr)) (i : nat) b :
  l !! i = Some b ->
  concat l = concat (take i l) ++ b ++ concat (drop (S i) l).
Proof.
  intros Hi. rewrite <- (concat_insert l i b b Hi). by rewrite list_insert_id.
Qed.

Lemma concat_insert_cons (l : list (list addr)) (i : nat) b s :
  l !! i = Some b -> concat (<[i := s :: b]> l) ≡ₚ s :: concat l.
Proof.
  intros Hi. rewrite (concat_insert l i b _ Hi), (concat_lookup l i b Hi).
  cbn [app]. by rewrite <- Permutation_middle.
Qed.

Lemma unlink_perm s chain chain' :
  unlink s chain = Some chain' -> chain ≡ₚ s :: chain'.
Proof.
  revert chain'. induction chain as [|cur rest IH]; intros chain'; [done|].
  cbn [unlink]. case_decide as Hc.
  - intros [= <-]. by subst.
  - destruct (unlink s rest) as [l|]; [|done]. intros [= <-].
    rewrite (IH l eq_refl). apply perm_swap.
Qed.

Lemma unlink_Some s chain : s ∈ chain -> is_Some (unlink s chain).
Proof.
  induction chain as [|cur rest IH]; [by intros ?%elem_of_nil|].
  intros Hin. cbn [unlink]. case_decide as Hc; [done|].
  apply elem_of_cons in Hin as [->|Hin]; [done|].
  destruct (IH Hin) as [l ->]. done.
Qed.

Lemma unlink_None s chain : s ∉ chain -> unlink s chain = None.
Proof.
  intros Hnot. destruct (unlink s chain) as [l|] eqn:E; [|done].
  apply unlink_perm in E. exfalso. apply Hnot. rewrite E. left.
Qed.

Lemma concat_insert_unlink (l : list (list addr)) (i : nat) b b' s :
  l !! i = Some b -> unlink s b = Some b' ->
  concat l ≡ₚ s :: concat (<[i := b']> l).
Proof.
  intros Hi Hu. rewrite (concat_insert l i b _ Hi), (concat_lookup l i b Hi).
  rewrite (unlink_perm _ _ _ Hu). cbn [app].
  by rewrite <- Permutation_middle.
Qed.

(** A chain of distinct records of the store is no longer than the store. *)
Lemma chain_length_le_size (hp : gmap addr interned_slice_refcount) (l : list addr) :
  NoDup l -> (forall s, s ∈ l -> is_Some (hp !! s)) ->
  (List.length l <= size hp)%nat.
Proof.
  intros Hnd Hin. rewrite <- size_dom. unfold size, set_size. simpl.
  apply submseteq_length, NoDup_submseteq; [done|].
  intros s Hs. apply elem_of_elements, elem_of_dom. by apply Hin.
Qed.

Lemma concat_replicate_nil (n : nat) : concat (replicate n ([] : list addr)) = [].
Proof. induction n as [|n IH]; [done|]. simpl. exact IH. Qed.

(** ** Growth of a shard *)

Lemma relink_spec hp cap chain : forall strtab,
  0 < cap -> List.length strtab = Z.to_nat cap ->
  (forall s, s ∈ chain -> is_Some (hp !! s)) ->
  exists strtab', relink hp cap chain strtab = Some strtab' /\
    List.length strtab' = List.length strtab /\
    concat strtab' ≡ₚ chain ++ concat strtab /\
    (forall (idx : nat) c s, strtab' !! idx = Some c -> s ∈ c ->
       (exists c0, strtab !! idx = Some c0 /\ s ∈ c0) \/
       (s ∈ chain /\ exists r, hp !! s = Some r /\
          TABLE_IDX (hash r) cap = Z.of_nat idx)).
Proof.
  induction chain as [|s next IH]; intros strtab Hcap Hlen Hin.
  - exists strtab. repeat split; try done. intros idx c s Hc Hs. left. eauto.
  - destruct (Hin s) as [r Hr]; [left|]. cbn [relink]. rewrite Hr.
    rewrite decide_False by lia.
    pose proof (TABLE_IDX_range (hash r) cap Hcap) as Hidx.
    set (ix := Z.to_nat (TABLE_IDX (hash r) cap)).
    destruct (lookup_lt_is_Some_2 strtab ix) as [bucket Hb]; [lia|]. rewrite Hb.
    destruct (IH (<[ix := s :: bucket]> strtab)) as (strtab' & Hrun & Hl & Hperm & Hhome);
      [done|by rewrite length_insert|intros s' Hs'; apply Hin; by right|].
    exists strtab'. split; [done|]. split; [by rewrite Hl, length_insert|]. split.
    + rewrite Hperm, concat_insert_cons by done. cbn [app].
      by rewrite <- Permutation_middle.
    + intros idx c s' Hc Hs'. destruct (Hhome idx c s' Hc Hs') as [(c0 & Hc0 & Hs0)|[Hn Hr']].
      * destruct (decide (ix = idx)) as [<-|Hne].
        -- rewrite list_lookup_insert_eq in Hc0 by lia. injection Hc0 as <-.
           apply elem_of_cons in Hs0 as [->|Hs0].
           ++ right. split; [left|]. exists r. split; [done|]. subst ix. lia.
           ++ left. eauto.
        -- rewrite list_lookup_insert_ne in Hc0 by done. left. eauto.
      * right. split; [by right|done].
Qed.

Lemma relink_all_spec hp cap old : forall strtab,
  0 < cap -> List.length strtab = Z.to_nat cap ->
  (forall s, s ∈ concat old -> is_Some (hp !! s)) ->
  exists strtab', relink_all hp cap old strtab = Some strtab' /\
    List.length strtab' = List.length strtab /\
    concat strtab' ≡ₚ concat old ++ concat strtab /\
    (forall (idx : nat) c s, strtab' !! idx = Some c -> s ∈ c ->
       (exists c0, strtab !! idx = Some c0 /\ s ∈ c0) \/
       (s ∈ concat old /\ exists r, hp !! s = Some r /\
          TABLE_IDX (hash r) cap = Z.of_nat idx)).
Proof.
  induction old as [|chain rest IH]; intros strtab Hcap Hlen Hin.
  - exists strtab. repeat split; try done. intros idx c s Hc Hs. left. eauto.
  - cbn [relink_all concat] in *.
    destruct (relink_spec hp cap chain strtab) as (st1 & Hrun1 & Hl1 & Hp1 & Hh1);
      [done|done|intros s Hs; apply Hin, elem_of_app; by left|].
    rewrite Hrun1.
    destruct (IH st1) as (st2 & Hrun2 & Hl2 & Hp2 & Hh2);
      [done|by rewrite Hl1|intros s Hs; apply Hin, elem_of_app; by right|].
    exists st2. split; [done|]. split; [by rewrite Hl2|]. split.
    + rewrite Hp2, Hp1. rewrite (assoc app). f_equiv. apply Permutation_app_comm.
    + intros idx c s Hc Hs. destruct (Hh2 idx c s Hc Hs) as [(c1 & Hc1 & Hs1)|[Hn Hr]].
      * destruct (Hh1 idx c1 s Hc1 Hs1) as [?|[Hn Hr]]; [by left|].
        right. split; [|done]. apply elem_of_app. by left.
      * right. split; [|done]. apply elem_of_app. by right.
Qed.

(** [grow_shard] doubles the bucket array and files every record of the
    shard under its new index; the store is not written. *)
Lemma grow_shard_spec i σ sh :
  0 <= i -> shard_at i σ = Some sh -> shard_ok (heap σ) i sh ->
  capacity sh * 2 <= MAX_RECORDS ->
  exists strtab,
    grow_shard i σ =
      Ok tt (emit EvFreeStrs
               (set_shard i (mk_shard (mu sh) strtab (count sh) (capacity sh * 2))
                  (emit (EvMallocStrs (capacity sh * 2)) σ))) /\
    shard_ok (heap σ) i (mk_shard (mu sh) strtab (count sh) (capacity sh * 2)) /\
    concat strtab ≡ₚ concat (strs sh).
Proof.
  intros Hi Hsh [Hcap Hlen Hcount Hnd Hhome] Hmax. unfold grow_shard. rewrite Hsh.
  assert (MAX_RECORDS = 2 ^ 59) as HM by done.
  rewrite (size_t_small (capacity sh * 2)) by lia.
  destruct (relink_all_spec (heap σ) (capacity sh * 2) (strs sh)
              (replicate (Z.to_nat (capacity sh * 2)) []))
    as (strtab & Hrun & Hl & Hperm & Hh); [lia|by rewrite length_replicate| |].
  { intros s (idx & c & Hc & Hs)%elem_of_concat.
    destruct (Hhome idx c s Hc Hs) as (r & -> & _). done. }
  rewrite Hrun. exists strtab. split; [done|].
  rewrite concat_replicate_nil, app_nil_r in Hperm. split; [|done].
  constructor; cbn [capacity strs count].
  - lia.
  - by rewrite Hl, length_replicate.
  - by rewrite Hperm.
  - by rewrite Hperm.
  - intros idx c s Hc Hs. destruct (Hh idx c s Hc Hs) as [(c0 & Hc0 & Hs0)|[Hn (r & Hr & Hix)]].
    + apply lookup_replicate in Hc0 as [-> _]. by apply elem_of_nil in Hs0.
    + apply elem_of_concat in Hn as (idx0 & c0 & Hc0 & Hs0).
      destruct (Hhome idx0 c0 s Hc0 Hs0) as (r' & Hr' & Hsi & _).
      assert (r' = r) as -> by congruence. eauto.
Qed.

(** ** Preservation of the table invariant *)

(** The table without the mutexes and the reference counters. *)
Definition strip_shard (sh : slice_shard) : slice_shard := set_mu MuUnlocked sh.
Definition strip_record (r : interned_slice_refcount) := set_refcnt 0 r.

Definition same_tables (σ σ' : state) : Prop :=
  g_hash_seed σ = g_hash_seed σ' /\
  strip_shard <$> g_shards σ = strip_shard <$> g_shards σ' /\
  strip_record <$> heap σ = strip_record <$> heap σ'.

Lemma same_tables_shard σ σ' (i : nat) sh' :
  same_tables σ σ' -> g_shards σ' !! i = Some sh' ->
  exists sh, g_shards σ !! i = Some sh /\ strs sh = strs sh' /\
    count sh = count sh' /\ capacity sh = capacity sh'.
Proof.
  intros (_ & Hs & _) Hi.
  assert ((strip_shard <$> g_shards σ) !! i = Some (strip_shard sh')) as H
    by (rewrite Hs, list_lookup_fmap, Hi; done).
  rewrite list_lookup_fmap in H. destruct (g_shards σ !! i) as [sh|]; [|done].
  exists sh. injection H as H. split; [done|].
  destruct sh, sh'. unfold strip_shard, set_mu in H. cbn in *. by simplify_eq.
Qed.

Lemma same_tables_record σ σ' s r' :
  same_tables σ σ' -> heap σ' !! s = Some r' ->
  exists r, heap σ !! s = Some r /\ rlength r = rlength r' /\
    hash r = hash r' /\ bytes r = bytes r'.
Proof.
  intros (_ & _ & Hh) Hs.
  assert ((strip_record <$> heap σ) !! s = Some (strip_record r')) as H
    by (rewrite Hh, lookup_fmap, Hs; done).
  rewrite lookup_fmap in H. destruct (heap σ !! s) as [r|]; [|done].
  exists r. injection H as H. split; [done|].
  destruct r, r'. unfold strip_record, set_refcnt in H. cbn in *. by simplify_eq.
Qed.

Lemma same_tables_sym σ σ' : same_tables σ σ' -> same_tables σ' σ.
Proof. intros (? & ? & ?). by split. Qed.

Lemma same_tables_home σ σ' h :
  same_tables σ σ' -> home_chain σ' h = home_chain σ h.
Proof.
  intros Hst. unfold home_chain, shard_at.
  destruct (g_shards σ' !! Z.to_nat (SHARD_IDX h)) as [sh'|] eqn:E'.
  - destruct (same_tables_shard σ σ' _ _ Hst E') as (sh & -> & -> & _ & ->). done.
  - destruct (g_shards σ !! Z.to_nat (SHARD_IDX h)) as [sh|] eqn:E; [|done].
    destruct (same_tables_shard σ' σ _ _ (same_tables_sym _ _ Hst) E) as (? & ? & _).
    congruence.
Qed.

Lemma wf_ext σ σ' : same_tables σ σ' -> wf σ -> wf σ'.
Proof.
  intros Hst [Hlen Hshard Hlinked Hrec Hmem]. pose proof Hst as (Hseed & Hs & Hh).
  constructor.
  - apply (f_equal List.length) in Hs. rewrite !length_fmap in Hs. congruence.
  - intros i sh' Hi.
    destruct (same_tables_shard σ σ' i sh' Hst Hi) as (sh & Hsh & E1 & E2 & E3).
    destruct (Hshard i sh Hsh) as [? ? ? ? Hhome].
    constructor; rewrite <- ?E1, <- ?E2, <- ?E3; try done.
    intros idx chain s Hc Hin. destruct (Hhome idx chain s Hc Hin) as (r & Hr & ? & ?).
    destruct (same_tables_record σ' σ s r (same_tables_sym _ _ Hst) Hr)
      as (r' & Hr' & _ & Eh & _).
    exists r'. rewrite Eh. done.
  - intros s r' Hs'.
    destruct (same_tables_record σ σ' s r' Hst Hs') as (r & Hr & _ & Eh & _).
    rewrite (same_tables_home σ σ') by done. rewrite <- Eh. by apply (Hlinked s r).
  - intros s r' Hs'.
    destruct (same_tables_record σ σ' s r' Hst Hs') as (r & Hr & El & Eh & Eb).
    destruct (Hrec s r Hr) as [H1 H2]. unfold record_ok, grpc_slice_default_hash_impl.
    rewrite <- El, <- Eh, <- Eb, <- Hseed. done.
  - apply (f_equal size) in Hh. rewrite !map_size_fmap in Hh. congruence.
Qed.

Lemma same_tables_emit e σ : same_tables σ (emit e σ).
Proof. by repeat split. Qed.

Lemma same_tables_set_mu i m sh σ :
  shard_at i σ = Some sh -> same_tables σ (set_shard i (set_mu m sh) σ).
Proof.
  intros Hsh. repeat split. rewrite g_shards_set_shard, list_fmap_insert.
  symmetry. apply list_insert_id. unfold shard_at in Hsh.
  by rewrite list_lookup_fmap, Hsh.
Qed.

Lemma same_tables_set_refcnt s r v σ :
  heap σ !! s = Some r ->
  same_tables σ (set_heap (<[s := set_refcnt v r]> (heap σ)) σ).
Proof.
  intros Hs. repeat split. rewrite heap_set_heap, fmap_insert.
  symmetry. apply insert_id. by rewrite lookup_fmap, Hs.
Qed.

Lemma same_tables_trans σ1 σ2 σ3 :
  same_tables σ1 σ2 -> same_tables σ2 σ3 -> same_tables σ1 σ3.
Proof. intros (? & ? & ?) (? & ? & ?). repeat split; congruence. Qed.

Lemma same_tables_refl σ : same_tables σ σ.
Proof. by repeat split. Qed.

(** One shard and the store are replaced; the records of the other shards
    stay, and all records of shard [i] are in its new chains. *)
Lemma wf_update σ i sh sh' hp' :
  wf σ -> 0 <= i -> shard_at i σ = Some sh ->
  shard_ok hp' i sh' ->
  (forall s r, hp' !! s = Some r ->
     record_ok σ r /\
     (SHARD_IDX (hash r) = i -> s ∈ concat (strs sh')) /\
     (SHARD_IDX (hash r) <> i -> heap σ !! s = Some r)) ->
  (forall s r, heap σ !! s = Some r -> SHARD_IDX (hash r) <> i -> hp' !! s = Some r) ->
  Z.of_nat (size hp') <= MAX_RECORDS ->
  wf (set_shard i sh' (set_heap hp' σ)).
Proof.
  intros [Hlen Hshard Hlinked Hrec Hmem] Hi Hsh Hok' Hnew Hold Hsize.
  pose proof (shard_at_Some _ _ _ Hsh) as Hlt.
  constructor; proj.
  - by rewrite length_insert.
  - intros j shj Hj. destruct (decide (Z.to_nat i = j)) as [<-|Hne].
    + rewrite list_lookup_insert_eq in Hj by done. injection Hj as <-.
      by rewrite Z2Nat.id.
    + rewrite list_lookup_insert_ne in Hj by done.
      destruct (Hshard j shj Hj) as [? ? ? ? Hhome]. constructor; try done.
      intros idx chain s Hc Hin. destruct (Hhome idx chain s Hc Hin) as (r & Hr & Hsi & Hti).
      exists r. split; [|done]. apply Hold; [done|]. lia.
  - intros s r Hr. destruct (Hnew s r Hr) as (_ & Hin & Hout).
    unfold home_chain. rewrite shard_at_set_shard, g_shards_set_heap.
    case_decide as Hd.
    + assert (SHARD_IDX (hash r) = i) as Hsi
        by (pose proof (SHARD_IDX_range (hash r)); lia).
      apply Hin, elem_of_concat in Hsi as (idx & c & Hc & Hs).
      destruct (so_home _ _ _ Hok' idx c s Hc Hs) as (r' & Hr' & _ & Hti).
      assert (r' = r) as -> by congruence.
      exists c. rewrite Hti, Nat2Z.id. done.
    + assert (SHARD_IDX (hash r) <> i) as Hsi.
      { intros E. apply Hd. split; [by rewrite E|done]. }
      destruct (Hlinked s r (Hout Hsi)) as (c & Hc & Hs).
      exists c. split; [|done]. unfold home_chain in Hc.
      by rewrite shard_at_set_heap_eq.
  - intros s r Hr. by destruct (Hnew s r Hr) as (Hok & _).
  - done.
Qed.

(** The seed and the static table are the same in both states. *)
Definition same_static (σ σ' : state) : Prop :=
  g_hash_seed σ' = g_hash_seed σ /\
  g_forced_hash_seed σ' = g_forced_hash_seed σ /\
  static_metadata_hash σ' = static_metadata_hash σ /\
  max_static_metadata_hash_probe σ' = max_static_metadata_hash_probe σ /\
  static_metadata_hash_values σ' = static_metadata_hash_values σ.

Lemma same_static_refl σ : same_static σ σ.
Proof. by repeat split. Qed.

Lemma same_static_trans σ1 σ2 σ3 :
  same_static σ1 σ2 -> same_static σ2 σ3 -> same_static σ1 σ3.
Proof. intros (?&?&?&?&?) (?&?&?&?&?). repeat split; congruence. Qed.

Lemma chain_in_heap σ i sh s :
  shard_ok (heap σ) i sh -> s ∈ concat (strs sh) -> is_Some (heap σ !! s).
Proof.
  intros Hok (idx & c & Hc & Hs)%elem_of_concat.
  destruct (so_home _ _ _ Hok idx c s Hc Hs) as (r & -> & _). done.
Qed.

Lemma count_le_size σ i sh :
  shard_ok (heap σ) i sh -> count sh <= Z.of_nat (size (heap σ)).
Proof.
  intros Hok. rewrite (so_count _ _ _ Hok).
  apply inj_le, chain_length_le_size; [apply (so_nodup _ _ _ Hok)|].
  intros s Hs. by eapply chain_in_heap.
Qed.

(** Lines 237-250: the new record heads its chain, and the shard grows when
    it then holds more than twice its capacity. *)
Lemma intern_create_spec σ h data sh :
  wf σ -> shard_at (SHARD_IDX h) σ = Some sh ->
  Z.of_nat (size (heap σ)) < MAX_RECORDS ->
  h = grpc_slice_default_hash_impl σ data ->
  let i := SHARD_IDX h in
  let s := fresh (dom (heap σ)) in
  let r := mk_refcount (Z.of_nat (List.length data)) 1 h data in
  let grows := bool_decide (count sh + 1 > capacity sh * 2) in
  exists σ' sh',
    intern_create i (TABLE_IDX h (capacity sh)) h data σ = Ok s σ' /\
    wf σ' /\ same_static σ σ' /\
    heap σ' = <[s := r]> (heap σ) /\
    g_shards σ' = <[Z.to_nat i := sh']> (g_shards σ) /\
    mu sh' = mu sh /\ count sh' = count sh + 1 /\
    capacity sh' = (if grows then capacity sh * 2 else capacity sh) /\
    concat (strs sh') ≡ₚ s :: concat (strs sh) /\
    trace σ' = (if grows then [EvFreeStrs; EvMallocStrs (capacity sh * 2)] else [])
                 ++ EvMalloc s :: trace σ.
Proof.
  intros Hwf Hsh Hsize Hh i s r grows.
  pose proof (SHARD_IDX_range h) as Hi. fold i in Hi, Hsh.
  pose proof (wf_shard_at σ i sh Hwf ltac:(lia) Hsh) as Hok.
  pose proof Hok as [Hcap Hlen Hcount Hnd Hhome].
  pose proof (TABLE_IDX_range h (capacity sh) ltac:(lia)) as Hidx.
  set (idx := TABLE_IDX h (capacity sh)) in *.
  assert (MAX_RECORDS = 2 ^ 59) as HM by done.
  pose proof (count_le_size σ i sh Hok) as Hcnt.
  assert (heap σ !! s = None) as Hfresh.
  { apply not_elem_of_dom. subst s. apply is_fresh. }
  destruct (lookup_lt_is_Some_2 (strs sh) (Z.to_nat idx)) as [chain Hchain]; [lia|].
  unfold intern_create. rewrite Hsh. unfold gpr_malloc.
  rewrite decide_True by done. rewrite Hchain. fold s r.
  cbn [count capacity]. rewrite (size_t_small (count sh + 1)) by lia.
  rewrite (size_t_small (capacity sh * 2)) by lia.
  set (sh1 := mk_shard (mu sh) (<[Z.to_nat idx := s :: chain]> (strs sh))
                (count sh + 1) (capacity sh)).
  set (σ0 := set_shard i sh1 (set_heap (<[s := r]> (heap σ)) σ)).
  assert (concat (strs sh1) ≡ₚ s :: concat (strs sh)) as Hperm1
    by (by apply concat_insert_cons).
  assert (s ∉ concat (strs sh)) as Hsnew.
  { intros Hin. apply (chain_in_heap σ i sh s Hok) in Hin. rewrite Hfresh in Hin.
    by destruct Hin. }
  assert (shard_ok (<[s := r]> (heap σ)) i sh1) as Hok1.
  { constructor.
    - done.
    - cbn [capacity strs sh1]. by rewrite length_insert.
    - rewrite Hperm1. cbn [count sh1 List.length]. lia.
    - rewrite Hperm1. by constructor.
    - cbn [capacity strs sh1]. intros ix c s' Hc Hs'. destruct (decide (Z.to_nat idx = ix)) as [<-|Hne].
      + rewrite list_lookup_insert_eq in Hc by lia. injection Hc as <-.
        apply elem_of_cons in Hs' as [->|Hs'].
        * exists r. rewrite lookup_insert_eq. split; [done|]. cbn [hash r].
          split; [done|]. fold idx. lia.
        * destruct (Hhome _ _ _ Hchain Hs') as (r' & Hr' & ?).
          exists r'. split; [|done]. rewrite lookup_insert_ne; [done|congruence].
      + rewrite list_lookup_insert_ne in Hc by done.
        destruct (Hhome _ _ _ Hc Hs') as (r' & Hr' & ?).
        exists r'. split; [|done]. rewrite lookup_insert_ne; [done|congruence]. }
  assert (wf σ0) as Hwf0.
  { apply (wf_update σ i sh sh1); try done; try lia.
    - intros s' r' Hr'. destruct (decide (s' = s)) as [->|Hne].
      + rewrite lookup_insert_eq in Hr'. injection Hr' as <-.
        split; [by split|]. split.
        * intros _. rewrite Hperm1. left.
        * cbn [hash r]. done.
      + rewrite lookup_insert_ne in Hr' by done.
        split; [by apply (wf_record σ Hwf s')|]. split; [|done].
        intros Hsi. rewrite Hperm1. right.
        destruct (wf_linked σ Hwf s' r' Hr') as (c & Hc & Hs').
        unfold home_chain in Hc. rewrite Hsi, Hsh in Hc.
        apply elem_of_concat. eauto.
    - intros s' r' Hr' _. rewrite lookup_insert_ne; [done|congruence].
    - rewrite map_size_insert_None by done. lia. }
  assert (shard_at i σ0 = Some sh1) as Hsh0.
  { subst σ0. rewrite shard_at_set_shard, g_shards_set_heap.
    rewrite decide_True; [done|]. split; [done|]. by eapply shard_at_Some. }
  subst grows. destruct (decide (count sh + 1 > capacity sh * 2)) as [Hg|Hg].
  - rewrite bool_decide_eq_true_2 by done.
    assert (count sh + 1 <= Z.of_nat (size (heap σ0))) as Hc0.
    { pose proof (count_le_size σ0 i sh1) as H. cbn [count sh1] in H. apply H.
      subst σ0. by rewrite heap_set_shard, heap_set_heap. }
    assert (Z.of_nat (size (heap σ0)) <= MAX_RECORDS) as Hm0 by apply (wf_mem σ0 Hwf0).
    destruct (grow_shard_spec i (emit (EvMalloc s) σ0) sh1)
      as (strtab & Hgrow & Hok2 & Hperm2); try done; try lia.
    { cbn [capacity sh1]. lia. }
    rewrite Hgrow. cbn [mu count capacity sh1 strs] in *.
    eexists _, (mk_shard (mu sh) strtab (count sh + 1) (capacity sh * 2)).
    split; [reflexivity|].
    split; [|repeat split; proj; try done].
    + apply (wf_ext (set_shard i (mk_shard (mu sh) strtab (count sh + 1)
                                     (capacity sh * 2)) (set_heap (heap σ0) σ0))).
      { repeat split. }
      apply (wf_update σ0 i sh1); try done; try lia.
      intros s' r' Hr'. split; [by apply (wf_record σ0 Hwf0 s')|]. split; [|done].
      intros Hsi. cbn [strs]. rewrite Hperm2.
      destruct (wf_linked σ0 Hwf0 s' r' Hr') as (c & Hc & Hs').
      unfold home_chain in Hc. rewrite Hsi, Hsh0 in Hc.
      apply elem_of_concat. eauto.
    + subst σ0. proj. by rewrite list_insert_insert_eq.
    + by rewrite Hperm2.
  - rewrite bool_decide_eq_false_2 by done.
    eexists _, sh1. split; [reflexivity|].
    split; [|repeat split; subst σ0; proj; try done].
    apply (wf_ext σ0); [apply same_tables_emit|done].
Qed.

(** Lines 96-102: the record leaves its chain and the store. *)
Lemma destroy_unlink_spec σ s r sh :
  wf σ -> heap σ !! s = Some r ->
  shard_at (SHARD_IDX (hash r)) σ = Some sh ->
  let i := SHARD_IDX (hash r) in
  let idx := Z.to_nat (TABLE_IDX (hash r) (capacity sh)) in
  exists chain chain',
    strs sh !! idx = Some chain /\ unlink s chain = Some chain' /\
    let sh' := mk_shard (mu sh) (<[idx := chain']> (strs sh))
                 (count sh - 1) (capacity sh) in
    let σ' := emit (EvFree s) (set_shard i sh' (set_heap (delete s (heap σ)) σ)) in
    destroy_unlink i s σ = Ok tt σ' /\ wf σ' /\
    concat (strs sh) ≡ₚ s :: concat (strs sh').
Proof.
  intros Hwf Hs Hsh i idx.
  pose proof (SHARD_IDX_range (hash r)) as Hi. fold i in Hi, Hsh.
  pose proof (wf_shard_at σ i sh Hwf ltac:(lia) Hsh) as Hok.
  pose proof Hok as [Hcap Hlen Hcount Hnd Hhome].
  assert (MAX_RECORDS = 2 ^ 59) as HM by done.
  destruct (wf_linked σ Hwf s r Hs) as (chain & Hchain & Hin).
  unfold home_chain in Hchain. fold i in Hchain. rewrite Hsh in Hchain. fold idx in Hchain.
  destruct (unlink_Some s chain Hin) as [chain' Hun].
  exists chain, chain'. split; [done|]. split; [done|]. intros sh' σ'.
  assert (concat (strs sh) ≡ₚ s :: concat (strs sh')) as Hperm
    by exact (concat_insert_unlink (strs sh) idx chain chain' s Hchain Hun).
  assert (NoDup (s :: concat (strs sh'))) as Hnd' by (by rewrite <- Hperm).
  apply NoDup_cons in Hnd' as [Hsnot Hnd'].
  assert (1 <= count sh) as Hc1.
  { rewrite Hcount, Hperm. cbn [List.length]. lia. }
  pose proof (count_le_size σ i sh Hok) as Hcnt.
  pose proof (wf_mem σ Hwf) as Hmem.
  split.
  { unfold destroy_unlink. rewrite Hsh, Hs. rewrite decide_False by lia.
    fold idx. rewrite Hchain, Hun. rewrite (size_t_small (count sh - 1)) by lia.
    done. }
  split; [|done].
  assert (shard_ok (delete s (heap σ)) i sh') as Hok'.
  { constructor.
    - done.
    - cbn [capacity strs sh']. by rewrite length_insert.
    - cbn [count sh']. rewrite Hcount, Hperm. cbn [List.length]. lia.
    - done.
    - intros ix c s' Hc Hs'.
      assert (s' ∈ concat (strs sh')) as Hin' by (apply elem_of_concat; eauto).
      assert (s' <> s) as Hne by (intros ->; done).
      rewrite lookup_delete_ne by done. cbn [capacity strs sh'] in *.
      destruct (decide (idx = ix)) as [<-|Hd].
      + rewrite list_lookup_insert_eq in Hc by (by eapply lookup_lt_Some).
        injection Hc as <-. apply (Hhome idx chain s' Hchain).
        rewrite (unlink_perm _ _ _ Hun). by right.
      + rewrite list_lookup_insert_ne in Hc by done. by apply (Hhome ix c s'). }
  apply (wf_ext (set_shard i sh' (set_heap (delete s (heap σ)) σ)));
    [apply same_tables_emit|].
  apply (wf_update σ i sh sh'); try done; try lia.
  - intros s' r' Hr'. apply lookup_delete_Some in Hr' as [Hne Hr'].
    split; [by apply (wf_record σ Hwf s')|]. split; [|done].
    intros Hsi. destruct (wf_linked σ Hwf s' r' Hr') as (c & Hc & Hs').
    unfold home_chain in Hc. rewrite Hsi, Hsh in Hc.
    assert (s' ∈ concat (strs sh)) as Hin' by (apply elem_of_concat; eauto).
    rewrite Hperm in Hin'. apply elem_of_cons in Hin' as [?|?]; [congruence|done].
  - intros s' r' Hr' Hsi. rewrite lookup_delete_ne; [done|]. intros ->.
    assert (r' = r) as -> by congruence. by apply Hsi.
  - pose proof (map_size_delete s (heap σ)) as Hsz. rewrite Hs in Hsz. lia.
Qed.

(** A record that is not in the chain its hash names takes the loop of
    lines 96-99 off the end of the chain. *)
Lemma destroy_unlink_missing σ i s r sh chain :
  heap σ !! s = Some r -> shard_at i σ = Some sh -> capacity sh <> 0 ->
  strs sh !! Z.to_nat (TABLE_IDX (hash r) (capacity sh)) = Some chain ->
  s ∉ chain ->
  destroy_unlink i s σ = Crash InvalidAccess σ.
Proof.
  intros Hs Hsh Hcap Hchain Hnot. unfold destroy_unlink.
  rewrite Hsh, Hs, decide_False, Hchain by done. by rewrite unlink_None.
Qed.

(** ** The calls, run by one thread *)

Lemma state_ext σ σ' :
  g_hash_seed σ = g_hash_seed σ' -> g_forced_hash_seed σ = g_forced_hash_seed σ' ->
  g_shards σ = g_shards σ' -> static_metadata_hash σ = static_metadata_hash σ' ->
  max_static_metadata_hash_probe σ = max_static_metadata_hash_probe σ' ->
  static_metadata_hash_values σ = static_metadata_hash_values σ' ->
  heap σ = heap σ' -> trace σ = trace σ' -> σ = σ'.
Proof. destruct σ, σ'. cbn. by intros -> -> -> -> -> -> -> ->. Qed.

Lemma bump_eq σ s r :
  heap σ !! s = Some r ->
  bump s σ = set_heap (<[s := set_refcnt (gpr_atm (refcnt r + 1)) r]> (heap σ)) σ.
Proof. intros Hs. unfold bump. by rewrite Hs. Qed.

Lemma set_mu_set_mu m m' sh : set_mu m (set_mu m' sh) = set_mu m sh.
Proof. done. Qed.

Lemma set_mu_id sh : set_mu (mu sh) sh = sh.
Proof. by destruct sh. Qed.

Lemma first_live_Some hp h data chain s :
  first_live hp h data chain = Some s ->
  s ∈ chain /\ exists r, hp !! s = Some r /\ hash r = h /\ data = bytes r /\
    refcnt r <> 0.
Proof.
  induction chain as [|c rest IH]; [done|]. cbn [first_live].
  destruct (hp !! c) as [r|] eqn:Hc.
  - destruct (_ && _) eqn:Ht.
    + intros [= <-]. split; [left|]. exists r. split; [done|].
      apply andb_prop in Ht as [Ht H3]. apply andb_prop in Ht as [H1 H2].
      apply bool_decide_eq_true in H1, H2, H3. done.
    + intros H. destruct (IH H) as [? ?]. split; [by right|done].
  - intros H. destruct (IH H) as [? ?]. split; [by right|done].
Qed.

Lemma first_live_None hp h data chain s r :
  first_live hp h data chain = None -> s ∈ chain -> hp !! s = Some r ->
  hash r = h -> data = bytes r -> refcnt r = 0.
Proof.
  induction chain as [|c rest IH]; [by intros _ ?%elem_of_nil|]. cbn [first_live].
  intros Hf Hin Hs H1 H2. destruct (decide (c = s)) as [->|Hne].
  - rewrite Hs in Hf. rewrite !bool_decide_eq_true_2 in Hf by done. cbn [andb] in Hf.
    destruct (decide (refcnt r = 0)); [done|].
    by rewrite bool_decide_eq_true_2 in Hf.
  - apply elem_of_cons in Hin as [?|Hin]; [congruence|].
    destruct (hp !! c); [destruct (_ && _); [done|]|]; by apply IH.
Qed.

(** A hit: lines 211-231. The state is the one before with one more
    reference to the record found. *)
Lemma run_intern_dynamic_hit σ h data sh chain s r :
  wf σ -> shard_at (SHARD_IDX h) σ = Some sh -> mu sh = MuUnlocked ->
  strs sh !! Z.to_nat (TABLE_IDX h (capacity sh)) = Some chain ->
  first_live (heap σ) h data chain = Some s -> heap σ !! s = Some r ->
  run (intern_dynamic h data) σ =
    Ok (slice_interned s 0 (rlength r))
       (emit (EvUnlock (SHARD_IDX h)) (emit (EvLock (SHARD_IDX h)) (bump s σ))).
Proof.
  intros Hwf Hsh Hmu Hchain Hfl Hs.
  pose proof (SHARD_IDX_range h) as Hi. set (i := SHARD_IDX h) in *.
  pose proof (wf_shard_at σ i sh Hwf ltac:(lia) Hsh) as Hok.
  pose proof Hok as [Hcap Hlen Hcount Hnd Hhome].
  pose proof (TABLE_IDX_range h (capacity sh) ltac:(lia)) as Hidx.
  unfold intern_dynamic. fold i. cbn [run]. unfold gpr_mu_lock. rewrite Hsh, Hmu.
  set (σ1 := emit (EvLock i) (set_shard i (set_mu MuLocked sh) σ)).
  assert (shard_at i σ1 = Some (set_mu MuLocked sh)) as Hsh1.
  { subst σ1. rewrite shard_at_emit. by eapply shard_at_set_shard_eq. }
  unfold read at 1. unfold intern_bucket. rewrite Hsh1.
  cbn [capacity strs set_mu]. rewrite decide_False by lia. rewrite Hchain.
  cbn [fmap option_fmap option_map fst snd].
  rewrite run_scan.
  2:{ intros s' Hs'. destruct (Hhome _ _ _ Hchain Hs') as (r' & Hr' & _).
      exists r'. split; [done|]. by apply (wf_record σ Hwf s'). }
  replace (heap σ1) with (heap σ) by done. rewrite Hfl.
  unfold intern_hit. cbn [run]. unfold gpr_mu_unlock.
  replace (shard_at i (bump s σ1)) with (shard_at i σ1)
    by (unfold bump; by destruct (heap σ1 !! s)).
  rewrite Hsh1. cbn [mu set_mu]. unfold intern_return. cbn [run].
  unfold materialize, read. rewrite (bump_eq σ1 s r) by done. proj.
  rewrite lookup_insert_eq. cbn [fmap option_fmap option_map rlength set_refcnt].
  f_equal. rewrite (bump_eq σ s r) by done.
  apply state_ext; subst σ1; proj; try done.
  rewrite list_insert_insert_eq. apply list_insert_id.
  unfold shard_at in Hsh. rewrite Hsh. f_equal. rewrite <- Hmu.
  rewrite set_mu_set_mu. symmetry. apply set_mu_id.
Qed.

Lemma wf_lock σ i sh m :
  wf σ -> shard_at i σ = Some sh ->
  wf (emit (EvLock i) (set_shard i (set_mu m sh) σ)).
Proof.
  intros Hwf Hsh. eapply wf_ext; [|exact Hwf].
  eapply same_tables_trans; [by apply same_tables_set_mu|apply same_tables_emit].
Qed.

(** A miss: lines 211-254. *)
Lemma run_intern_dynamic_miss σ h data sh chain :
  wf σ -> shard_at (SHARD_IDX h) σ = Some sh -> mu sh = MuUnlocked ->
  strs sh !! Z.to_nat (TABLE_IDX h (capacity sh)) = Some chain ->
  first_live (heap σ) h data chain = None ->
  Z.of_nat (size (heap σ)) < MAX_RECORDS ->
  h = grpc_slice_default_hash_impl σ data ->
  let i := SHARD_IDX h in
  let s := fresh (dom (heap σ)) in
  let r := mk_refcount (Z.of_nat (List.length data)) 1 h data in
  let grows := bool_decide (count sh + 1 > capacity sh * 2) in
  exists σ' sh',
    run (intern_dynamic h data) σ = Ok (slice_interned s 0 (rlength r)) σ' /\
    wf σ' /\ same_static σ σ' /\
    heap σ' = <[s := r]> (heap σ) /\
    g_shards σ' = <[Z.to_nat i := sh']> (g_shards σ) /\
    mu sh' = MuUnlocked /\ count sh' = count sh + 1 /\
    capacity sh' = (if grows then capacity sh * 2 else capacity sh) /\
    concat (strs sh') ≡ₚ s :: concat (strs sh) /\
    trace σ' = EvUnlock i ::
      (if grows then [EvFreeStrs; EvMallocStrs (capacity sh * 2)] else [])
        ++ EvMalloc s :: EvLock i :: trace σ.
Proof.
  intros Hwf Hsh Hmu Hchain Hfl Hsize Hh i s r grows.
  pose proof (SHARD_IDX_range h) as Hi. fold i in Hi, Hsh.
  pose proof (wf_shard_at σ i sh Hwf ltac:(lia) Hsh) as Hok.
  pose proof Hok as [Hcap Hlen Hcount Hnd Hhome].
  unfold intern_dynamic. fold i. cbn [run]. unfold gpr_mu_lock. rewrite Hsh, Hmu.
  set (σ1 := emit (EvLock i) (set_shard i (set_mu MuLocked sh) σ)).
  assert (shard_at i σ1 = Some (set_mu MuLocked sh)) as Hsh1.
  { subst σ1. rewrite shard_at_emit. by eapply shard_at_set_shard_eq. }
  assert (wf σ1) as Hwf1 by (by apply wf_lock).
  unfold read at 1. unfold intern_bucket. rewrite Hsh1.
  cbn [capacity strs set_mu]. rewrite decide_False by lia. rewrite Hchain.
  cbn [fmap option_fmap option_map fst snd].
  rewrite run_scan.
  2:{ intros s' Hs'. destruct (Hhome _ _ _ Hchain Hs') as (r' & Hr' & _).
      exists r'. split; [done|]. by apply (wf_record σ Hwf s'). }
  replace (heap σ1) with (heap σ) by done. rewrite Hfl.
  destruct (intern_create_spec σ1 h data (set_mu MuLocked sh))
    as (σ2 & sh2 & Hrun & Hwf2 & Hst2 & Hheap2 & Hsh2 & Hmu2 & Hcnt2 & Hcap2 & Hperm2 & Htr2);
    try done.
  fold i in Hrun, Hsh2. cbn [capacity count strs mu set_mu] in *.
  replace (heap σ1) with (heap σ) in * by done.
  fold s r grows in Hrun, Hheap2, Hperm2, Hcap2, Htr2.
  unfold intern_miss. cbn [run]. rewrite Hrun.
  assert (shard_at i σ2 = Some sh2) as Hat2.
  { unfold shard_at. rewrite Hsh2. apply list_lookup_insert_eq.
    subst σ1. proj. rewrite length_insert. by eapply shard_at_Some. }
  unfold gpr_mu_unlock. rewrite Hat2, Hmu2.
  unfold intern_return. cbn [run]. unfold materialize, read. proj.
  rewrite Hheap2, lookup_insert_eq. cbn [fmap option_fmap option_map].
  eexists _, (set_mu MuUnlocked sh2). split; [reflexivity|].
  split; [|repeat split; proj; try done].
  - eapply wf_ext; [|exact Hwf2].
    eapply same_tables_trans; [by apply same_tables_set_mu|apply same_tables_emit].
  - by destruct Hst2 as (?&?&?&?&?).
  - by destruct Hst2 as (?&?&?&?&?).
  - by destruct Hst2 as (?&?&?&?&?).
  - by destruct Hst2 as (?&?&?&?&?).
  - by destruct Hst2 as (?&?&?&?&?).
  - rewrite Hsh2. subst σ1. proj. by rewrite !list_insert_insert_eq.
  - rewrite Htr2. subst σ1. by proj.
Qed.

(** *** The whole of [grpc_slice_intern] *)

(** The hash of a slice that is not static is the seeded hash of its
    bytes, for an interned slice through the cached value. *)
Lemma slice_hash_data σ slice data :
  wf σ -> grpc_is_static_metadata_string slice = false ->
  slice_data σ slice = Some data ->
  grpc_slice_hash σ slice = Some (grpc_slice_default_hash_impl σ data).
Proof.
  intros Hwf Hns Hd. destruct slice as [d|k|k o l|s off len|c d]; try done.
  - cbn in *. congruence.
  - cbn [grpc_slice_hash]. unfold interned_slice_hash.
    pose proof Hd as Hd'. unfold slice_data in Hd.
    destruct (heap σ !! s) as [r|] eqn:Hs; [|done].
    destruct (wf_record σ Hwf s r Hs) as [Hlen Hhash].
    clear Hd. destruct (decide (off = 0 /\ len = rlength r)) as [Hfast|Hfast].
    + destruct Hfast as [-> ->]. rewrite (slice_data_whole σ s r) in Hd' by done.
      injection Hd' as <-. by rewrite Hhash.
    + by rewrite Hd'.
  - cbn in *. congruence.
Qed.

Lemma static_query_eq σ slice data :
  static_ok σ -> wf σ -> grpc_is_static_metadata_string slice = false ->
  slice_data σ slice = Some data ->
  exists probe,
    static_lookup σ (grpc_slice_default_hash_impl σ data) data = Some probe /\
    static_query slice σ = Some (grpc_slice_default_hash_impl σ data, data, probe).
Proof.
  intros Hst Hwf Hns Hd. unfold static_query.
  rewrite (slice_hash_data σ slice data), Hd by done.
  destruct (static_lookup_total σ (grpc_slice_default_hash_impl σ data) data Hst)
    as [probe Hp].
  exists probe. by rewrite Hp.
Qed.

Lemma run_intern_static_hit σ slice data k :
  static_ok σ -> wf σ -> grpc_is_static_metadata_string slice = false ->
  slice_data σ slice = Some data ->
  static_lookup σ (grpc_slice_default_hash_impl σ data) data = Some (Some k) ->
  run (grpc_slice_intern slice) σ = Ok (slice_static k) σ.
Proof.
  intros Hst Hwf Hns Hd Hk. unfold grpc_slice_intern. rewrite Hns. cbn [run].
  destruct (static_query_eq σ slice data) as (probe & Hp & Hq); try done.
  unfold read. rewrite Hq. assert (probe = Some k) as -> by congruence. done.
Qed.

Lemma run_intern_static_miss σ slice data :
  static_ok σ -> wf σ -> grpc_is_static_metadata_string slice = false ->
  slice_data σ slice = Some data ->
  static_lookup σ (grpc_slice_default_hash_impl σ data) data = Some None ->
  run (grpc_slice_intern slice) σ =
    run (intern_dynamic (grpc_slice_default_hash_impl σ data) data) σ.
Proof.
  intros Hst Hwf Hns Hd Hk. unfold grpc_slice_intern. rewrite Hns. cbn [run].
  destruct (static_query_eq σ slice data) as (probe & Hp & Hq); try done.
  unfold read. rewrite Hq. assert (probe = None) as -> by congruence. done.
Qed.

(** The chain of the bucket that hash [h] names. *)
Lemma home_chain_exists σ h :
  wf σ -> exists sh chain, shard_at (SHARD_IDX h) σ = Some sh /\
    strs sh !! Z.to_nat (TABLE_IDX h (capacity sh)) = Some chain /\
    home_chain σ h = Some chain.
Proof.
  intros Hwf. pose proof (SHARD_IDX_range h) as Hi.
  destruct (wf_shard_exists σ (SHARD_IDX h) Hwf Hi) as [sh Hsh].
  assert (shard_ok (heap σ) (SHARD_IDX h) sh) as Hok
    by (apply wf_shard_at; [done|lia|done]).
  pose proof (so_cap _ _ _ Hok) as Hcap.
  pose proof (TABLE_IDX_range h (capacity sh) ltac:(lia)) as Hidx.
  destruct (lookup_lt_is_Some_2 (strs sh) (Z.to_nat (TABLE_IDX h (capacity sh))))
    as [chain Hc]; [rewrite (so_len _ _ _ Hok); lia|].
  exists sh, chain. unfold home_chain. by rewrite Hsh.
Qed.

(** The record the scan returns when only one record of the chain can be
    returned. *)
Lemma first_live_unique hp h data chain s r :
  s ∈ chain -> hp !! s = Some r -> hash r = h -> data = bytes r -> refcnt r <> 0 ->
  (forall s' r', s' ∈ chain -> s' <> s -> hp !! s' = Some r' ->
     hash r' = h -> data = bytes r' -> refcnt r' = 0) ->
  first_live hp h data chain = Some s.
Proof.
  intros Hin Hs H1 H2 H3 Hothers.
  induction chain as [|c rest IH]; [by apply elem_of_nil in Hin|].
  cbn [first_live]. destruct (decide (c = s)) as [->|Hne].
  - rewrite Hs. by rewrite !bool_decide_eq_true_2.
  - apply elem_of_cons in Hin as [?|Hin]; [congruence|].
    assert (first_live hp h data rest = Some s) as Hrest.
    { apply IH; [done|]. intros s' r' Hs' ?. apply Hothers; [by right|done]. }
    destruct (hp !! c) as [rc|] eqn:Hc; [|done].
    destruct (bool_decide (hash rc = h) && bool_decide (data = bytes rc)
              && bool_decide (refcnt rc <> 0)) eqn:Ht; [|done].
    apply andb_prop in Ht as [Ht T3]. apply andb_prop in Ht as [T1 T2].
    apply bool_decide_eq_true in T1, T2, T3.
    exfalso. apply T3. apply (Hothers c rc); try done. left.
Qed.

(** What a call of [grpc_slice_intern] on a slice that is not static does,
    by the three ways through the function. *)
Inductive intern_outcome (σ : state) (data : list byte) : res grpc_slice -> Prop :=
| intern_static k :
    static_lookup σ (grpc_slice_default_hash_impl σ data) data = Some (Some k) ->
    intern_outcome σ data (Ok (slice_static k) σ)
| intern_found chain s r :
    let h := grpc_slice_default_hash_impl σ data in
    static_lookup σ h data = Some None ->
    home_chain σ h = Some chain ->
    first_live (heap σ) h data chain = Some s ->
    heap σ !! s = Some r ->
    intern_outcome σ data
      (Ok (slice_interned s 0 (rlength r))
          (emit (EvUnlock (SHARD_IDX h)) (emit (EvLock (SHARD_IDX h)) (bump s σ))))
| intern_created chain sh sh' σ' :
    let h := grpc_slice_default_hash_impl σ data in
    let i := SHARD_IDX h in
    let s := fresh (dom (heap σ)) in
    let r := mk_refcount (Z.of_nat (List.length data)) 1 h data in
    let grows := bool_decide (count sh + 1 > capacity sh * 2) in
    static_lookup σ h data = Some None ->
    home_chain σ h = Some chain ->
    first_live (heap σ) h data chain = None ->
    shard_at i σ = Some sh ->
    wf σ' -> same_static σ σ' ->
    heap σ' = <[s := r]> (heap σ) ->
    g_shards σ' = <[Z.to_nat i := sh']> (g_shards σ) ->
    mu sh' = MuUnlocked -> count sh' = count sh + 1 ->
    capacity sh' = (if grows then capacity sh * 2 else capacity sh) ->
    concat (strs sh') ≡ₚ s :: concat (strs sh) ->
    trace σ' = EvUnlock i ::
      (if grows then [EvFreeStrs; EvMallocStrs (capacity sh * 2)] else [])
        ++ EvMalloc s :: EvLock i :: trace σ ->
    intern_outcome σ data (Ok (slice_interned s 0 (rlength r)) σ')
| intern_oom chain σ' :
    let h := grpc_slice_default_hash_impl σ data in
    static_lookup σ h data = Some None ->
    home_chain σ h = Some chain ->
    first_live (heap σ) h data chain = None ->
    MAX_RECORDS <= Z.of_nat (size (heap σ)) ->
    intern_outcome σ data (Crash OutOfMemory σ').

Lemma run_intern_dynamic_oom σ h data sh chain :
  wf σ -> shard_at (SHARD_IDX h) σ = Some sh -> mu sh = MuUnlocked ->
  strs sh !! Z.to_nat (TABLE_IDX h (capacity sh)) = Some chain ->
  first_live (heap σ) h data chain = None ->
  MAX_RECORDS <= Z.of_nat (size (heap σ)) ->
  exists σ', run (intern_dynamic h data) σ = Crash OutOfMemory σ'.
Proof.
  intros Hwf Hsh Hmu Hchain Hfl Hsize.
  pose proof (SHARD_IDX_range h) as Hi. set (i := SHARD_IDX h) in *.
  pose proof (wf_shard_at σ i sh Hwf ltac:(lia) Hsh) as Hok.
  pose proof Hok as [Hcap Hlen Hcount Hnd Hhome].
  unfold intern_dynamic. fold i. cbn [run]. unfold gpr_mu_lock. rewrite Hsh, Hmu.
  set (σ1 := emit (EvLock i) (set_shard i (set_mu MuLocked sh) σ)).
  assert (shard_at i σ1 = Some (set_mu MuLocked sh)) as Hsh1.
  { subst σ1. rewrite shard_at_emit. by eapply shard_at_set_shard_eq. }
  unfold read at 1. unfold intern_bucket. rewrite Hsh1.
  cbn [capacity strs set_mu]. rewrite decide_False by lia. rewrite Hchain.
  cbn [fmap option_fmap option_map fst snd].
  rewrite run_scan.
  2:{ intros s' Hs'. destruct (Hhome _ _ _ Hchain Hs') as (r' & Hr' & _).
      exists r'. split; [done|]. by apply (wf_record σ Hwf s'). }
  replace (heap σ1) with (heap σ) by done. rewrite Hfl.
  unfold intern_miss. cbn [run]. unfold intern_create. rewrite Hsh1.
  unfold gpr_malloc. replace (heap σ1) with (heap σ) by done.
  rewrite decide_False by lia. eauto.
Qed.

Lemma intern_cases σ slice data :
  static_ok σ -> wf σ -> quiet σ ->
  grpc_is_static_metadata_string slice = false ->
  slice_data σ slice = Some data ->
  intern_outcome σ data (run (grpc_slice_intern slice) σ).
Proof.
  intros Hst Hwf Hq Hns Hd.
  set (h := grpc_slice_default_hash_impl σ data).
  destruct (static_lookup_total σ h data Hst) as [[k|] Hp].
  - rewrite (run_intern_static_hit σ slice data k) by done. by constructor.
  - rewrite (run_intern_static_miss σ slice data) by done. fold h.
    destruct (home_chain_exists σ h Hwf) as (sh & chain & Hsh & Hchain & Hhome).
    pose proof (quiet_shard_at σ _ sh Hq Hsh) as Hmu.
    destruct (first_live (heap σ) h data chain) as [s|] eqn:Hfl.
    + destruct (first_live_Some _ _ _ _ _ Hfl) as (_ & r & Hr & _).
      rewrite (run_intern_dynamic_hit σ h data sh chain s r) by done.
      by apply (intern_found σ data chain).
    + destruct (decide (Z.of_nat (size (heap σ)) < MAX_RECORDS)) as [Hm|Hm].
      * destruct (run_intern_dynamic_miss σ h data sh chain)
          as (σ' & sh' & Hrun & ? & ? & ? & ? & ? & ? & ? & ? & ?); try done.
        rewrite Hrun. by apply (intern_created σ data chain sh sh').
      * destruct (run_intern_dynamic_oom σ h data sh chain) as [σ' Hrun];
          try done; [lia|].
        rewrite Hrun. apply (intern_oom σ data chain); try done. lia.
Qed.

(** *** Two calls in a row *)

Lemma static_probe_same σ σ' h data fuel : forall i,
  static_metadata_hash σ' = static_metadata_hash σ ->
  static_probe σ' h data fuel i = static_probe σ h data fuel i.
Proof.
  intros i E. revert i. induction fuel as [|fuel IH]; intros i; [done|].
  cbn [static_probe]. rewrite E. destruct (_ !! _); [|done].
  destruct (_ && _); [done|]. apply IH.
Qed.

Lemma static_lookup_same σ σ' h data :
  same_static σ σ' -> static_lookup σ' h data = static_lookup σ h data.
Proof.
  intros (_ & _ & Et & Em & _). unfold static_lookup. rewrite Em.
  by apply static_probe_same.
Qed.

Lemma static_ok_same σ σ' : same_static σ σ' -> static_ok σ -> static_ok σ'.
Proof.
  intros (Es & _ & Et & Em & Ev) [Hok Hinv]. split; [done|].
  by rewrite Es, Et, Em, Ev.
Qed.

Lemma default_hash_same σ σ' data :
  same_static σ σ' ->
  grpc_slice_default_hash_impl σ' data = grpc_slice_default_hash_impl σ data.
Proof. intros (Es & _). unfold grpc_slice_default_hash_impl. by rewrite Es. Qed.

(** The bytes of a slice stay while the records it may point into keep
    their bytes. *)
Lemma slice_data_same σ σ' slice data :
  (forall s r, heap σ !! s = Some r ->
     exists r', heap σ' !! s = Some r' /\ bytes r' = bytes r) ->
  slice_data σ slice = Some data -> slice_data σ' slice = Some data.
Proof.
  intros Hb. destruct slice as [d|k|k o l|s off len|c d]; try done.
  cbn [slice_data]. destruct (heap σ !! s) as [r|] eqn:Hs; [|done].
  destruct (Hb s r Hs) as (r' & -> & ->). done.
Qed.

(** The state after a hit. *)
Lemma found_state σ i s r :
  heap σ !! s = Some r ->
  let σ' := emit (EvUnlock i) (emit (EvLock i) (bump s σ)) in
  same_tables σ σ' /\ same_static σ σ' /\ g_shards σ' = g_shards σ /\
  heap σ' = <[s := set_refcnt (gpr_atm (refcnt r + 1)) r]> (heap σ) /\
  trace σ' = EvUnlock i :: EvLock i :: trace σ.
Proof.
  intros Hs σ'. subst σ'. rewrite (bump_eq σ s r Hs). split.
  - eapply same_tables_trans; [by apply (same_tables_set_refcnt s r)|].
    eapply same_tables_trans; apply same_tables_emit.
  - by repeat split.
Qed.

Lemma first_live_update hp h data chain s r r' :
  first_live hp h data chain = Some s -> hp !! s = Some r ->
  hash r' = h -> data = bytes r' -> refcnt r' <> 0 ->
  first_live (<[s := r']> hp) h data chain = Some s.
Proof.
  intros Hfl Hs H1 H2 H3. induction chain as [|c rest IH]; [done|].
  cbn [first_live] in *. destruct (decide (c = s)) as [->|Hne].
  - rewrite lookup_insert_eq. by rewrite !bool_decide_eq_true_2.
  - rewrite lookup_insert_ne by done.
    destruct (hp !! c) as [rc|]; [|by apply IH].
    destruct (_ && _); [congruence|by apply IH].
Qed.

Lemma gpr_atm_incr_nonzero z : 0 < z < 2 ^ 63 -> gpr_atm (z + 1) <> 0.
Proof.
  intros Hz. unfold gpr_atm. destruct (decide (z + 1 < 2 ^ 63)).
  - rewrite Z.mod_small by lia. lia.
  - replace (z + 1 + 2 ^ 63) with (0 + 1 * 2 ^ 64) by lia.
    rewrite Z.mod_add by lia. rewrite Z.mod_small by lia. lia.
Qed.

(** A second call for the same bytes returns the record [s] again when
    [s] is the one record of its chain that a lookup for them returns. *)
Lemma intern_again σ slice data chain s r :
  static_ok σ -> wf σ -> quiet σ ->
  grpc_is_static_metadata_string slice = false ->
  slice_data σ slice = Some data ->
  let h := grpc_slice_default_hash_impl σ data in
  static_lookup σ h data = Some None ->
  home_chain σ h = Some chain ->
  first_live (heap σ) h data chain = Some s -> heap σ !! s = Some r ->
  run (grpc_slice_intern slice) σ =
    Ok (slice_interned s 0 (rlength r))
       (emit (EvUnlock (SHARD_IDX h)) (emit (EvLock (SHARD_IDX h)) (bump s σ))).
Proof.
  intros Hst Hwf Hq Hns Hd h Hmiss Hhome Hfl Hs.
  rewrite (run_intern_static_miss σ slice data) by done. fold h.
  destruct (home_chain_exists σ h Hwf) as (sh & chain' & Hsh & Hchain & Hhome').
  assert (chain' = chain) as -> by congruence.
  apply (run_intern_dynamic_hit σ h data sh chain s r); try done.
  by apply (quiet_shard_at σ (SHARD_IDX h) sh).
Qed.

Lemma quiet_insert σ σ' (i : nat) sh' :
  quiet σ -> g_shards σ' = <[i := sh']> (g_shards σ) -> mu sh' = MuUnlocked ->
  quiet σ'.
Proof.
  intros Hq E Hmu sh Hin. rewrite E in Hin.
  apply list_elem_of_lookup in Hin as [j Hj].
  destruct (decide (i = j)) as [<-|Hne].
  - destruct (decide (i < List.length (g_shards σ))%nat).
    + rewrite list_lookup_insert_eq in Hj by done. congruence.
    + rewrite list_insert_ge in Hj by lia. apply Hq. by eapply list_elem_of_lookup_2.
  - rewrite list_lookup_insert_ne in Hj by done. apply Hq.
    by eapply list_elem_of_lookup_2.
Qed.

(** C1. Canonicalization: two calls of [grpc_slice_intern] in a row, on
    two slices that are not static metadata slices and hold the same
    bytes, both return, and return the same slice. That slice is either
    an entry of the static table that holds the bytes, the state being
    left as it was, or the whole of an interned record: the same record
    [s] for both calls, in the store after the first call and after the
    second, holding the bytes, the same bytes pointer (offset 0 of the
    record's storage) and the same length; the second call has raised
    the counter of [s] by one. The two slices are interchangeable, so the
    order of the calls does not matter. *)
Theorem intern_canonical σ a b data :
  static_ok σ -> wf σ -> quiet σ -> refs_in_range σ ->
  grpc_is_static_metadata_string a = false ->
  grpc_is_static_metadata_string b = false ->
  slice_data σ a = Some data -> slice_data σ b = Some data ->
  Z.of_nat (size (heap σ)) < MAX_RECORDS ->
  exists res σ1 σ2,
    run (grpc_slice_intern a) σ = Ok res σ1 /\
    run (grpc_slice_intern b) σ1 = Ok res σ2 /\
    ((exists k, res = slice_static k /\ static_slice k = Some data /\
        σ1 = σ /\ σ2 = σ) \/
     (exists s r1,
        res = slice_interned s 0 (rlength r1) /\
        heap σ1 !! s = Some r1 /\
        bytes r1 = data /\ rlength r1 = Z.of_nat (List.length data) /\
        refcnt r1 <> 0 /\
        heap σ2 = <[s := set_refcnt (gpr_atm (refcnt r1 + 1)) r1]> (heap σ1))).
Proof.
  intros Hst Hwf Hq Hrange Hnsa Hnsb Hda Hdb Hmem.
  pose proof (intern_cases σ a data Hst Hwf Hq Hnsa Hda) as Ha.
  inversion Ha as [k Hk Hrun | chain s r h Hmiss Hhome Hfl Hs Hrun
                  | chain sh sh' σ' h i s r grows Hmiss Hhome Hfl Hsh Hwf' Hst' Hheap
                      Hshards Hmu Hcnt Hcap Hperm Htr Hrun
                  | chain σ' h Hmiss Hhome Hfl Hoom Hrun].
  - (* the static table answers both calls *)
    exists (slice_static k), σ, σ. split; [done|].
    split; [by apply (run_intern_static_hit σ b data k)|].
    left. exists k. by destruct (static_lookup_sound σ _ data k Hk).
  - (* the first call finds [s] *)
    destruct (found_state σ (SHARD_IDX h) s r Hs) as (Htab & Hsame & Hsh1 & Hheap1 & _).
    set (σ1 := emit (EvUnlock (SHARD_IDX h)) (emit (EvLock (SHARD_IDX h)) (bump s σ))) in *.
    destruct (first_live_Some _ _ _ _ _ Hfl) as (_ & r0 & Hr0 & Hh0 & Hb0 & Hn0).
    assert (r0 = r) as -> by congruence.
    pose proof (Hrange s r Hs) as Hr.
    destruct (wf_record σ Hwf s r Hs) as [Hlen _].
    set (r1 := set_refcnt (gpr_atm (refcnt r + 1)) r) in *.
    assert (heap σ1 !! s = Some r1) as Hs1 by (rewrite Hheap1; apply lookup_insert_eq).
    assert (grpc_slice_default_hash_impl σ1 data = h) as Hh1
      by (by rewrite (default_hash_same σ σ1)).
    assert (refcnt r1 <> 0) as Hn1 by (apply gpr_atm_incr_nonzero; lia).
    assert (run (grpc_slice_intern b) σ1 =
              Ok (slice_interned s 0 (rlength r1))
                 (emit (EvUnlock (SHARD_IDX h))
                    (emit (EvLock (SHARD_IDX h)) (bump s σ1)))) as Hrun2.
    { pose proof (intern_again σ1 b data chain s r1) as Hagain. cbv zeta in Hagain.
      rewrite Hh1 in Hagain. apply Hagain.
      + by apply (static_ok_same σ).
      + by apply (wf_ext σ).
      + intros sh Hin. apply Hq. by rewrite <- Hsh1.
      + done.
      + apply (slice_data_same σ); [|done]. intros s' r' Hs'. rewrite Hheap1.
        destruct (decide (s' = s)) as [->|Hne].
        * rewrite lookup_insert_eq. exists r1. split; [done|].
          assert (r' = r) as -> by congruence. done.
        * rewrite lookup_insert_ne by done. eauto.
      + by rewrite (static_lookup_same σ σ1).
      + by rewrite (same_tables_home σ σ1).
      + rewrite Hheap1. by apply (first_live_update _ _ _ _ s r r1).
      + done. }
    destruct (found_state σ1 (SHARD_IDX h) s r1 Hs1) as (_ & _ & _ & Hheap2 & _).
    eexists _, σ1, _. split; [done|]. split; [exact Hrun2|].
    right. exists s, r1. split; [done|]. split; [done|].
    split; [by rewrite Hb0|]. split; [by rewrite Hb0|]. by split.
  - (* the first call creates [s] *)
    assert (heap σ' !! s = Some r) as Hs1 by (rewrite Hheap; apply lookup_insert_eq).
    assert (heap σ !! s = None) as Hfresh.
    { apply not_elem_of_dom. subst s. apply is_fresh. }
    assert (grpc_slice_default_hash_impl σ' data = h) as Hh1
      by (by rewrite (default_hash_same σ σ')).
    destruct (wf_linked σ' Hwf' s r Hs1) as (chain1 & Hhome1 & Hin1).
    cbn [hash r] in Hhome1.
    assert (run (grpc_slice_intern b) σ' =
              Ok (slice_interned s 0 (rlength r))
                 (emit (EvUnlock (SHARD_IDX h))
                    (emit (EvLock (SHARD_IDX h)) (bump s σ')))) as Hrun2.
    { pose proof (intern_again σ' b data chain1 s r) as Hagain. cbv zeta in Hagain.
      rewrite Hh1 in Hagain. apply Hagain; try done.
      + by apply (static_ok_same σ).
      + by apply (quiet_insert σ σ' (Z.to_nat i) sh').
      + apply (slice_data_same σ); [|done]. intros s' r' Hs'. rewrite Hheap.
        exists r'. split; [|done]. rewrite lookup_insert_ne; [done|congruence].
      + by rewrite (static_lookup_same σ σ').
      + apply (first_live_unique _ _ _ _ s r); try done.
        intros s' r' Hin' Hne Hs' Hh' Hb'. rewrite Hheap, lookup_insert_ne in Hs' by done.
        destruct (wf_linked σ Hwf s' r' Hs') as (c & Hc & Hsc).
        rewrite Hh' in Hc. assert (c = chain) as -> by congruence.
        by apply (first_live_None (heap σ) h data chain s' r'). }
    destruct (found_state σ' (SHARD_IDX h) s r Hs1) as (_ & _ & _ & Hheap2 & _).
    eexists _, σ', _. split; [done|]. split; [exact Hrun2|].
    right. exists s, r. by repeat (split; [done|]).
  - lia.
Qed.

(** *** [interned_slice_ref] and [interned_slice_unref] *)

Lemma run_ref σ s r :
  heap σ !! s = Some r -> 0 < refcnt r ->
  run (interned_slice_ref s) σ =
    Ok tt (set_heap (<[s := set_refcnt (gpr_atm (refcnt r + 1)) r]> (heap σ)) σ).
Proof.
  intros Hs Hr. unfold interned_slice_ref. cbn [run]. unfold gpr_atm_fetch_add.
  rewrite Hs. rewrite bool_decide_eq_true_2 by lia. done.
Qed.

(** A release that is not the last one: line 108 alone. *)
Lemma run_unref_keep σ s r :
  heap σ !! s = Some r -> refcnt r <> 1 ->
  run (interned_slice_unref s) σ =
    Ok tt (set_heap (<[s := set_refcnt (gpr_atm (refcnt r - 1)) r]> (heap σ)) σ).
Proof.
  intros Hs Hr. unfold interned_slice_unref. cbn [run]. unfold gpr_atm_fetch_add.
  rewrite Hs. rewrite decide_False by congruence. done.
Qed.

(** The last release: lines 108 and 90-104. *)
Lemma run_unref_last σ s r sh :
  wf σ -> heap σ !! s = Some r -> refcnt r = 1 ->
  shard_at (SHARD_IDX (hash r)) σ = Some sh -> mu sh = MuUnlocked ->
  let i := SHARD_IDX (hash r) in
  let idx := Z.to_nat (TABLE_IDX (hash r) (capacity sh)) in
  exists chain chain' σ',
    strs sh !! idx = Some chain /\ unlink s chain = Some chain' /\
    run (interned_slice_unref s) σ = Ok tt σ' /\
    wf σ' /\ same_static σ σ' /\
    heap σ' = delete s (heap σ) /\
    g_shards σ' = <[Z.to_nat i :=
        mk_shard MuUnlocked (<[idx := chain']> (strs sh)) (count sh - 1) (capacity sh)]>
      (g_shards σ) /\
    trace σ' = EvUnlock i :: EvFree s :: EvLock i :: trace σ.
Proof.
  intros Hwf Hs Hr Hsh Hmu i idx. fold i in Hsh.
  unfold interned_slice_unref. cbn [run]. unfold gpr_atm_fetch_add.
  rewrite Hs, Hr. rewrite decide_True by done.
  change (gpr_atm (1 + -1)) with 0.
  set (r0 := set_refcnt 0 r).
  set (σ1 := set_heap (<[s := r0]> (heap σ)) σ).
  assert (wf σ1) as Hwf1 by (apply (wf_ext σ); [by apply same_tables_set_refcnt|done]).
  assert (heap σ1 !! s = Some r0) as Hs1 by apply lookup_insert_eq.
  unfold interned_slice_destroy. cbn [run]. unfold read at 1. rewrite Hs1.
  cbn [fmap option_fmap option_map hash r0 set_refcnt]. fold i.
  unfold gpr_mu_lock. replace (shard_at i σ1) with (shard_at i σ) by done.
  rewrite Hsh, Hmu.
  set (sh2 := set_mu MuLocked sh).
  set (σ2 := emit (EvLock i) (set_shard i sh2 σ1)).
  assert (wf σ2) as Hwf2 by (by apply wf_lock).
  assert (shard_at i σ2 = Some sh2) as Hsh2.
  { subst σ2. rewrite shard_at_emit. by eapply shard_at_set_shard_eq. }
  assert (heap σ2 !! s = Some r0) as Hs2 by done.
  unfold destroy_locked. cbn [run]. unfold gpr_atm_no_barrier_load, read.
  rewrite Hs2. cbn [fmap option_fmap option_map refcnt r0 set_refcnt].
  rewrite bool_decide_eq_true_2 by done. cbn [GPR_ASSERT].
  destruct (destroy_unlink_spec σ2 s r0 sh2 Hwf2 Hs2 Hsh2)
    as (chain & chain' & Hchain & Hun & Hrun & Hwf3 & Hperm).
  cbn [hash r0 set_refcnt capacity sh2 set_mu strs count mu] in *. fold i idx in Hrun, Hchain, Hwf3.
  rewrite Hrun.
  set (sh3 := mk_shard MuLocked (<[idx := chain']> (strs sh)) (count sh - 1) (capacity sh)) in *.
  set (σ3 := emit (EvFree s) (set_shard i sh3 (set_heap (delete s (heap σ2)) σ2))) in *.
  assert (shard_at i σ3 = Some sh3) as Hsh3.
  { subst σ3. rewrite shard_at_emit. eapply shard_at_set_shard_eq.
    rewrite shard_at_set_heap_eq. exact Hsh2. }
  unfold gpr_mu_unlock. rewrite Hsh3. cbn [mu sh3]. cbn [run].
  exists chain, chain'. eexists. split; [done|]. split; [done|].
  split; [reflexivity|]. split; [|repeat split; subst σ3 σ2 σ1; proj; try done].
  - eapply wf_ext; [|exact Hwf3].
    eapply same_tables_trans; [by apply same_tables_set_mu|apply same_tables_emit].
  - by rewrite delete_insert_eq.
  - by rewrite !list_insert_insert_eq.
Qed.

(** ** The invariant is kept by every call *)

Lemma quiet_same σ σ' : g_shards σ' = g_shards σ -> quiet σ -> quiet σ'.
Proof. intros E Hq sh Hin. apply Hq. by rewrite <- E. Qed.

Lemma static_miss_same σ σ' :
  same_static σ σ' ->
  (forall s r', heap σ' !! s = Some r' ->
     exists r, heap σ !! s = Some r /\ hash r = hash r' /\ bytes r = bytes r') ->
  static_miss σ -> static_miss σ'.
Proof.
  intros Hsame Hrec Hsm s r' Hs'. destruct (Hrec s r' Hs') as (r & Hr & <- & <-).
  rewrite (static_lookup_same σ σ') by done. by apply (Hsm s).
Qed.

(** A counter moves between two positive values. *)
Lemma inv_set_refcnt σ σ' s r v :
  inv σ -> heap σ !! s = Some r -> 0 < v < 2 ^ 63 ->
  same_tables σ σ' -> same_static σ σ' -> g_shards σ' = g_shards σ ->
  heap σ' = <[s := set_refcnt v r]> (heap σ) ->
  inv σ'.
Proof.
  intros [Hst Hwf Hcan Hsm Hq Hlive Hrange] Hs Hv Htab Hsame Hsh Hheap.
  assert (forall s' r', heap σ' !! s' = Some r' ->
    exists r0, heap σ !! s' = Some r0 /\ hash r0 = hash r' /\ bytes r0 = bytes r' /\
      (refcnt r' = refcnt r0 \/ refcnt r' = v)) as Hrec.
  { intros s' r' Hs'. rewrite Hheap in Hs'. destruct (decide (s' = s)) as [->|Hne].
    - rewrite lookup_insert_eq in Hs'. injection Hs' as <-. exists r. by repeat split; [|right].
    - rewrite lookup_insert_ne in Hs' by done. exists r'. by repeat split; [|left]. }
  constructor.
  - by apply (static_ok_same σ).
  - by apply (wf_ext σ).
  - intros s1 r1 s2 r2 H1 H2 _ _ Hb.
    destruct (Hrec s1 r1 H1) as (q1 & Hq1 & _ & Hb1 & _).
    destruct (Hrec s2 r2 H2) as (q2 & Hq2 & _ & Hb2 & _).
    apply (Hcan s1 q1 s2 q2); try done; try congruence.
    + pose proof (Hlive s1 q1 Hq1). lia.
    + pose proof (Hlive s2 q2 Hq2). lia.
  - apply (static_miss_same σ); try done. intros s' r' Hs'.
    destruct (Hrec s' r' Hs') as (r0 & ? & ? & ? & _). eauto.
  - by apply (quiet_same σ).
  - intros s' r' Hs'. destruct (Hrec s' r' Hs') as (r0 & Hr0 & _ & _ & [->| ->]); [|lia].
    by apply (Hlive s' r0).
  - intros s' r' Hs'. destruct (Hrec s' r' Hs') as (r0 & Hr0 & _ & _ & [->| ->]); [|lia].
    by apply (Hrange s' r0).
Qed.

(** A record leaves the table. *)
Lemma inv_delete σ σ' s (i : nat) sh' :
  inv σ -> wf σ' -> same_static σ σ' ->
  heap σ' = delete s (heap σ) ->
  g_shards σ' = <[i := sh']> (g_shards σ) -> mu sh' = MuUnlocked ->
  inv σ'.
Proof.
  intros [Hst Hwf Hcan Hsm Hq Hlive Hrange] Hwf' Hsame Hheap Hsh Hmu.
  assert (forall s' r', heap σ' !! s' = Some r' -> heap σ !! s' = Some r') as Hrec.
  { intros s' r' Hs'. rewrite Hheap in Hs'. by apply lookup_delete_Some in Hs' as [_ ?]. }
  constructor.
  - by apply (static_ok_same σ).
  - done.
  - intros s1 r1 s2 r2 H1 H2. apply Hcan; by apply Hrec.
  - apply (static_miss_same σ); try done. intros s' r' Hs'. exists r'. eauto.
  - by apply (quiet_insert σ σ' i sh').
  - intros s' r' Hs'. apply (Hlive s'). by apply Hrec.
  - intros s' r' Hs'. apply (Hrange s'). by apply Hrec.
Qed.

Lemma inv_unref σ s σ' :
  inv σ -> run (interned_slice_unref s) σ = Ok tt σ' -> inv σ'.
Proof.
  intros Hinv Hrun. pose proof Hinv as [Hst Hwf Hcan Hsm Hq Hlive Hrange].
  destruct (heap σ !! s) as [r|] eqn:Hs.
  2:{ unfold interned_slice_unref in Hrun. cbn [run] in Hrun.
      unfold gpr_atm_fetch_add in Hrun. by rewrite Hs in Hrun. }
  pose proof (Hlive s r Hs) as Hpos. pose proof (Hrange s r Hs) as Hr.
  destruct (decide (refcnt r = 1)) as [H1|H1].
  - pose proof (SHARD_IDX_range (hash r)) as Hi.
    destruct (wf_shard_exists σ _ Hwf Hi) as [sh Hsh].
    destruct (run_unref_last σ s r sh Hwf Hs H1 Hsh (quiet_shard_at σ _ sh Hq Hsh))
      as (chain & chain' & σ1 & _ & _ & Hrun1 & Hwf1 & Hsame & Hheap & Hshards & _).
    assert (σ1 = σ') as -> by congruence.
    by eapply (inv_delete σ σ' s).
  - rewrite (run_unref_keep σ s r) in Hrun by done. injection Hrun as <-.
    apply (inv_set_refcnt σ _ s r (gpr_atm (refcnt r - 1))); try done.
    + rewrite gpr_atm_small by lia. lia.
    + by apply same_tables_set_refcnt.
Qed.

Lemma inv_ref σ s σ' :
  inv σ -> no_overflow σ -> run (interned_slice_ref s) σ = Ok tt σ' -> inv σ'.
Proof.
  intros Hinv Hno Hrun. pose proof Hinv as [Hst Hwf Hcan Hsm Hq Hlive Hrange].
  destruct (heap σ !! s) as [r|] eqn:Hs.
  2:{ unfold interned_slice_ref in Hrun. cbn [run] in Hrun.
      unfold gpr_atm_fetch_add in Hrun. by rewrite Hs in Hrun. }
  pose proof (Hlive s r Hs) as Hpos. pose proof (Hno s r Hs) as Hr.
  rewrite (run_ref σ s r) in Hrun by done. injection Hrun as <-.
  apply (inv_set_refcnt σ _ s r (gpr_atm (refcnt r + 1))); try done.
  - rewrite gpr_atm_small by lia. lia.
  - by apply same_tables_set_refcnt.
Qed.

Lemma intern_valid σ slice res σ' :
  grpc_is_static_metadata_string slice = false ->
  run (grpc_slice_intern slice) σ = Ok res σ' ->
  exists data, slice_data σ slice = Some data.
Proof.
  intros Hns Hrun. destruct (slice_data σ slice) as [data|] eqn:Hd; [eauto|].
  unfold grpc_slice_intern in Hrun. rewrite Hns in Hrun. cbn [run] in Hrun.
  unfold read, static_query in Hrun. rewrite Hd in Hrun.
  by destruct (grpc_slice_hash σ slice).
Qed.

Lemma run_intern_static_slice σ slice :
  grpc_is_static_metadata_string slice = true ->
  run (grpc_slice_intern slice) σ = Ok slice σ.
Proof. intros Hs. unfold grpc_slice_intern. by rewrite Hs. Qed.

Lemma inv_intern σ slice res σ' :
  inv σ -> no_overflow σ ->
  run (grpc_slice_intern slice) σ = Ok res σ' -> inv σ'.
Proof.
  intros Hinv Hno Hrun. pose proof Hinv as [Hst Hwf Hcan Hsm Hq Hlive Hrange].
  destruct (grpc_is_static_metadata_string slice) eqn:Hns.
  { rewrite run_intern_static_slice in Hrun by done. by injection Hrun as _ <-. }
  destruct (intern_valid σ slice res σ' Hns Hrun) as [data Hd].
  pose proof (intern_cases σ slice data Hst Hwf Hq Hns Hd) as Hc.
  rewrite Hrun in Hc.
  inversion Hc as [k Hk | chain s r h Hmiss Hhome Hfl Hs
                  | chain sh sh' σ1 h i s r grows Hmiss Hhome Hfl Hsh Hwf' Hst' Hheap
                      Hshards Hmu Hcnt Hcap Hperm Htr
                  | ]; subst.
  - done.
  - destruct (found_state σ (SHARD_IDX h) s r Hs) as (Htab & Hsame & Hsh1 & Hheap1 & _).
    pose proof (Hlive s r Hs). pose proof (Hno s r Hs).
    apply (inv_set_refcnt σ _ s r (gpr_atm (refcnt r + 1))); try done.
    rewrite gpr_atm_small by lia. lia.
  - assert (heap σ !! s = None) as Hfresh.
    { apply not_elem_of_dom. subst s. apply is_fresh. }
    assert (forall s' r', heap σ' !! s' = Some r' -> s' <> s -> heap σ !! s' = Some r')
      as Hold.
    { intros s' r' Hs' Hne. by rewrite Hheap, lookup_insert_ne in Hs'. }
    assert (heap σ' !! s = Some r) as Hnew by (rewrite Hheap; apply lookup_insert_eq).
    assert (forall s' r', heap σ' !! s' = Some r' -> s' <> s ->
              refcnt r' <> 0 -> bytes r' <> data) as Hother.
    { intros s' r' Hs' Hne Hr' Hb. apply Hr'.
      pose proof (Hold s' r' Hs' Hne) as Ho.
      destruct (wf_record σ Hwf s' r' Ho) as [_ Hh'].
      destruct (wf_linked σ Hwf s' r' Ho) as (c & Hcc & Hsc).
      rewrite Hh', Hb in Hcc. fold h in Hcc. assert (c = chain) as -> by congruence.
      apply (first_live_None (heap σ) h data chain s' r'); try done.
      by rewrite Hh', Hb. }
    constructor.
    + by apply (static_ok_same σ).
    + done.
    + intros s1 r1 s2 r2 H1 H2 L1 L2 Hb.
      destruct (decide (s1 = s)) as [->|N1]; destruct (decide (s2 = s)) as [->|N2];
        try done.
      * assert (r1 = r) as -> by congruence. exfalso.
        by apply (Hother s2 r2 H2 N2 L2).
      * assert (r2 = r) as -> by congruence. exfalso.
        by apply (Hother s1 r1 H1 N1 L1).
      * apply (Hcan s1 r1 s2 r2); try done; by apply Hold.
    + intros s' r' Hs'. rewrite (static_lookup_same σ σ') by done.
      destruct (decide (s' = s)) as [->|Hne].
      * assert (r' = r) as -> by congruence. done.
      * apply (Hsm s'). by apply Hold.
    + by apply (quiet_insert σ σ' (Z.to_nat i) sh').
    + intros s' r' Hs'. destruct (decide (s' = s)) as [->|Hne].
      * assert (r' = r) as -> by congruence. done.
      * apply (Hlive s'). by apply Hold.
    + intros s' r' Hs'. destruct (decide (s' = s)) as [->|Hne].
      * assert (r' = r) as -> by congruence. done.
      * apply (Hrange s'). by apply Hold.
Qed.

(** ** Runs of calls *)

Lemma run_bind {A B : Type} (p : prog A) (f : A -> prog B) : forall σ,
  run (bind p f) σ =
    match run p σ with
    | Ok a σ' => run (f a) σ'
    | Crash e σ' => Crash e σ'
    | Block => Block
    end.
Proof.
  induction p as [a|X act k IH]; intros σ; [done|].
  cbn [bind run]. destruct (act σ) as [x σ'| |]; [apply IH|done|done].
Qed.

(** The calls a client of the file makes once the tables are set up. *)
Inductive call : Type :=
| CallIntern (slice : grpc_slice)
| CallStaticIntern (slice : grpc_slice)
| CallRef (s : addr)
| CallUnref (s : addr).

Definition call_prog (c : call) : prog unit :=
  match c with
  | CallIntern slice => bind (grpc_slice_intern slice) (fun _ => Ret tt)
  | CallStaticIntern slice => bind (grpc_slice_static_intern slice) (fun _ => Ret tt)
  | CallRef s => interned_slice_ref s
  | CallUnref s => interned_slice_unref s
  end.

(** The states between the calls of one thread: [grpc_slice_intern_init]
    on globals that hold no record yet, then any calls that return, none
    made while a reference counter is at its maximum. *)
Inductive reachable : state -> Prop :=
| reach_init σ0 tv_nsec σ :
    arrays_ok σ0 -> heap σ0 = ∅ ->
    grpc_slice_intern_init tv_nsec σ0 = Ok tt σ -> reachable σ
| reach_call σ c σ' :
    reachable σ -> no_overflow σ ->
    run (call_prog c) σ = Ok tt σ' -> reachable σ'.

Lemma inv_emit e σ : inv σ -> inv (emit e σ).
Proof.
  intros [Hst Hwf ? Hsm ? ? ?]. constructor; try done.
  - apply (wf_ext σ); [apply same_tables_emit|done].
  - apply (static_miss_same σ); [by repeat split| |done]. intros s r Hs. eauto.
Qed.

Lemma run_static_intern_cases σ slice res σ' :
  run (grpc_slice_static_intern slice) σ = Ok res σ' ->
  σ' = σ \/ run (grpc_slice_unref slice) σ = Ok tt σ'.
Proof.
  unfold grpc_slice_static_intern.
  destruct (grpc_is_static_metadata_string slice).
  { intros [= _ <-]. by left. }
  cbn [run]. unfold read. destruct (static_query slice σ) as [[[h data] [k|]]|].
  - rewrite run_bind. destruct (run (grpc_slice_unref slice) σ) as [[] σ1| |]; try done.
    cbn [run]. intros [= _ <-]. by right.
  - cbn [run]. intros [= _ <-]. by left.
  - done.
Qed.

Lemma inv_slice_unref σ slice σ' :
  inv σ -> run (grpc_slice_unref slice) σ = Ok tt σ' -> inv σ'.
Proof.
  intros Hinv. destruct slice as [d|k|k o l|s off len|c d]; cbn [grpc_slice_unref run].
  - by intros [= <-].
  - by intros [= <-].
  - by intros [= <-].
  - by apply inv_unref.
  - intros [= <-]. by apply inv_emit.
Qed.

Lemma inv_call σ c σ' :
  inv σ -> no_overflow σ -> run (call_prog c) σ = Ok tt σ' -> inv σ'.
Proof.
  intros Hinv Hno. destruct c as [slice|slice|s|s]; cbn [call_prog].
  - rewrite run_bind.
    destruct (run (grpc_slice_intern slice) σ) as [res σ1| |] eqn:Hrun; try done.
    cbn [run]. intros [= <-]. by eapply inv_intern.
  - rewrite run_bind.
    destruct (run (grpc_slice_static_intern slice) σ) as [res σ1| |] eqn:Hrun; try done.
    cbn [run]. intros [= <-].
    destruct (run_static_intern_cases σ slice res σ1 Hrun) as [->|Hu]; [done|].
    by eapply inv_slice_unref.
  - by apply inv_ref.
  - intros Hrun. by eapply inv_unref.
Qed.

Lemma init_shard_ok hp i : shard_ok hp i init_shard.
Proof.
  constructor; cbn; try done.
  - constructor.
  - intros idx chain s Hc Hs.
    assert (chain = []) as -> by
      (do 8 (destruct idx as [|idx]; [by injection Hc|]); done).
    by apply elem_of_nil in Hs.
Qed.

Lemma inv_init σ0 tv_nsec σ :
  table_size_ok -> arrays_ok σ0 -> heap σ0 = ∅ ->
  grpc_slice_intern_init tv_nsec σ0 = Ok tt σ -> inv σ.
Proof.
  intros Hok Harr Hempty Hinit.
  destruct (init_spec tv_nsec σ0 Hok Harr) as (σ1 & Hrun & Hst & Hsh & Hheap & _).
  assert (σ1 = σ) as -> by congruence. rewrite Hempty in Hheap.
  assert (forall (i : nat) sh, g_shards σ !! i = Some sh -> sh = init_shard) as Hall.
  { intros i sh Hi. rewrite Hsh in Hi. by apply lookup_replicate in Hi as [-> _]. }
  constructor; try (intros s r Hs; rewrite Hheap in Hs; done).
  - done.
  - constructor; try (intros s r Hs; rewrite Hheap in Hs; done).
    + by rewrite Hsh, length_replicate.
    + intros i sh Hi. rewrite (Hall i sh Hi). apply init_shard_ok.
    + rewrite Hheap. rewrite map_size_empty. done.
  - intros s1 r1 s2 r2 Hs. rewrite Hheap in Hs. done.
  - intros sh Hin. apply list_elem_of_lookup in Hin as [i Hi].
    by rewrite (Hall i sh Hi).
Qed.

Lemma reachable_inv σ : table_size_ok -> reachable σ -> inv σ.
Proof.
  intros Hok Hr. induction Hr as [σ0 tv σ Harr Hempty Hinit|σ c σ' Hr IH Hno Hrun].
  - by eapply inv_init.
  - by eapply inv_call.
Qed.

(** ** Capacity of the shards (C7) *)

(** One call takes shard [sh] to [sh']: the capacity doubles when the call
    has added a record and the shard then holds more than twice its
    capacity, and stays as it is otherwise. *)
Definition shard_step (sh sh' : slice_shard) : Prop :=
  capacity sh <= capacity sh' /\
  if decide (count sh' = count sh + 1 /\ count sh' > capacity sh * 2)
  then capacity sh' = capacity sh * 2
  else capacity sh' = capacity sh.

Definition shards_step (σ σ' : state) : Prop :=
  forall (i : nat) sh, g_shards σ !! i = Some sh ->
    exists sh', g_shards σ' !! i = Some sh' /\ shard_step sh sh'.

Lemma shard_step_refl sh : shard_step sh sh.
Proof. split; [lia|]. rewrite decide_False by lia. done. Qed.

Lemma shards_step_same σ σ' : g_shards σ' = g_shards σ -> shards_step σ σ'.
Proof. intros E i sh Hi. exists sh. rewrite E. split; [done|apply shard_step_refl]. Qed.

Lemma shards_step_insert σ σ' (i : nat) sh sh' :
  g_shards σ' = <[i := sh']> (g_shards σ) -> g_shards σ !! i = Some sh ->
  shard_step sh sh' -> shards_step σ σ'.
Proof.
  intros E Hi Hstep j shj Hj. rewrite E. destruct (decide (i = j)) as [<-|Hne].
  - exists sh'. rewrite list_lookup_insert_eq by (by eapply lookup_lt_Some).
    split; [done|]. congruence.
  - exists shj. rewrite list_lookup_insert_ne by done.
    split; [done|apply shard_step_refl].
Qed.

Lemma shards_step_unref σ s σ' :
  inv σ -> run (interned_slice_unref s) σ = Ok tt σ' -> shards_step σ σ'.
Proof.
  intros Hinv Hrun. pose proof Hinv as [Hst Hwf Hcan Hsm Hq Hlive Hrange].
  destruct (heap σ !! s) as [r|] eqn:Hs.
  2:{ unfold interned_slice_unref in Hrun. cbn [run] in Hrun.
      unfold gpr_atm_fetch_add in Hrun. by rewrite Hs in Hrun. }
  destruct (decide (refcnt r = 1)) as [H1|H1].
  - pose proof (SHARD_IDX_range (hash r)) as Hi.
    destruct (wf_shard_exists σ _ Hwf Hi) as [sh Hsh].
    destruct (run_unref_last σ s r sh Hwf Hs H1 Hsh (quiet_shard_at σ _ sh Hq Hsh))
      as (chain & chain' & σ1 & _ & _ & Hrun1 & _ & _ & _ & Hshards & _).
    assert (σ1 = σ') as -> by congruence.
    eapply shards_step_insert; [exact Hshards|exact Hsh|].
    pose proof (so_cap _ _ _ (wf_shard_at σ (SHARD_IDX (hash r)) sh Hwf ltac:(lia) Hsh)).
    split; cbn [capacity count]; [lia|]. rewrite decide_False by lia. done.
  - rewrite (run_unref_keep σ s r) in Hrun by done. injection Hrun as <-.
    by apply shards_step_same.
Qed.

Lemma shards_step_intern σ slice res σ' :
  inv σ -> run (grpc_slice_intern slice) σ = Ok res σ' -> shards_step σ σ'.
Proof.
  intros Hinv Hrun. pose proof Hinv as [Hst Hwf Hcan Hsm Hq Hlive Hrange].
  destruct (grpc_is_static_metadata_string slice) eqn:Hns.
  { rewrite run_intern_static_slice in Hrun by done. injection Hrun as _ <-.
    by apply shards_step_same. }
  destruct (intern_valid σ slice res σ' Hns Hrun) as [data Hd].
  pose proof (intern_cases σ slice data Hst Hwf Hq Hns Hd) as Hc.
  rewrite Hrun in Hc.
  inversion Hc as [k Hk | chain s r h Hmiss Hhome Hfl Hs
                  | chain sh sh' σ1 h i s r grows Hmiss Hhome Hfl Hsh Hwf' Hst' Hheap
                      Hshards Hmu Hcnt Hcap Hperm Htr
                  | ]; subst.
  - by apply shards_step_same.
  - apply shards_step_same.
    by destruct (found_state σ (SHARD_IDX h) s r Hs) as (_ & _ & ? & _).
  - eapply shards_step_insert; [exact Hshards|exact Hsh|].
    pose proof (SHARD_IDX_range h) as Hi.
    pose proof (so_cap _ _ _ (wf_shard_at σ (SHARD_IDX h) sh Hwf ltac:(lia) Hsh)).
    unfold shard_step. rewrite Hcap, Hcnt. subst grows. split.
    + case_bool_decide; lia.
    + destruct (decide (count sh + 1 > capacity sh * 2)).
      * rewrite bool_decide_eq_true_2, decide_True by done. done.
      * rewrite bool_decide_eq_false_2, decide_False by tauto. done.
Qed.

Lemma shards_step_call σ c σ' :
  inv σ -> run (call_prog c) σ = Ok tt σ' -> shards_step σ σ'.
Proof.
  intros Hinv. destruct c as [slice|slice|s|s]; cbn [call_prog].
  - rewrite run_bind.
    destruct (run (grpc_slice_intern slice) σ) as [res σ1| |] eqn:Hrun; try done.
    cbn [run]. intros [= <-]. by eapply shards_step_intern.
  - rewrite run_bind.
    destruct (run (grpc_slice_static_intern slice) σ) as [res σ1| |] eqn:Hrun; try done.
    cbn [run]. intros [= <-].
    destruct (run_static_intern_cases σ slice res σ1 Hrun) as [->|Hu];
      [by apply shards_step_same|].
    destruct slice as [d|k|k o l|s off len|c d]; cbn [grpc_slice_unref run] in Hu.
    + injection Hu as <-. by apply shards_step_same.
    + injection Hu as <-. by apply shards_step_same.
    + injection Hu as <-. by apply shards_step_same.
    + by eapply shards_step_unref.
    + injection Hu as <-. by apply shards_step_same.
  - intros Hrun. apply shards_step_same.
    unfold interned_slice_ref in Hrun. cbn [run] in Hrun.
    unfold gpr_atm_fetch_add in Hrun. destruct (heap σ !! s); [|done].
    destruct (bool_decide _); [|done]. by injection Hrun as <-.
  - intros Hrun. by eapply shards_step_unref.
Qed.

(** A power of two times the initial capacity. *)
Definition capacity_shape (σ : state) : Prop :=
  forall sh, sh ∈ g_shards σ ->
    exists k : nat, capacity sh = INITIAL_SHARD_CAPACITY * 2 ^ Z.of_nat k.

Lemma reachable_shape σ : table_size_ok -> reachable σ -> capacity_shape σ.
Proof.
  intros Hok Hr. induction Hr as [σ0 tv σ Harr Hempty Hinit|σ c σ' Hr IH Hno Hrun].
  - destruct (init_spec tv σ0 Hok Harr) as (σ1 & Hrun & _ & Hsh & _).
    assert (σ1 = σ) as -> by congruence.
    intros sh Hin. rewrite Hsh in Hin. apply elem_of_replicate in Hin as [-> _].
    exists 0%nat. done.
  - intros sh' Hin'. apply list_elem_of_lookup in Hin' as [i Hi'].
    pose proof (reachable_inv σ Hok Hr) as Hinv.
    assert (List.length (g_shards σ') = List.length (g_shards σ)) as Hlen.
    { rewrite (wf_shards σ (inv_wf σ Hinv)).
      apply (wf_shards σ'), (inv_wf σ'). by eapply inv_call. }
    destruct (lookup_lt_is_Some_2 (g_shards σ) i) as [sh Hi];
      [rewrite <- Hlen; by eapply lookup_lt_Some|].
    destruct (shards_step_call σ c σ' Hinv Hrun i sh Hi) as (sh2 & Hi2 & _ & Hstep).
    assert (sh2 = sh') as -> by congruence.
    destruct (IH sh) as [k Hk]; [by eapply list_elem_of_lookup_2|].
    case_decide.
    + exists (S k). rewrite Hstep, Hk. rewrite Nat2Z.inj_succ, Z.pow_succ_r by lia. lia.
    + exists k. congruence.
Qed.

(** An insertion: bytes that the tables do not hold yet. *)
Lemma intern_inserts σ slice data sh :
  inv σ -> grpc_is_static_metadata_string slice = false ->
  slice_data σ slice = Some data ->
  (forall k, static_slice k <> Some data) ->
  (forall s r, heap σ !! s = Some r -> bytes r <> data) ->
  Z.of_nat (size (heap σ)) < MAX_RECORDS ->
  shard_at (SHARD_IDX (grpc_slice_default_hash_impl σ data)) σ = Some sh ->
  exists res σ' sh',
    run (grpc_slice_intern slice) σ = Ok res σ' /\
    shard_at (SHARD_IDX (grpc_slice_default_hash_impl σ data)) σ' = Some sh' /\
    count sh' = count sh + 1 /\
    capacity sh' = if bool_decide (count sh + 1 > capacity sh * 2)
                   then capacity sh * 2 else capacity sh.
Proof.
  intros Hinv Hns Hd Hnostatic Hnew Hsize Hsh0.
  pose proof Hinv as [Hst Hwf Hcan Hsm Hq Hlive Hrange].
  pose proof (intern_cases σ slice data Hst Hwf Hq Hns Hd) as Hc.
  inversion Hc as [k Hk Hrun | chain s r h Hmiss Hhome Hfl Hs Hrun
                  | chain sh1 sh' σ1 h i s r grows Hmiss Hhome Hfl Hsh Hwf' Hst' Hheap
                      Hshards Hmu Hcnt Hcap Hperm Htr Hrun
                  | chain σ1 h Hmiss Hhome Hfl Hfull Hrun ].
  - destruct (static_lookup_sound σ _ data k Hk) as [Hk' _]. by destruct (Hnostatic k).
  - destruct (first_live_Some _ _ _ _ _ Hfl) as (_ & r0 & Hs0 & _ & Hbytes & _).
    by destruct (Hnew s r0 Hs0).
  - subst i h. assert (sh1 = sh) as -> by congruence.
    eexists _, σ1, sh'. split; [done|]. split; [|done].
    unfold shard_at. rewrite Hshards. apply list_lookup_insert_eq.
    unfold shard_at in Hsh. by eapply lookup_lt_Some.
  - lia.
Qed.

(** C7. Growth trigger and shape: in every state of a run, the capacity
    of every shard is the initial capacity 8 times a power of two; a
    call from such a state never lowers the capacity of a shard, doubles
    it when the call has added a record to the shard ([count] is one more)
    and [count] then exceeds twice the capacity, and leaves it as it is
    in every other case; and an insertion, the [grpc_slice_intern] of
    bytes that are neither those of a static string nor those of a
    record, does add a record to the shard that the hash names and
    doubles the capacity of that shard exactly when the new count
    exceeds twice the capacity. *)
Theorem capacity_growth σ :
  table_size_ok -> reachable σ ->
  (forall sh, sh ∈ g_shards σ ->
     exists k : nat, capacity sh = INITIAL_SHARD_CAPACITY * 2 ^ Z.of_nat k) /\
  (forall c σ', run (call_prog c) σ = Ok tt σ' ->
     forall (i : nat) sh, g_shards σ !! i = Some sh ->
       exists sh', g_shards σ' !! i = Some sh' /\
         capacity sh <= capacity sh' /\
         if decide (count sh' = count sh + 1 /\ count sh' > capacity sh * 2)
         then capacity sh' = capacity sh * 2
         else capacity sh' = capacity sh) /\
  (forall slice data sh,
     grpc_is_static_metadata_string slice = false ->
     slice_data σ slice = Some data ->
     (forall k, static_slice k <> Some data) ->
     (forall s r, heap σ !! s = Some r -> bytes r <> data) ->
     Z.of_nat (size (heap σ)) < MAX_RECORDS ->
     shard_at (SHARD_IDX (grpc_slice_default_hash_impl σ data)) σ = Some sh ->
     exists res σ' sh',
       run (grpc_slice_intern slice) σ = Ok res σ' /\
       shard_at (SHARD_IDX (grpc_slice_default_hash_impl σ data)) σ' = Some sh' /\
       count sh' = count sh + 1 /\
       capacity sh' = if bool_decide (count sh + 1 > capacity sh * 2)
                      then capacity sh * 2 else capacity sh).
Proof.
  intros Hok Hr. split; [by apply reachable_shape|]. split.
  - intros c σ' Hrun. apply (shards_step_call σ c σ'); [|done].
    by apply reachable_inv.
  - intros slice data sh. apply intern_inserts. by apply reachable_inv.
Qed.

(** ** Lookups of interned bytes (C10, C6) *)

(** The bytes of a live record are interned again as that record, with
    one more reference and nothing else changed. *)
Lemma intern_live σ slice s r :
  inv σ -> grpc_is_static_metadata_string slice = false ->
  slice_data σ slice = Some (bytes r) -> heap σ !! s = Some r ->
  run (grpc_slice_intern slice) σ =
    Ok (slice_interned s 0 (rlength r))
       (emit (EvUnlock (SHARD_IDX (hash r)))
          (emit (EvLock (SHARD_IDX (hash r))) (bump s σ))).
Proof.
  intros [Hst Hwf Hcan Hsm Hq Hlive Hrange] Hns Hd Hs.
  destruct (wf_record σ Hwf s r Hs) as [Hlen Hhash].
  destruct (wf_linked σ Hwf s r Hs) as (chain & Hhome & Hin).
  pose proof (intern_again σ slice (bytes r) chain s r Hst Hwf Hq Hns Hd) as Hagain.
  cbv zeta in Hagain. rewrite <- Hhash in Hagain. apply Hagain; try done.
  - by apply (Hsm s).
  - apply (first_live_unique _ _ _ _ s r); try done.
    + pose proof (Hlive s r Hs). lia.
    + intros s' r' Hin' Hne Hs' _ Hb. exfalso. apply Hne.
      apply (Hcan s' r' s r); try done.
      * pose proof (Hlive s' r' Hs'). lia.
      * pose proof (Hlive s r Hs). lia.
Qed.

(** What [grpc_slice_intern] returns when it does not return a static
    slice: the whole of a record of the store. *)
Lemma intern_result σ slice res σ' :
  inv σ -> run (grpc_slice_intern slice) σ = Ok res σ' ->
  grpc_is_static_metadata_string res = false ->
  exists s r, res = slice_interned s 0 (rlength r) /\ heap σ' !! s = Some r.
Proof.
  intros Hinv Hrun Hres. pose proof Hinv as [Hst Hwf Hcan Hsm Hq Hlive Hrange].
  destruct (grpc_is_static_metadata_string slice) eqn:Hns.
  { rewrite run_intern_static_slice in Hrun by done. injection Hrun as <- _.
    congruence. }
  destruct (intern_valid σ slice res σ' Hns Hrun) as [data Hd].
  pose proof (intern_cases σ slice data Hst Hwf Hq Hns Hd) as Hc.
  rewrite Hrun in Hc.
  inversion Hc as [k Hk | chain s r h Hmiss Hhome Hfl Hs
                  | chain sh sh' σ1 h i s r grows Hmiss Hhome Hfl Hsh Hwf' Hst' Hheap
                      Hshards Hmu Hcnt Hcap Hperm Htr
                  | ]; subst.
  - done.
  - destruct (found_state σ (SHARD_IDX h) s r Hs) as (_ & _ & _ & Hheap1 & _).
    exists s, (set_refcnt (gpr_atm (refcnt r + 1)) r). split; [done|].
    rewrite Hheap1. apply lookup_insert_eq.
  - exists s, r. split; [done|]. rewrite Hheap. apply lookup_insert_eq.
Qed.

(** C10. Idempotence: a slice [h] that [grpc_slice_intern] has returned,
    and that is not a static slice, is the whole of a record [s] of the
    store; its hash is the cached [s->hash] (the fast path of
    [interned_slice_hash]), which is the seeded hash of the record's bytes
    computed when the record was made; and interning [h] again returns [h]
    itself, in a state that differs from the one before by one more
    reference to [s] and by the lock and unlock of the shard: no record is
    allocated. *)
Theorem reintern_idempotent σ slice h σ1 :
  inv σ -> no_overflow σ ->
  run (grpc_slice_intern slice) σ = Ok h σ1 ->
  grpc_is_static_metadata_string h = false ->
  no_overflow σ1 ->
  exists s r,
    h = slice_interned s 0 (rlength r) /\ heap σ1 !! s = Some r /\
    grpc_slice_hash σ1 h = Some (hash r) /\
    hash r = grpc_slice_default_hash_impl σ1 (bytes r) /\
    run (grpc_slice_intern h) σ1 =
      Ok h (emit (EvUnlock (SHARD_IDX (hash r)))
              (emit (EvLock (SHARD_IDX (hash r)))
                 (set_heap (<[s := set_refcnt (refcnt r + 1) r]> (heap σ1)) σ1))).
Proof.
  intros Hinv Hno Hrun Hns Hno1.
  pose proof (inv_intern σ slice h σ1 Hinv Hno Hrun) as Hinv1.
  destruct (intern_result σ slice h σ1 Hinv Hrun Hns) as (s & r & -> & Hs).
  destruct (wf_record σ1 (inv_wf σ1 Hinv1) s r Hs) as [Hlen Hhash].
  exists s, r. split; [done|]. split; [done|]. split; [|split; [done|]].
  - cbn [grpc_slice_hash]. unfold interned_slice_hash. rewrite Hs.
    by rewrite decide_True.
  - rewrite (intern_live σ1 _ s r); try done.
    + rewrite (bump_eq σ1 s r Hs). rewrite gpr_atm_small; [done|].
      pose proof (inv_live σ1 Hinv1 s r Hs). pose proof (Hno1 s r Hs). lia.
    + by apply slice_data_whole.
Qed.

Lemma inv_same_heap σ σ' :
  inv σ -> wf σ' -> same_static σ σ' -> heap σ' = heap σ -> quiet σ' -> inv σ'.
Proof.
  intros [Hst Hwf Hcan Hsm Hq Hlive Hrange] Hwf' Hsame Hheap Hq'.
  constructor; try done.
  - by apply (static_ok_same σ).
  - unfold canonical. by rewrite Hheap.
  - apply (static_miss_same σ); try done. rewrite Hheap. eauto.
  - unfold all_live. by rewrite Hheap.
  - unfold refs_in_range. by rewrite Hheap.
Qed.


(** ** The last release (C4) *)

(** The removal of a record that is not in the chain its hash names
    faults: lines 96-100 run off the end of the chain. *)
Lemma run_unref_missing σ s r sh chain :
  heap σ !! s = Some r -> refcnt r = 1 ->
  shard_at (SHARD_IDX (hash r)) σ = Some sh -> mu sh = MuUnlocked ->
  capacity sh <> 0 ->
  strs sh !! Z.to_nat (TABLE_IDX (hash r) (capacity sh)) = Some chain ->
  s ∉ chain ->
  exists σ', run (interned_slice_unref s) σ = Crash InvalidAccess σ'.
Proof.
  intros Hs Hr Hsh Hmu Hcap Hchain Hnot. set (i := SHARD_IDX (hash r)) in *.
  unfold interned_slice_unref. cbn [run]. unfold gpr_atm_fetch_add.
  rewrite Hs, Hr. rewrite decide_True by done.
  change (gpr_atm (1 + -1)) with 0.
  set (r0 := set_refcnt 0 r).
  set (σ1 := set_heap (<[s := r0]> (heap σ)) σ).
  assert (heap σ1 !! s = Some r0) as Hs1 by apply lookup_insert_eq.
  unfold interned_slice_destroy. cbn [run]. unfold read at 1. rewrite Hs1.
  cbn [fmap option_fmap option_map hash r0 set_refcnt]. fold i.
  unfold gpr_mu_lock. replace (shard_at i σ1) with (shard_at i σ) by done.
  rewrite Hsh, Hmu.
  set (σ2 := emit (EvLock i) (set_shard i (set_mu MuLocked sh) σ1)).
  assert (shard_at i σ2 = Some (set_mu MuLocked sh)) as Hsh2.
  { subst σ2. rewrite shard_at_emit. by eapply shard_at_set_shard_eq. }
  assert (heap σ2 !! s = Some r0) as Hs2 by done.
  unfold destroy_locked. cbn [run]. unfold gpr_atm_no_barrier_load, read.
  rewrite Hs2. cbn [fmap option_fmap option_map refcnt r0 set_refcnt].
  rewrite bool_decide_eq_true_2 by done. cbn [GPR_ASSERT].
  rewrite (destroy_unlink_missing σ2 i s r0 (set_mu MuLocked sh) chain); by eauto.
Qed.

(** C4, as amended. In the states between the calls of a run: every
    record linked in a chain of a shard is in the store with a reference
    count above 0; and the release of the last reference of a record
    ([refcnt] 1) finds the record in the chain of index
    [(hash >> LOG2_SHARD_COUNT) % capacity] of shard [SHARD_IDX(hash)],
    unlinks it there between the lock and the unlock of that shard, lowers
    the shard's count by one and frees the record. In any state, the
    release of the last reference of a record that is not in that chain
    ends in a fault, not in a return. *)
Theorem last_release σ :
  table_size_ok -> reachable σ ->
  (forall sh chain s, sh ∈ g_shards σ -> chain ∈ strs sh -> s ∈ chain ->
     exists r, heap σ !! s = Some r /\ 0 < refcnt r) /\
  (forall s r, heap σ !! s = Some r -> refcnt r = 1 ->
     exists sh chain chain' σ',
       let i := SHARD_IDX (hash r) in
       let idx := Z.to_nat (TABLE_IDX (hash r) (capacity sh)) in
       shard_at i σ = Some sh /\ strs sh !! idx = Some chain /\ s ∈ chain /\
       unlink s chain = Some chain' /\ (s ∉ chain') /\
       run (interned_slice_unref s) σ = Ok tt σ' /\
       heap σ' = delete s (heap σ) /\
       g_shards σ' = <[Z.to_nat i :=
           mk_shard MuUnlocked (<[idx := chain']> (strs sh)) (count sh - 1)
             (capacity sh)]> (g_shards σ) /\
       trace σ' = EvUnlock i :: EvFree s :: EvLock i :: trace σ) /\
  (forall σc s r sh chain,
     heap σc !! s = Some r -> refcnt r = 1 ->
     shard_at (SHARD_IDX (hash r)) σc = Some sh -> mu sh = MuUnlocked ->
     capacity sh <> 0 ->
     strs sh !! Z.to_nat (TABLE_IDX (hash r) (capacity sh)) = Some chain ->
     s ∉ chain ->
     exists σ', run (interned_slice_unref s) σc = Crash InvalidAccess σ').
Proof.
  intros Hok Hr. pose proof (reachable_inv σ Hok Hr) as Hinv.
  pose proof Hinv as [Hst Hwf Hcan Hsm Hq Hlive Hrange].
  split; [|split].
  - intros sh chain s Hsh Hchain Hs.
    apply list_elem_of_lookup in Hsh as [i Hi].
    apply list_elem_of_lookup in Hchain as [idx Hidx].
    destruct (so_home _ _ _ (wf_shard σ Hwf i sh Hi) idx chain s Hidx Hs)
      as (r & Hr' & _).
    exists r. split; [done|]. by apply (Hlive s).
  - intros s r Hs H1. pose proof (SHARD_IDX_range (hash r)) as Hi.
    destruct (wf_shard_exists σ _ Hwf Hi) as [sh Hsh].
    destruct (run_unref_last σ s r sh Hwf Hs H1 Hsh (quiet_shard_at σ _ sh Hq Hsh))
      as (chain & chain' & σ' & Hchain & Hun & Hrun & _ & _ & Hheap & Hshards & Htr).
    exists sh, chain, chain', σ'. cbv zeta.
    pose proof (unlink_perm _ _ _ Hun) as Hperm.
    assert (NoDup chain) as Hnd.
    { pose proof (so_nodup _ _ _ (wf_shard_at σ (SHARD_IDX (hash r)) sh Hwf
                                    ltac:(lia) Hsh)) as Hnd.
      rewrite (concat_lookup _ _ _ Hchain) in Hnd.
      apply NoDup_app in Hnd as (_ & _ & Hnd). by apply NoDup_app in Hnd as (Hnd & _). }
    rewrite Hperm in Hnd. apply NoDup_cons in Hnd as [Hnot _].
    repeat split; try done. rewrite Hperm. left.
  - intros σc s r sh chain. apply run_unref_missing.
Qed.

(** ** The static variant (C8) *)

(** What [grpc_slice_unref] leaves when it returns: nothing to do for a
    slice without reference count, the [unref] of the owner for a foreign
    one, and for an interned slice either the counter lowered by one or,
    at the last reference, the record unlinked from its chain and freed
    under the mutex of its shard. *)
Inductive released (σ : state) : grpc_slice -> state -> Prop :=
| released_inlined data : released σ (slice_inlined data) σ
| released_static k : released σ (slice_static k) σ
| released_static_part k off len : released σ (slice_static_part k off len) σ
| released_other c data :
    released σ (slice_refcounted c data) (emit (EvUnrefOther c) σ)
| released_keep s off len r :
    heap σ !! s = Some r -> 1 < refcnt r ->
    released σ (slice_interned s off len)
      (set_heap (<[s := set_refcnt (refcnt r - 1) r]> (heap σ)) σ)
| released_last s off len r sh chain chain' σ' :
    let i := SHARD_IDX (hash r) in
    let idx := Z.to_nat (TABLE_IDX (hash r) (capacity sh)) in
    heap σ !! s = Some r -> refcnt r = 1 ->
    shard_at i σ = Some sh -> strs sh !! idx = Some chain ->
    unlink s chain = Some chain' ->
    heap σ' = delete s (heap σ) ->
    g_shards σ' = <[Z.to_nat i :=
        mk_shard MuUnlocked (<[idx := chain']> (strs sh)) (count sh - 1) (capacity sh)]>
      (g_shards σ) ->
    trace σ' = EvUnlock i :: EvFree s :: EvLock i :: trace σ ->
    released σ (slice_interned s off len) σ'.

(** From [σ] to [σ'] no record and no bucket array was allocated, and no
    record was added to a shard. *)
Definition no_allocation (σ σ' : state) : Prop :=
  dom (heap σ') ⊆ dom (heap σ) /\
  (exists new, trace σ' = new ++ trace σ /\
     forall e, e ∈ new -> forall p c, e <> EvMalloc p /\ e <> EvMallocStrs c) /\
  (forall (i : nat) sh', g_shards σ' !! i = Some sh' ->
     exists sh, g_shards σ !! i = Some sh /\ capacity sh' = capacity sh /\
       forall s, s ∈ concat (strs sh') -> s ∈ concat (strs sh)).

Lemma no_allocation_same σ σ' new :
  dom (heap σ') ⊆ dom (heap σ) -> g_shards σ' = g_shards σ ->
  trace σ' = new ++ trace σ ->
  (forall e, e ∈ new -> forall p c, e <> EvMalloc p /\ e <> EvMallocStrs c) ->
  no_allocation σ σ'.
Proof.
  intros Hh Hs Ht Hnew. split; [done|]. split; [by exists new|].
  intros i sh' Hi. exists sh'. by rewrite <- Hs.
Qed.

Lemma released_no_allocation σ slice σ' :
  released σ slice σ' -> no_allocation σ σ'.
Proof.
  intros [data|k|k off len|c data|s off len r Hs Hr
          |s off len r sh chain chain' σ1 i idx Hs Hr Hsh Hchain Hun Hh Hshards Htr].
  - apply (no_allocation_same σ σ []); try done. intros e He. by apply elem_of_nil in He.
  - apply (no_allocation_same σ σ []); try done. intros e He. by apply elem_of_nil in He.
  - apply (no_allocation_same σ σ []); try done. intros e He. by apply elem_of_nil in He.
  - apply (no_allocation_same σ _ [EvUnrefOther c]); try done.
    by intros e ->%list_elem_of_singleton.
  - apply (no_allocation_same σ _ []); try done; [|intros e He; by apply elem_of_nil in He].
    rewrite heap_set_heap, dom_insert_lookup_L by done. done.
  - split; [|split].
    + rewrite Hh, dom_delete. intros x Hx. by apply elem_of_difference in Hx as [Hx _].
    + exists [EvUnlock i; EvFree s; EvLock i]. split; [done|].
      intros e He p c. repeat (apply elem_of_cons in He as [->|He]; [done|]).
      by apply elem_of_nil in He.
    + intros j sh' Hj. rewrite Hshards in Hj. unfold shard_at in Hsh.
      destruct (decide (Z.to_nat i = j)) as [<-|Hne].
      * rewrite list_lookup_insert_eq in Hj by (by eapply lookup_lt_Some).
        injection Hj as <-. exists sh. split; [done|]. split; [done|].
        cbn [strs]. intros s' Hs'.
        rewrite (concat_insert_unlink _ _ _ _ _ Hchain Hun). by right.
      * rewrite list_lookup_insert_ne in Hj by done. by exists sh'.
Qed.

(** [grpc_slice_unref] returns on a valid slice, in the states between
    the calls. *)
Lemma run_slice_unref σ slice data :
  inv σ -> slice_data σ slice = Some data ->
  exists σ', run (grpc_slice_unref slice) σ = Ok tt σ' /\ released σ slice σ'.
Proof.
  intros Hinv Hd. pose proof Hinv as [Hst Hwf Hcan Hsm Hq Hlive Hrange].
  destruct slice as [d|k|k o l|s off len|c d]; cbn [grpc_slice_unref run].
  - exists σ. split; [done|constructor].
  - exists σ. split; [done|constructor].
  - exists σ. split; [done|constructor].
  - cbn [slice_data] in Hd. destruct (heap σ !! s) as [r|] eqn:Hs; [|done].
    destruct (decide (refcnt r = 1)) as [H1|H1].
    + pose proof (SHARD_IDX_range (hash r)) as Hi.
      destruct (wf_shard_exists σ _ Hwf Hi) as [sh Hsh].
      destruct (run_unref_last σ s r sh Hwf Hs H1 Hsh (quiet_shard_at σ _ sh Hq Hsh))
        as (chain & chain' & σ' & Hchain & Hun & Hrun & _ & _ & Hheap & Hshards & Htr).
      exists σ'. split; [done|]. by eapply released_last.
    + rewrite (run_unref_keep σ s r) by done.
      pose proof (Hlive s r Hs). pose proof (Hrange s r Hs).
      rewrite gpr_atm_small by lia. eexists. split; [done|].
      apply released_keep; [done|lia].
  - eexists. split; [done|constructor].
Qed.

(** C8, as amended. On a valid slice, in a state between the calls of a
    run, [grpc_slice_static_intern] returns; it allocates no record and no
    bucket array and adds no record to a shard. A slice that carries the
    static counter is left as it is, and the state with it. So is a slice
    whose bytes are those of no static string. A slice without the static
    counter whose bytes are those of a static string, the hash plus the
    longest probe staying below 2^32, becomes the static slice of those
    bytes, after [grpc_slice_unref] has released the reference that the
    slice held: at the last reference of an interned slice this unlinks
    and frees the record under the mutex of its shard. *)
Theorem static_intern_spec σ slice data :
  inv σ -> slice_data σ slice = Some data ->
  exists res σ',
    run (grpc_slice_static_intern slice) σ = Ok res σ' /\
    no_allocation σ σ' /\
    (grpc_is_static_metadata_string slice = true -> res = slice /\ σ' = σ) /\
    ((forall k, static_slice k <> Some data) -> res = slice /\ σ' = σ) /\
    (grpc_is_static_metadata_string slice = false ->
     forall i : nat, grpc_static_slice_table !! i = Some data ->
       grpc_slice_default_hash_impl σ data + max_static_metadata_hash_probe σ < 2 ^ 32 ->
       exists k, res = slice_static k /\ static_slice k = Some data /\
         run (grpc_slice_unref slice) σ = Ok tt σ' /\ released σ slice σ').
Proof.
  intros Hinv Hd. pose proof Hinv as [Hst Hwf Hcan Hsm Hq Hlive Hrange].
  assert (no_allocation σ σ) as Hrefl
    by apply (released_no_allocation σ _ σ (released_static σ 0)).
  unfold grpc_slice_static_intern.
  destruct (grpc_is_static_metadata_string slice) eqn:Hns.
  { exists slice, σ. cbn [run]. by repeat (split; [done|]). }
  destruct (static_query_eq σ slice data Hst Hwf Hns Hd) as (probe & Hp & Hq').
  cbn [run]. unfold read. rewrite Hq'. destruct probe as [k|].
  - destruct (static_lookup_sound σ _ data k Hp) as [Hk _].
    destruct (run_slice_unref σ slice data Hinv Hd) as (σ' & Hrun & Hrel).
    exists (slice_static k), σ'. rewrite run_bind, Hrun. cbn [run].
    split; [done|]. split; [by eapply released_no_allocation|].
    split; [done|]. split.
    + intros Hno. by destruct (Hno k).
    + intros _ i _ _. by exists k.
  - exists slice, σ. cbn [run]. split; [done|]. split; [done|].
    split; [done|]. split; [done|]. intros _ i Hi Hlt.
    destruct (static_lookup_complete σ i data Hst Hi Hlt) as (k & Hk & _).
    congruence.
Qed.

(** ** Shutdown (C9) *)

(** The [LEAKED] record of the record at [s]. *)
Definition dump_record (hp : gmap addr interned_slice_refcount) (s : addr)
  : log_record :=
  LogLeaked (from_option (fun r => take (Z.to_nat (rlength r)) (bytes r)) [] (hp !! s)).

(** What lines 302-313 log for one shard: nothing when its count is 0,
    else the warning and one [LEAKED] record per record of its chains, in
    the order of the buckets. *)
Definition leak_records (hp : gmap addr interned_slice_refcount)
    (sh : slice_shard) : list log_record :=
  if decide (count sh = 0) then []
  else LogWarningLeaked (count sh) :: (dump_record hp <$> concat (strs sh)).

(** The log records of a run, oldest first. *)
Definition logged (σ : state) : list log_record :=
  omap (fun e => match e with EvLog r => Some r | _ => None end) (reverse (trace σ)).

Lemma dump_chain_spec hp chain :
  (forall s, s ∈ chain -> is_Some (hp !! s)) ->
  dump_chain hp chain = Some (dump_record hp <$> chain).
Proof.
  induction chain as [|s chain IH]; intros Hin; [done|].
  cbn [dump_chain]. rewrite IH by (intros; apply Hin; by right).
  destruct (Hin s ltac:(left)) as [r Hr]. rewrite Hr. cbn [fmap list_fmap].
  unfold dump_record at 2. by rewrite Hr.
Qed.

Lemma dump_chains_spec hp chains :
  (forall s, s ∈ concat chains -> is_Some (hp !! s)) ->
  dump_chains hp chains = Some (dump_record hp <$> concat chains).
Proof.
  induction chains as [|c chains IH]; intros Hin; [done|].
  cbn [dump_chains concat] in *.
  rewrite dump_chain_spec by (intros; apply Hin, elem_of_app; by left).
  rewrite IH by (intros; apply Hin, elem_of_app; by right).
  by rewrite fmap_app.
Qed.

Lemma logged_emit_log r σ : logged (emit (EvLog r) σ) = logged σ ++ [r].
Proof.
  unfold logged. rewrite trace_emit, reverse_cons, omap_app. done.
Qed.

Lemma logged_emit_other e σ :
  (forall r, e <> EvLog r) -> logged (emit e σ) = logged σ.
Proof.
  intros He. unfold logged. rewrite trace_emit, reverse_cons, omap_app.
  destruct e as [| | | | | | |r]; cbn; try by rewrite app_nil_r. by destruct (He r).
Qed.

Lemma emit_logs_spec l σ :
  heap (emit_logs l σ) = heap σ /\ g_shards (emit_logs l σ) = g_shards σ /\
  logged (emit_logs l σ) = logged σ ++ l.
Proof.
  revert σ. induction l as [|r l IH]; intros σ; cbn [emit_logs foldl].
  - by rewrite app_nil_r.
  - destruct (IH (emit (EvLog r) σ)) as (Hh & Hs & Hl). unfold emit_logs in *.
    rewrite Hh, Hs, Hl, logged_emit_log, <- app_assoc. done.
Qed.

(** Lines 299-318 for one shard. *)
Lemma shutdown_shard_spec b (k : nat) σ sh :
  g_shards σ !! k = Some sh ->
  (count sh <> 0 -> forall s, s ∈ concat (strs sh) -> is_Some (heap σ !! s)) ->
  exists σ',
    heap σ' = heap σ /\
    g_shards σ' = <[k := set_mu MuDestroyed sh]> (g_shards σ) /\
    logged σ' = logged σ ++ leak_records (heap σ) sh /\
    shutdown_shard b (Z.of_nat k) σ =
      if b && bool_decide (count sh <> 0) then Crash LeakAbort σ' else Ok tt σ'.
Proof.
  intros Hsh Hin. unfold shutdown_shard, shard_at, leak_records.
  rewrite Nat2Z.id, Hsh.
  set (σ1 := set_shard (Z.of_nat k) (set_mu MuDestroyed sh) σ).
  assert (g_shards σ1 = <[k := set_mu MuDestroyed sh]> (g_shards σ)) as Hs1.
  { subst σ1. unfold set_shard. by rewrite g_shards_set_shards, Nat2Z.id. }
  destruct (decide (count sh = 0)) as [Hc|Hc].
  - exists (emit EvFreeStrs σ1). rewrite bool_decide_eq_false_2 by tauto.
    rewrite andb_false_r, app_nil_r. repeat split; try done.
    by rewrite logged_emit_other.
  - rewrite dump_chains_spec by auto.
    set (l := LogWarningLeaked (count sh) :: _).
    destruct (emit_logs_spec l σ1) as (Hh & Hs & Hl).
    rewrite bool_decide_eq_true_2 by done. destruct b; cbn [andb].
    + exists (emit_logs l σ1). by rewrite Hh, Hs, Hl.
    + exists (emit EvFreeStrs (emit_logs l σ1)).
      rewrite logged_emit_other by done. rewrite Hl.
      rewrite heap_emit, g_shards_emit, Hh, Hs. done.
Qed.

Lemma insert_middle_eq {A} (pre : list A) x y suf :
  <[List.length pre := y]> (pre ++ x :: suf) = pre ++ y :: suf.
Proof. rewrite insert_app_r_alt by lia. by rewrite Nat.sub_diag. Qed.

(** The loop of line 298 over the shards [suf] that follow [pre], when no
    shard makes it abort. *)
Lemma shutdown_shards_ok b suf : forall pre σ,
  g_shards σ = pre ++ suf ->
  (forall sh s, sh ∈ suf -> s ∈ concat (strs sh) -> is_Some (heap σ !! s)) ->
  b = false \/ Forall (fun sh => count sh = 0) suf ->
  exists σ',
    shutdown_shards b (List.length suf) (Z.of_nat (List.length pre)) σ = Ok tt σ' /\
    heap σ' = heap σ /\
    g_shards σ' = pre ++ (set_mu MuDestroyed <$> suf) /\
    logged σ' = logged σ ++ concat (leak_records (heap σ) <$> suf).
Proof.
  induction suf as [|sh suf IH]; intros pre σ Hsh Hin Hb.
  - exists σ. cbn. by rewrite !app_nil_r in *.
  - assert (g_shards σ !! List.length pre = Some sh) as Hk.
    { rewrite Hsh. by apply list_lookup_middle. }
    destruct (shutdown_shard_spec b _ σ sh Hk) as (σ1 & Hh1 & Hs1 & Hl1 & Hrun).
    { intros _ s. apply Hin. left. }
    assert (b && bool_decide (count sh <> 0) = false) as Hno.
    { destruct Hb as [->|Hz]; [done|]. apply Forall_cons in Hz as [Hz _].
      rewrite bool_decide_eq_false_2 by tauto. apply andb_false_r. }
    rewrite Hno in Hrun. cbn [shutdown_shards List.length]. rewrite Hrun.
    destruct (IH (pre ++ [set_mu MuDestroyed sh]) σ1) as (σ' & Hrun' & Hh & Hs & Hl).
    + rewrite Hs1, Hsh, <- app_assoc. cbn [app].
      by rewrite insert_middle_eq.
    + intros sh' s Hsh' Hs. rewrite Hh1. eapply Hin; [by right|done].
    + destruct Hb as [->|Hz]; [by left|right]. by apply Forall_cons in Hz as [_ Hz].
    + exists σ'. rewrite length_app in Hrun'. cbn [List.length] in Hrun'.
      replace (Z.of_nat (List.length pre) + 1)
        with (Z.of_nat (List.length pre + 1)) by lia.
      rewrite Hrun', Hh, Hh1, Hs, Hl, Hl1, Hh1. rewrite <- !app_assoc.
      done.
Qed.

(** The same loop with the flag set, up to the first shard [sh] that
    holds records: [abort()] of line 315 ends the loop there. *)
Lemma shutdown_shards_abort zs : forall pre sh rest σ n,
  g_shards σ = pre ++ zs ++ sh :: rest ->
  Forall (fun sh => count sh = 0) zs -> count sh <> 0 ->
  (forall s, s ∈ concat (strs sh) -> is_Some (heap σ !! s)) ->
  exists σ',
    shutdown_shards true (List.length zs + S n) (Z.of_nat (List.length pre)) σ
      = Crash LeakAbort σ' /\
    heap σ' = heap σ /\
    g_shards σ' = pre ++ (set_mu MuDestroyed <$> zs) ++ set_mu MuDestroyed sh :: rest /\
    logged σ' = logged σ ++ leak_records (heap σ) sh.
Proof.
  induction zs as [|z zs IH]; intros pre sh rest σ n Hsh Hz Hc Hin.
  - cbn [app List.length Nat.add fmap list_fmap] in *.
    assert (g_shards σ !! List.length pre = Some sh) as Hk.
    { rewrite Hsh. by apply list_lookup_middle. }
    destruct (shutdown_shard_spec true _ σ sh Hk (fun _ => Hin))
      as (σ1 & Hh1 & Hs1 & Hl1 & Hrun).
    rewrite bool_decide_eq_true_2 in Hrun by done. cbn [andb] in Hrun.
    exists σ1. cbn [shutdown_shards]. rewrite Hrun, Hs1, Hsh.
    by rewrite insert_middle_eq.
  - apply Forall_cons in Hz as [Hz0 Hz].
    assert (g_shards σ !! List.length pre = Some z) as Hk.
    { rewrite Hsh. by apply list_lookup_middle. }
    destruct (shutdown_shard_spec true _ σ z Hk) as (σ1 & Hh1 & Hs1 & Hl1 & Hrun).
    { intros Hne. by destruct Hne. }
    rewrite bool_decide_eq_false_2 in Hrun by tauto. cbn [andb] in Hrun.
    cbn [List.length Nat.add shutdown_shards]. rewrite Hrun.
    destruct (IH (pre ++ [set_mu MuDestroyed z]) sh rest σ1 n)
      as (σ' & Hrun' & Hh & Hs & Hl); try done.
    + rewrite Hs1, Hsh, <- app_assoc. cbn [app].
      by rewrite insert_middle_eq.
    + intros s Hs. rewrite Hh1. by apply Hin.
    + exists σ'. rewrite length_app in Hrun'. cbn [List.length] in Hrun'.
      replace (Z.of_nat (List.length pre) + 1)
        with (Z.of_nat (List.length pre + 1)) by lia.
      rewrite Hrun', Hh, Hh1, Hs, Hl, Hl1, Hh1. unfold leak_records at 1.
      rewrite decide_True by done. rewrite app_nil_r, <- !app_assoc.
      done.
Qed.

(** C9, as amended. In a well-formed state, [grpc_slice_intern_shutdown]
    frees no record. When the abort-on-leaks flag is not set, or no
    shard holds a record, it returns, with the mutex of every shard
    destroyed, and has logged, in the order of the shards, nothing for a
    shard whose count is 0 and for any other shard the warning followed
    by one [LEAKED] record per record of the shard (as many as its
    count). When the flag is set and some shard holds records, the call
    aborts at the first such shard: the mutexes of the shards up to that
    one are destroyed, the warning and the records of that shard alone
    are logged, the later shards are untouched. *)
Theorem shutdown_leaks σ :
  wf σ ->
  (forall sh, sh ∈ g_shards σ ->
     if decide (count sh = 0) then leak_records (heap σ) sh = []
     else exists dumps,
       leak_records (heap σ) sh = LogWarningLeaked (count sh) :: dumps /\
       dumps = dump_record (heap σ) <$> concat (strs sh) /\
       Z.of_nat (List.length dumps) = count sh) /\
  (forall b, b = false \/ Forall (fun sh => count sh = 0) (g_shards σ) ->
     exists σ',
       grpc_slice_intern_shutdown b σ = Ok tt σ' /\ heap σ' = heap σ /\
       g_shards σ' = (set_mu MuDestroyed <$> g_shards σ) /\
       logged σ' = logged σ ++ concat (leak_records (heap σ) <$> g_shards σ)) /\
  (forall zs sh rest,
     g_shards σ = zs ++ sh :: rest ->
     Forall (fun sh => count sh = 0) zs -> count sh <> 0 ->
     exists σ',
       grpc_slice_intern_shutdown true σ = Crash LeakAbort σ' /\
       heap σ' = heap σ /\
       g_shards σ' = (set_mu MuDestroyed <$> zs) ++ set_mu MuDestroyed sh :: rest /\
       logged σ' = logged σ ++ leak_records (heap σ) sh).
Proof.
  intros Hwf.
  assert (forall sh s, sh ∈ g_shards σ -> s ∈ concat (strs sh) ->
            is_Some (heap σ !! s)) as Hin.
  { intros sh s [i Hi]%list_elem_of_lookup (idx & chain & Hidx & Hs)%elem_of_concat.
    destruct (so_home _ _ _ (wf_shard σ Hwf i sh Hi) idx chain s Hidx Hs)
      as (r & Hr & _). by exists r. }
  split; [|split].
  - intros sh [i Hi]%list_elem_of_lookup. unfold leak_records.
    destruct (decide (count sh = 0)) as [|Hc]; [done|].
    eexists. split; [done|]. split; [done|].
    rewrite length_fmap. symmetry. apply (so_count _ _ _ (wf_shard σ Hwf i sh Hi)).
  - intros b Hb. unfold grpc_slice_intern_shutdown.
    rewrite <- (wf_shards σ Hwf).
    apply (shutdown_shards_ok b (g_shards σ) [] σ); done.
  - intros zs sh rest Hsh Hz Hc. unfold grpc_slice_intern_shutdown.
    rewrite <- (wf_shards σ Hwf), Hsh, length_app. cbn [List.length].
    apply (shutdown_shards_abort zs [] sh rest σ); try done.
    intros s. apply Hin. rewrite Hsh. apply elem_of_app. right. left.
Qed.

(** ** Program points *)

(** One atomic action of a call: the rest of the call and the state the
    action leaves, for an action that returns. Another thread may run
    between two such steps. *)
Definition step {A : Type} (p : prog A) (σ : state) : option (prog A * state) :=
  match p with
  | Ret _ => None
  | Atomic act k =>
      match act σ with
      | Ok x σ' => Some (k x, σ')
      | _ => None
      end
  end.

(** A call that returns is its first step followed by the rest. *)
Lemma run_step {A} (p p' : prog A) σ σ' :
  step p σ = Some (p', σ') -> run p σ = run p' σ'.
Proof.
  destruct p as [a|X act k]; [done|]. cbn [step run].
  destruct (act σ) as [x σ1| |]; try done. by intros [= <- <-].
Qed.

(** A check of [no_overflow] that runs. *)
Lemma no_overflow_of_list σ :
  forallb (fun sr => refcnt sr.2 <? 2 ^ 63 - 1) (map_to_list (heap σ)) = true ->
  no_overflow σ.
Proof.
  intros H s r Hs. apply elem_of_map_to_list in Hs.
  rewrite forallb_forall in H. apply Z.ltb_lt.
  apply (H (s, r)). by apply list_elem_of_In.
Qed.

(** ** Initialisation and hashing *)


(** X2. After [grpc_slice_intern_init]: the longest probe is below the
    size of the table; [static_metadata_hash_values[i]] is the seeded
    hash of the static string [i]; and for each static string [i] there
    is an offset [j] up to [max_static_metadata_hash_probe] such that the
    slot [(hash + j) % size], the sum taken in [size_t] as line 283 does,
    holds the hash and the index [i]. *)
Theorem init_static_table tv_nsec σ σ' :
  table_size_ok -> arrays_ok σ ->
  grpc_slice_intern_init tv_nsec σ = Ok tt σ' ->
  0 <= max_static_metadata_hash_probe σ' < STATIC_HASH_SIZE /\
  List.length (static_metadata_hash σ') = Z.to_nat STATIC_HASH_SIZE /\
  forall (i : nat) str, grpc_static_slice_table !! i = Some str ->
    let h := grpc_slice_default_hash_impl σ' str in
    static_metadata_hash_values σ' !! i = Some h /\
    exists j, 0 <= j <= max_static_metadata_hash_probe σ' /\
      static_metadata_hash σ' !! Z.to_nat (size_t (h + j) mod STATIC_HASH_SIZE)
        = Some (mk_ent h (Z.of_nat i)).
Proof.
  intros Hok Harr Hrun.
  destruct (init_spec tv_nsec σ Hok Harr) as (σ1 & Hrun1 & Hst & _).
  assert (σ1 = σ') as -> by congruence. pose proof Hst as [_ Hinv].
  split; [apply (si_max _ _ _ _ _ Hinv)|]. split; [apply (si_len _ _ _ _ _ Hinv)|].
  intros i str Hi h. split.
  - apply (si_vals _ _ _ _ _ Hinv i str); [by apply lookup_lt_Some in Hi|done].
  - destruct (static_probe_bound σ' i str Hst Hi) as (j & Hj & Hent).
    exists j. split; [done|]. fold h in Hent.
    pose proof (default_hash_range σ' str) as Hh. fold h in Hh.
    pose proof (si_max _ _ _ _ _ Hinv) as Hmax. destruct Hok as [_ Hsz].
    rewrite size_t_small by lia. exact Hent.
Qed.

(** X3. In every state of a run the hash of a valid slice is the seeded
    hash of its bytes, whatever kind of slice holds them: computed for an
    inlined or foreign slice, for a part of an interned record and for a
    slice with the static counter that is not the whole of an entry
    ([grpc_static_metadata_index] is -1), read from
    [static_metadata_hash_values] for a static entry and from the record
    ([s->hash]) for a whole interned record. Slices with the same bytes
    have the same hash. *)
Theorem slice_hash_by_bytes σ slice data :
  table_size_ok -> reachable σ -> slice_data σ slice = Some data ->
  grpc_slice_hash σ slice = Some (grpc_slice_default_hash_impl σ data).
Proof.
  intros Hok Hr Hd. pose proof (reachable_inv σ Hok Hr) as [Hst Hwf _ _ _ _ _].
  assert (forall k str, static_slice k = Some str ->
            k <> -1 /\
            static_metadata_hash_values σ !! Z.to_nat k
              = Some (grpc_slice_default_hash_impl σ str)) as Hval.
  { intros k str Hk. unfold static_slice in Hk. case_decide; [|done].
    split; [lia|]. destruct Hst as [_ Hinv].
    apply (si_vals _ _ _ _ _ Hinv _ str); [by apply lookup_lt_Some in Hk|done]. }
  destruct slice as [d|k|k o l|s off len|c d].
  - by apply slice_hash_data.
  - cbn [slice_data grpc_slice_hash] in *. unfold grpc_static_slice_hash.
    cbn [grpc_static_metadata_index]. destruct (Hval k data Hd) as [Hne Hv].
    rewrite decide_False by done. by rewrite Hd.
  - cbn [slice_data grpc_slice_hash] in *. unfold grpc_static_slice_hash.
    cbn [grpc_static_metadata_index slice_data].
    destruct (static_slice k) as [str|] eqn:Hk; [|done].
    destruct (Hval k str Hk) as [Hne Hv].
    destruct (decide (o = 0 /\ l = Z.of_nat (List.length str))) as [[-> ->]|Hpart].
    + rewrite decide_False by done. rewrite Hk, Hv.
      unfold sub_bytes in Hd. rewrite decide_True in Hd by lia.
      rewrite drop_0, take_ge in Hd by lia. congruence.
    + rewrite decide_True by done. by rewrite Hd.
  - by apply slice_hash_data.
  - by apply slice_hash_data.
Qed.

(** ** What [grpc_slice_intern] returns and what it leaves *)

(** The cases of a call that returns, for any slice. *)
Lemma intern_ok_cases σ slice data res σ' :
  inv σ -> slice_data σ slice = Some data ->
  run (grpc_slice_intern slice) σ = Ok res σ' ->
  (grpc_is_static_metadata_string slice = true /\ res = slice /\ σ' = σ) \/
  (grpc_is_static_metadata_string slice = false /\
   intern_outcome σ data (Ok res σ')).
Proof.
  intros [Hst Hwf _ _ Hq _ _] Hd Hrun.
  destruct (grpc_is_static_metadata_string slice) eqn:Hns.
  - left. rewrite run_intern_static_slice in Hrun by done. by injection Hrun as <- <-.
  - right. split; [done|]. rewrite <- Hrun. by apply intern_cases.
Qed.

(** X4. A slice with the static counter that [grpc_slice_intern] returns
    holds the bytes of the slice it was given, and the call has left the
    state as it was (no mutex taken, nothing allocated); and for bytes
    that are those of no static string, the only slice with the static
    counter that the call returns is the slice it was given (a part of a
    static entry, which lines 197-199 return as it is). *)
Theorem intern_static_result σ slice data :
  inv σ -> slice_data σ slice = Some data ->
  (forall res σ', run (grpc_slice_intern slice) σ = Ok res σ' ->
     grpc_is_static_metadata_string res = true ->
     slice_data σ res = Some data /\ σ' = σ) /\
  ((forall k, static_slice k <> Some data) ->
   forall res σ', run (grpc_slice_intern slice) σ = Ok res σ' ->
     grpc_is_static_metadata_string res = true -> res = slice).
Proof.
  intros Hinv Hd. split.
  - intros res σ' Hrun Hres.
    destruct (intern_ok_cases σ slice data _ σ' Hinv Hd Hrun)
      as [(Hs & -> & ->)|[Hns Hc]]; [done|].
    inversion Hc as [k' Hk | | | ]; subst; try done.
    split; [|done]. by destruct (static_lookup_sound _ _ data k' Hk).
  - intros Hno res σ' Hrun Hres.
    destruct (intern_ok_cases σ slice data res σ' Hinv Hd Hrun)
      as [(Hs & -> & ->)|[Hns Hc]]; [done|].
    inversion Hc as [k' Hk | | | ]; subst; try done.
    destruct (static_lookup_sound _ _ data k' Hk) as [Hk' _]. by destruct (Hno k').
Qed.

(** X5. Static precedence where the probe does not wrap: for a slice that
    holds the bytes of a static string whose hash plus the longest probe
    is below 2^32, [grpc_slice_intern] returns a slice with the static
    counter that holds those bytes and leaves the state as it was: the
    slice it was given if that has the static counter, and else the entry
    of the static table. *)
Theorem intern_static_precedence σ slice (i : nat) data :
  inv σ -> slice_data σ slice = Some data ->
  grpc_static_slice_table !! i = Some data ->
  grpc_slice_default_hash_impl σ data + max_static_metadata_hash_probe σ < 2 ^ 32 ->
  exists res, run (grpc_slice_intern slice) σ = Ok res σ /\
    grpc_is_static_metadata_string res = true /\
    slice_data σ res = Some data /\
    (grpc_is_static_metadata_string slice = true -> res = slice) /\
    (grpc_is_static_metadata_string slice = false ->
       exists k, res = slice_static k /\ static_slice k = Some data).
Proof.
  intros Hinv Hd Hi Hlt. pose proof Hinv as [Hst Hwf _ _ _ _ _].
  destruct (grpc_is_static_metadata_string slice) eqn:Hns.
  - exists slice. by rewrite run_intern_static_slice.
  - destruct (static_lookup_complete σ i data Hst Hi Hlt) as (k & Hk & Hks).
    exists (slice_static k).
    split; [by apply (run_intern_static_hit σ slice data)|].
    split; [done|]. split; [done|]. split; [done|]. intros _. by exists k.
Qed.

(** X6. A slice that [grpc_slice_intern] returns holds the bytes of the
    slice it was given. The call removes no record and writes to no
    record's bytes, length or hash. It raises by exactly one the counter
    of the record that it returns, if that record was in the store
    before the call, and leaves the counter of every other record as it
    was. *)
Theorem intern_keeps_bytes σ slice data res σ' :
  inv σ -> no_overflow σ -> slice_data σ slice = Some data ->
  run (grpc_slice_intern slice) σ = Ok res σ' ->
  slice_data σ' res = Some data /\
  forall s r, heap σ !! s = Some r ->
    exists r', heap σ' !! s = Some r' /\
      bytes r' = bytes r /\ rlength r' = rlength r /\ hash r' = hash r /\
      (res = slice_interned s 0 (rlength r) -> refcnt r' = refcnt r + 1) /\
      (res <> slice_interned s 0 (rlength r) -> refcnt r' = refcnt r).
Proof.
  intros Hinv Hno Hd Hrun. pose proof Hinv as [Hst Hwf _ _ _ _ Hrange].
  destruct (intern_ok_cases σ slice data res σ' Hinv Hd Hrun)
    as [(Hs & -> & ->)|[Hns Hc]].
  { split; [done|]. intros s r Hr. exists r. repeat split; try done.
    intros ->. done. }
  inversion Hc as [k Hk | chain s r h Hmiss Hhome Hfl Hs
                  | chain sh sh' σ1 h i s r grows Hmiss Hhome Hfl Hsh Hwf' Hst' Hheap
                      Hshards Hmu Hcnt Hcap Hperm Htr
                  | ]; subst.
  - split; [by destruct (static_lookup_sound _ _ data k Hk)|].
    intros s r Hr. exists r. repeat split; done.
  - destruct (first_live_Some _ _ _ _ _ Hfl) as (_ & r0 & Hs0 & _ & Hbytes & _).
    assert (r0 = r) as -> by congruence.
    destruct (wf_record _ Hwf s r Hs) as [Hlen _].
    destruct (found_state σ (SHARD_IDX h) s r Hs) as (_ & _ & _ & Hheap & _).
    cbv zeta in Hheap. pose proof (Hno s r Hs). pose proof (Hrange s r Hs).
    rewrite gpr_atm_small in Hheap by lia.
    set (r' := set_refcnt (refcnt r + 1) r) in *. split.
    + rewrite Hbytes. apply (slice_data_whole _ s r'); [|done].
      rewrite Hheap. apply lookup_insert_eq.
    + intros s0 r0 Hr0. rewrite Hheap. destruct (decide (s0 = s)) as [->|Hne].
      * assert (r0 = r) as -> by congruence. exists r'.
        rewrite lookup_insert_eq. repeat split; done.
      * exists r0. rewrite lookup_insert_ne by done. repeat split; try done.
        intros [= E _]. by destruct Hne.
  - assert (heap σ !! s = None) as Hfresh.
    { apply not_elem_of_dom. apply is_fresh. }
    split.
    + apply (slice_data_whole _ s r); [|done]. rewrite Hheap. apply lookup_insert_eq.
    + intros s0 r0 Hr0. exists r0. rewrite Hheap.
      rewrite lookup_insert_ne by congruence. repeat split; try done.
      intros [= E _]. congruence.
Qed.

(** X7. A call of [grpc_slice_intern] that returns has either left the
    trace of the run as it was, or has taken the mutex of one shard, the
    one the low five bits of the hash name, first, and released it last:
    between the two it has taken or released no mutex and freed no
    record. It leaves every mutex unlocked and every other shard as it
    was. *)
Theorem intern_locks_one_shard σ slice data res σ' :
  inv σ -> slice_data σ slice = Some data ->
  run (grpc_slice_intern slice) σ = Ok res σ' ->
  let i := SHARD_IDX (grpc_slice_default_hash_impl σ data) in
  (forall sh, sh ∈ g_shards σ' -> mu sh = MuUnlocked) /\
  (forall j : nat, j <> Z.to_nat i -> g_shards σ' !! j = g_shards σ !! j) /\
  exists mid,
    (trace σ' = trace σ \/ trace σ' = EvUnlock i :: mid ++ EvLock i :: trace σ) /\
    forall e, e ∈ mid -> forall j p, e <> EvLock j /\ e <> EvUnlock j /\ e <> EvFree p.
Proof.
  intros Hinv Hd Hrun i. pose proof Hinv as [Hst Hwf _ _ Hq _ _].
  assert (forall e : event, e ∈ [] ->
            forall j p, e <> EvLock j /\ e <> EvUnlock j /\ e <> EvFree p) as Hnil.
  { intros e He. by apply elem_of_nil in He. }
  destruct (intern_ok_cases σ slice data res σ' Hinv Hd Hrun)
    as [(Hs & -> & ->)|[Hns Hc]].
  { split; [done|]. split; [done|]. exists []. split; [by left|done]. }
  inversion Hc as [k Hk | chain s r h Hmiss Hhome Hfl Hs
                  | chain sh sh' σ1 h i' s r grows Hmiss Hhome Hfl Hsh Hwf' Hst' Hheap
                      Hshards Hmu Hcnt Hcap Hperm Htr
                  | ]; subst.
  - split; [done|]. split; [done|]. exists []. split; [by left|done].
  - destruct (found_state σ (SHARD_IDX h) s r Hs) as (_ & _ & Hsh & _ & Htr).
    cbv zeta in Hsh, Htr. rewrite Hsh. split; [done|]. split; [done|].
    exists []. split; [by right|done].
  - split; [|split].
    + intros sh0 Hin. rewrite Hshards in Hin.
      apply list_elem_of_lookup in Hin as [j Hj].
      destruct (decide (j = Z.to_nat i')) as [->|Hne].
      * rewrite list_lookup_insert_eq in Hj by (by eapply lookup_lt_Some).
        by injection Hj as <-.
      * rewrite list_lookup_insert_ne in Hj by done.
        apply Hq. by eapply list_elem_of_lookup_2.
    + intros j Hj. rewrite Hshards. by rewrite list_lookup_insert_ne.
    + exists ((if grows then [EvFreeStrs; EvMallocStrs (capacity sh * 2)] else [])
               ++ [EvMalloc s]).
      split; [right; by rewrite Htr, <- app_assoc|].
      intros e He j p. apply elem_of_app in He as [He|He].
      * destruct grows; [|by apply elem_of_nil in He].
        repeat (apply elem_of_cons in He as [->|He]; [done|]).
        by apply elem_of_nil in He.
      * apply list_elem_of_singleton in He as ->. done.
Qed.

(** ** What holds between the calls of a run *)

(** X8. Between the calls of a run no two records hold the same bytes:
    the table has at most one record per string. *)
Theorem reachable_unique_bytes σ :
  table_size_ok -> reachable σ ->
  forall s1 r1 s2 r2,
    heap σ !! s1 = Some r1 -> heap σ !! s2 = Some r2 ->
    bytes r1 = bytes r2 -> s1 = s2.
Proof.
  intros Hok Hr s1 r1 s2 r2 H1 H2 Hb.
  pose proof (reachable_inv σ Hok Hr) as [_ _ Hcan _ _ Hlive _].
  pose proof (Hlive s1 r1 H1). pose proof (Hlive s2 r2 H2).
  apply (Hcan s1 r1 s2 r2); try done; lia.
Qed.

(** X9. Between the calls of a run every record of the store is
    referenced (its counter is above 0), holds the number of its bytes as
    [length] and their seeded hash as [hash], and is linked in the shard
    that the low five bits of the hash name, in the chain of index
    [(hash >> 5) % capacity]. *)
Theorem reachable_records σ :
  table_size_ok -> reachable σ ->
  forall s r, heap σ !! s = Some r ->
    0 < refcnt r < 2 ^ 63 /\
    rlength r = Z.of_nat (List.length (bytes r)) /\
    hash r = grpc_slice_default_hash_impl σ (bytes r) /\
    exists sh chain,
      g_shards σ !! Z.to_nat (hash r mod 32) = Some sh /\
      strs sh !! Z.to_nat ((hash r / 32) mod capacity sh) = Some chain /\
      s ∈ chain.
Proof.
  intros Hok Hr s r Hs.
  pose proof (reachable_inv σ Hok Hr) as [_ Hwf _ _ _ Hlive Hrange].
  pose proof (Hlive s r Hs). pose proof (Hrange s r Hs).
  destruct (wf_record σ Hwf s r Hs) as [Hlen Hhash].
  destruct (wf_linked σ Hwf s r Hs) as (chain & Hhome & Hin).
  split; [lia|]. split; [done|]. split; [done|].
  unfold home_chain, shard_at in Hhome.
  assert (SHARD_IDX (hash r) = hash r mod 32) as Hi.
  { unfold SHARD_IDX. change (Z.shiftl 1 LOG2_SHARD_COUNT - 1) with (Z.ones 5).
    by rewrite Z.land_ones. }
  assert (forall c, TABLE_IDX (hash r) c = (hash r / 32) mod c) as Ht.
  { intros c. unfold TABLE_IDX. by rewrite Z.shiftr_div_pow2. }
  rewrite Hi in Hhome. destruct (g_shards σ !! Z.to_nat (hash r mod 32)) as [sh|];
    [|done].
  exists sh, chain. by rewrite <- Ht.
Qed.

(** X10. Between the calls of a run there are 32 shards; no mutex is
    held; a shard has as many chains as its capacity, and its count is
    the number of the records in its chains; no record is linked twice;
    and every linked record is in the store, in the shard and the chain
    that its hash names. *)
Theorem reachable_shards σ :
  table_size_ok -> reachable σ ->
  List.length (g_shards σ) = 32%nat /\
  forall (i : nat) sh, g_shards σ !! i = Some sh ->
    mu sh = MuUnlocked /\
    0 < capacity sh /\
    Z.of_nat (List.length (strs sh)) = capacity sh /\
    count sh = Z.of_nat (List.length (concat (strs sh))) /\
    NoDup (concat (strs sh)) /\
    forall (idx : nat) chain s, strs sh !! idx = Some chain -> s ∈ chain ->
      exists r, heap σ !! s = Some r /\
        hash r mod 32 = Z.of_nat i /\
        (hash r / 32) mod capacity sh = Z.of_nat idx.
Proof.
  intros Hok Hr. pose proof (reachable_inv σ Hok Hr) as [_ Hwf _ _ Hq _ _].
  split; [apply (wf_shards σ Hwf)|]. intros i sh Hi.
  pose proof (wf_shard σ Hwf i sh Hi) as [Hcap Hlen Hcnt Hnd Hhome].
  split; [apply Hq; by eapply list_elem_of_lookup_2|].
  split; [lia|]. split; [lia|]. split; [done|]. split; [done|].
  intros idx chain s Hidx Hs.
  destruct (Hhome idx chain s Hidx Hs) as (r & Hr' & H1 & H2).
  exists r. split; [done|]. split.
  - rewrite <- H1. unfold SHARD_IDX.
    change (Z.shiftl 1 LOG2_SHARD_COUNT - 1) with (Z.ones 5).
    by rewrite Z.land_ones.
  - rewrite <- H2. unfold TABLE_IDX. by rewrite Z.shiftr_div_pow2.
Qed.

(** ** The load of the shards *)

(** One call takes shard [sh] to [sh']: either the capacity stays and the
    count does not grow, or one record was added and the capacity doubled
    if that took the count above twice the capacity (lines 246-250). *)
Definition load_step (sh sh' : slice_shard) : Prop :=
  (capacity sh' = capacity sh /\ count sh' <= count sh) \/
  (count sh' = count sh + 1 /\
   capacity sh' = if bool_decide (count sh + 1 > capacity sh * 2)
                  then capacity sh * 2 else capacity sh).

Definition loads_step (σ σ' : state) : Prop :=
  forall (i : nat) sh', g_shards σ' !! i = Some sh' ->
    exists sh, g_shards σ !! i = Some sh /\ load_step sh sh'.

Lemma loads_step_same σ σ' : g_shards σ' = g_shards σ -> loads_step σ σ'.
Proof.
  intros E i sh Hi. exists sh. rewrite <- E. split; [done|]. left. lia.
Qed.

Lemma loads_step_insert σ σ' (i : nat) sh sh' :
  g_shards σ' = <[i := sh']> (g_shards σ) -> g_shards σ !! i = Some sh ->
  load_step sh sh' -> loads_step σ σ'.
Proof.
  intros E Hi Hstep j shj Hj. rewrite E in Hj. destruct (decide (i = j)) as [<-|Hne].
  - exists sh. rewrite list_lookup_insert_eq in Hj by (by eapply lookup_lt_Some).
    split; [done|]. congruence.
  - exists shj. rewrite list_lookup_insert_ne in Hj by done.
    split; [done|]. left. lia.
Qed.

Lemma loads_step_unref σ s σ' :
  inv σ -> run (interned_slice_unref s) σ = Ok tt σ' -> loads_step σ σ'.
Proof.
  intros Hinv Hrun. pose proof Hinv as [Hst Hwf Hcan Hsm Hq Hlive Hrange].
  destruct (heap σ !! s) as [r|] eqn:Hs.
  2:{ unfold interned_slice_unref in Hrun. cbn [run] in Hrun.
      unfold gpr_atm_fetch_add in Hrun. by rewrite Hs in Hrun. }
  destruct (decide (refcnt r = 1)) as [H1|H1].
  - pose proof (SHARD_IDX_range (hash r)) as Hi.
    destruct (wf_shard_exists σ _ Hwf Hi) as [sh Hsh].
    destruct (run_unref_last σ s r sh Hwf Hs H1 Hsh (quiet_shard_at σ _ sh Hq Hsh))
      as (chain & chain' & σ1 & _ & _ & Hrun1 & _ & _ & _ & Hshards & _).
    assert (σ1 = σ') as -> by congruence.
    eapply loads_step_insert; [exact Hshards|exact Hsh|].
    left. cbn [capacity count]. lia.
  - rewrite (run_unref_keep σ s r) in Hrun by done. injection Hrun as <-.
    by apply loads_step_same.
Qed.

Lemma loads_step_intern σ slice res σ' :
  inv σ -> run (grpc_slice_intern slice) σ = Ok res σ' -> loads_step σ σ'.
Proof.
  intros Hinv Hrun. pose proof Hinv as [Hst Hwf Hcan Hsm Hq Hlive Hrange].
  destruct (grpc_is_static_metadata_string slice) eqn:Hns.
  { rewrite run_intern_static_slice in Hrun by done. injection Hrun as _ <-.
    by apply loads_step_same. }
  destruct (intern_valid σ slice res σ' Hns Hrun) as [data Hd].
  pose proof (intern_cases σ slice data Hst Hwf Hq Hns Hd) as Hc.
  rewrite Hrun in Hc.
  inversion Hc as [k Hk | chain s r h Hmiss Hhome Hfl Hs
                  | chain sh sh' σ1 h i s r grows Hmiss Hhome Hfl Hsh Hwf' Hst' Hheap
                      Hshards Hmu Hcnt Hcap Hperm Htr
                  | ]; subst.
  - by apply loads_step_same.
  - apply loads_step_same.
    by destruct (found_state σ (SHARD_IDX h) s r Hs) as (_ & _ & ? & _).
  - eapply loads_step_insert; [exact Hshards|exact Hsh|]. by right.
Qed.

Lemma loads_step_call σ c σ' :
  inv σ -> run (call_prog c) σ = Ok tt σ' -> loads_step σ σ'.
Proof.
  intros Hinv. destruct c as [slice|slice|s|s]; cbn [call_prog].
  - rewrite run_bind.
    destruct (run (grpc_slice_intern slice) σ) as [res σ1| |] eqn:Hrun; try done.
    cbn [run]. intros [= <-]. by eapply loads_step_intern.
  - rewrite run_bind.
    destruct (run (grpc_slice_static_intern slice) σ) as [res σ1| |] eqn:Hrun; try done.
    cbn [run]. intros [= <-].
    destruct (run_static_intern_cases σ slice res σ1 Hrun) as [->|Hu];
      [by apply loads_step_same|].
    destruct slice as [d|k|k o l|s off len|c d]; cbn [grpc_slice_unref run] in Hu.
    + injection Hu as <-. by apply loads_step_same.
    + injection Hu as <-. by apply loads_step_same.
    + injection Hu as <-. by apply loads_step_same.
    + by eapply loads_step_unref.
    + injection Hu as <-. by apply loads_step_same.
  - intros Hrun. apply loads_step_same.
    unfold interned_slice_ref in Hrun. cbn [run] in Hrun.
    unfold gpr_atm_fetch_add in Hrun. destruct (heap σ !! s); [|done].
    destruct (bool_decide _); [|done]. by injection Hrun as <-.
  - intros Hrun. by eapply loads_step_unref.
Qed.

(** X11. Between the calls of a run no shard holds more than twice as
    many records as it has chains: the growth of lines 246-250 keeps
    [count <= 2 * capacity]. *)
Theorem load_factor σ :
  table_size_ok -> reachable σ ->
  forall sh, sh ∈ g_shards σ -> count sh <= capacity sh * 2.
Proof.
  intros Hok Hr. induction Hr as [σ0 tv σ Harr Hempty Hinit|σ c σ' Hr IH Hno Hrun].
  - destruct (init_spec tv σ0 Hok Harr) as (σ1 & Hrun & _ & Hsh & _).
    assert (σ1 = σ) as -> by congruence.
    intros sh Hin. rewrite Hsh in Hin. apply elem_of_replicate in Hin as [-> _].
    done.
  - intros sh' Hin'. apply list_elem_of_lookup in Hin' as [i Hi'].
    pose proof (reachable_inv σ Hok Hr) as Hinv.
    destruct (loads_step_call σ c σ' Hinv Hrun i sh' Hi') as (sh & Hi & Hstep).
    pose proof (IH sh ltac:(by eapply list_elem_of_lookup_2)) as Hle.
    pose proof (so_cap _ _ _ (wf_shard σ (inv_wf σ Hinv) i sh Hi)) as Hcap.
    destruct Hstep as [[-> ?]|[-> ->]]; [lia|]. case_bool_decide; lia.
Qed.

(** ** References *)

(** X12. [interned_slice_ref] on a record whose counter is above 0 (and
    below the largest [gpr_atm]) raises that counter by one and leaves
    everything else as it is, and the [interned_slice_unref] that follows
    gives the state back as it was; on a record whose counter is 0 the
    assertion of line 87 fails. *)
Theorem ref_then_unref σ s r :
  heap σ !! s = Some r ->
  (0 < refcnt r < 2 ^ 63 - 1 ->
     run (interned_slice_ref s) σ =
       Ok tt (set_heap (<[s := set_refcnt (refcnt r + 1) r]> (heap σ)) σ) /\
     run (bind (interned_slice_ref s) (fun _ => interned_slice_unref s)) σ = Ok tt σ) /\
  (refcnt r = 0 ->
     exists σ', run (interned_slice_ref s) σ = Crash AssertFailed σ').
Proof.
  intros Hs. split.
  - intros Hr. rewrite run_bind, (run_ref σ s r) by (done || lia).
    rewrite gpr_atm_small by lia. split; [done|].
    set (r' := set_refcnt (refcnt r + 1) r).
    rewrite (run_unref_keep _ s r').
    + rewrite heap_set_heap, set_heap_set_heap, insert_insert_eq.
      subst r'. cbn [refcnt set_refcnt]. rewrite set_refcnt_set_refcnt.
      replace (refcnt r + 1 - 1) with (refcnt r) by lia.
      rewrite gpr_atm_small by lia. rewrite set_refcnt_id.
      rewrite insert_id by done. by rewrite set_heap_id.
    + rewrite heap_set_heap. apply lookup_insert_eq.
    + subst r'. cbn [refcnt set_refcnt]. lia.
  - intros H0. unfold interned_slice_ref. cbn [run]. unfold gpr_atm_fetch_add.
    rewrite Hs, H0. rewrite bool_decide_eq_false_2 by lia. cbn [GPR_ASSERT].
    by eexists.
Qed.

(** X13. In a state between the calls of a run, [interned_slice_unref] of
    a record of the store returns and keeps the invariant of the tables.
    It writes to no other record and to no shard but the one the hash of
    the record names; the record is gone when its counter was 1, and has
    its counter lowered by one otherwise. *)
Theorem unref_effect σ s r :
  inv σ -> heap σ !! s = Some r ->
  exists σ',
    run (interned_slice_unref s) σ = Ok tt σ' /\ inv σ' /\
    heap σ' !! s =
      (if decide (refcnt r = 1) then None else Some (set_refcnt (refcnt r - 1) r)) /\
    (forall s', s' <> s -> heap σ' !! s' = heap σ !! s') /\
    (forall j : nat, j <> Z.to_nat (SHARD_IDX (hash r)) ->
       g_shards σ' !! j = g_shards σ !! j).
Proof.
  intros Hinv Hs. pose proof Hinv as [Hst Hwf Hcan Hsm Hq Hlive Hrange].
  pose proof (Hlive s r Hs) as Hpos. pose proof (Hrange s r Hs) as Hr.
  destruct (decide (refcnt r = 1)) as [H1|H1].
  - pose proof (SHARD_IDX_range (hash r)) as Hi.
    destruct (wf_shard_exists σ _ Hwf Hi) as [sh Hsh].
    destruct (run_unref_last σ s r sh Hwf Hs H1 Hsh (quiet_shard_at σ _ sh Hq Hsh))
      as (chain & chain' & σ' & _ & _ & Hrun & Hwf' & Hsame & Hheap & Hshards & _).
    exists σ'. split; [done|]. split; [by eapply (inv_unref σ s)|].
    rewrite Hheap. split; [apply lookup_delete_eq|].
    split; [intros s' Hne; by apply lookup_delete_ne|].
    intros j Hj. rewrite Hshards. by apply list_lookup_insert_ne.
  - eexists. split; [by apply (run_unref_keep σ s r)|].
    rewrite gpr_atm_small by lia.
    split; [|rewrite heap_set_heap; split; [apply lookup_insert_eq|]].
    + apply (inv_set_refcnt σ _ s r (refcnt r - 1)); try done; [lia|].
      by apply same_tables_set_refcnt.
    + split; [intros s' Hne; by apply lookup_insert_ne|done].
Qed.

(** ** Interning and releasing *)

(** X14. Round trip: in a state between the calls of a run, interning
    bytes that are those of no static string and of no record allocates a
    record at a fresh address with one reference; releasing that
    reference gives back the store as it was, and shards that hold the
    records they held, with the counts they had. The table invariant
    holds again. *)
Theorem intern_unref_roundtrip σ slice data :
  inv σ -> grpc_is_static_metadata_string slice = false ->
  slice_data σ slice = Some data ->
  (forall k, static_slice k <> Some data) ->
  (forall s r, heap σ !! s = Some r -> bytes r <> data) ->
  Z.of_nat (size (heap σ)) < MAX_RECORDS ->
  exists s σ1 σ2,
    run (grpc_slice_intern slice) σ
      = Ok (slice_interned s 0 (Z.of_nat (List.length data))) σ1 /\
    heap σ !! s = None /\
    heap σ1 = <[s := mk_refcount (Z.of_nat (List.length data)) 1
                       (grpc_slice_default_hash_impl σ data) data]> (heap σ) /\
    run (interned_slice_unref s) σ1 = Ok tt σ2 /\
    heap σ2 = heap σ /\ inv σ2 /\
    forall (i : nat) sh, g_shards σ !! i = Some sh ->
      exists sh2, g_shards σ2 !! i = Some sh2 /\ count sh2 = count sh /\
        concat (strs sh2) ≡ₚ concat (strs sh) /\
        (i <> Z.to_nat (SHARD_IDX (grpc_slice_default_hash_impl σ data)) -> sh2 = sh).
Proof.
  intros Hinv Hns Hd Hnostatic Hnew Hsize.
  pose proof Hinv as [Hst Hwf Hcan Hsm Hq Hlive Hrange].
  pose proof (intern_cases σ slice data Hst Hwf Hq Hns Hd) as Hc.
  inversion Hc as [k Hk Hrun | chain s r h Hmiss Hhome Hfl Hs Hrun
                  | chain sh sh' σ1 h i s r grows Hmiss Hhome Hfl Hsh Hwf' Hst' Hheap
                      Hshards Hmu Hcnt Hcap Hperm Htr Hrun
                  | chain σ1 h Hmiss Hhome Hfl Hfull Hrun ].
  - destruct (static_lookup_sound σ _ data k Hk) as [Hk' _]. by destruct (Hnostatic k).
  - destruct (first_live_Some _ _ _ _ _ Hfl) as (_ & r0 & Hs0 & _ & Hbytes & _).
    by destruct (Hnew s r0 Hs0).
  - assert (heap σ !! s = None) as Hfresh.
    { apply not_elem_of_dom. apply is_fresh. }
    pose proof (SHARD_IDX_range h) as Hi. fold i in Hi.
    assert (shard_at i σ1 = Some sh') as Hsh1.
    { unfold shard_at. rewrite Hshards. apply list_lookup_insert_eq.
      by eapply lookup_lt_Some. }
    assert (heap σ1 !! s = Some r) as Hs1 by (rewrite Hheap; apply lookup_insert_eq).
    destruct (run_unref_last σ1 s r sh' Hwf' Hs1 eq_refl Hsh1 Hmu)
      as (chain1 & chain' & σ2 & Hchain1 & Hun & Hrun2 & Hwf2 & Hsame2 & Hheap2
          & Hshards2 & _).
    cbn [hash r] in Hchain1, Hshards2. fold i in Hshards2.
    assert (heap σ2 = heap σ) as Hback.
    { rewrite Hheap2, Hheap. rewrite delete_insert_eq. by apply delete_id. }
    rewrite Hshards, list_insert_insert_eq in Hshards2.
    exists s, σ1, σ2. split; [done|]. split; [done|]. split; [done|].
    split; [done|]. split; [done|]. split.
    + apply (inv_same_heap σ); try done.
      * by eapply same_static_trans.
      * by apply (quiet_insert σ σ2 (Z.to_nat i) _ Hq Hshards2).
    + intros j shj Hj. rewrite Hshards2. destruct (decide (j = Z.to_nat i)) as [->|Hne].
      * unfold shard_at in Hsh. assert (shj = sh) as -> by congruence.
        eexists. rewrite list_lookup_insert_eq by (by eapply lookup_lt_Some).
        split; [done|]. cbn [count strs]. split; [lia|]. split; [|done].
        pose proof (concat_insert_unlink _ _ _ _ _ Hchain1 Hun) as Hp.
        rewrite Hperm in Hp. by apply Permutation_cons_inv in Hp.
      * exists shj. rewrite list_lookup_insert_ne by done. done.
  - lia.
Qed.

(** ** A call between the decrement and the removal of a last release *)

(** Lines 91-103 on a record whose counter is 0: the part of the last
    release that follows the decrement of line 108. *)
Lemma run_destroy_dying σ s r sh :
  wf σ -> heap σ !! s = Some r -> refcnt r = 0 ->
  shard_at (SHARD_IDX (hash r)) σ = Some sh -> mu sh = MuUnlocked ->
  let i := SHARD_IDX (hash r) in
  let idx := Z.to_nat (TABLE_IDX (hash r) (capacity sh)) in
  exists chain chain' σ',
    strs sh !! idx = Some chain /\ unlink s chain = Some chain' /\
    run (interned_slice_destroy s) σ = Ok tt σ' /\
    wf σ' /\ same_static σ σ' /\
    heap σ' = delete s (heap σ) /\
    g_shards σ' = <[Z.to_nat i :=
        mk_shard MuUnlocked (<[idx := chain']> (strs sh)) (count sh - 1) (capacity sh)]>
      (g_shards σ).
Proof.
  intros Hwf Hs H0 Hsh Hmu i idx.
  set (r1 := set_refcnt 1 r).
  set (σr := set_heap (<[s := r1]> (heap σ)) σ).
  assert (wf σr) as Hwfr.
  { apply (wf_ext σ); [|done]. by apply same_tables_set_refcnt. }
  assert (heap σr !! s = Some r1) as Hsr by apply lookup_insert_eq.
  destruct (run_unref_last σr s r1 sh Hwfr Hsr eq_refl Hsh Hmu)
    as (chain & chain' & σ' & Hchain & Hun & Hrun & Hwf' & Hsame & Hheap & Hshards & _).
  exists chain, chain', σ'. split; [done|]. split; [done|].
  split; [|split; [done|split; [done|split; [|done]]]].
  - rewrite <- Hrun. unfold interned_slice_unref. cbn [run].
    unfold gpr_atm_fetch_add. rewrite Hsr. cbn [refcnt r1 set_refcnt].
    change (gpr_atm (1 + -1)) with 0. rewrite decide_True by done.
    replace (set_heap (<[s:=set_refcnt 0 r1]> (heap σr)) σr) with σ; [done|].
    subst σr r1. rewrite heap_set_heap, set_heap_set_heap, insert_insert_eq.
    rewrite set_refcnt_set_refcnt, <- H0, set_refcnt_id.
    rewrite insert_id by done. by rewrite set_heap_id.
  - rewrite Hheap. subst σr. rewrite heap_set_heap. apply delete_insert_eq.
Qed.

(** X15. The guard of lines 219-226, in the order of events it is written
    for. A thread releases the last reference of record [s]: its
    decrement (line 108) leaves [s] linked with a counter of 0. Before
    that thread takes the mutex, another call interns the bytes of [s]:
    it returns, not with [s] but with a new record [s'] (one reference)
    of the same bytes, length and hash, and leaves [s] as it was. The
    first thread then goes on ([interned_slice_destroy]): it returns,
    [s] is out of the store and [s'] is in, and the invariant of the
    tables holds again. *)
Theorem intern_skips_dying σ s r slice :
  inv σ -> heap σ !! s = Some r -> refcnt r = 1 ->
  grpc_is_static_metadata_string slice = false ->
  slice_data σ slice = Some (bytes r) ->
  Z.of_nat (size (heap σ)) < MAX_RECORDS ->
  let σd := set_heap (<[s := set_refcnt 0 r]> (heap σ)) σ in
  let r' := mk_refcount (rlength r) 1 (hash r) (bytes r) in
  step (interned_slice_unref s) σ = Some (interned_slice_destroy s, σd) /\
  exists s' σ1 σ2,
    s' <> s /\
    run (grpc_slice_intern slice) σd = Ok (slice_interned s' 0 (rlength r)) σ1 /\
    heap σ1 = <[s' := r']> (heap σd) /\
    run (interned_slice_destroy s) σ1 = Ok tt σ2 /\
    heap σ2 = <[s' := r']> (delete s (heap σ)) /\
    inv σ2.
Proof.
  intros Hinv Hs H1 Hns Hd Hsize σd r'.
  pose proof Hinv as [Hst Hwf Hcan Hsm Hq Hlive Hrange].
  destruct (wf_record σ Hwf s r Hs) as [Hlen Hhash].
  split.
  { unfold interned_slice_unref. cbn [step]. unfold gpr_atm_fetch_add.
    rewrite Hs, H1. change (gpr_atm (1 + -1)) with 0. by rewrite decide_True. }
  set (r0 := set_refcnt 0 r) in *.
  assert (heap σd !! s = Some r0) as Hsd by apply lookup_insert_eq.
  assert (same_static σ σd) as Hsamed by (by repeat split).
  assert (wf σd) as Hwfd.
  { apply (wf_ext σ); [|done]. by apply same_tables_set_refcnt. }
  assert (static_ok σd) as Hstd by (by apply (static_ok_same σ)).
  assert (quiet σd) as Hqd by (by apply (quiet_same σ)).
  assert (slice_data σd slice = Some (bytes r)) as Hdd.
  { apply (slice_data_same σ); [|done]. intros s0 q Hq0.
    destruct (decide (s0 = s)) as [->|Hne].
    - exists r0. split; [done|]. assert (q = r) as -> by congruence. done.
    - exists q. split; [|done]. subst σd. rewrite heap_set_heap.
      by rewrite lookup_insert_ne. }
  assert (grpc_slice_default_hash_impl σd (bytes r) = hash r) as Hh
    by (by rewrite Hhash).
  assert (Z.of_nat (size (heap σd)) < MAX_RECORDS) as Hsized.
  { subst σd. rewrite heap_set_heap.
    assert (dom (<[s:=r0]> (heap σ)) = dom (heap σ)) as Hdom
      by (by apply dom_insert_lookup_L).
    rewrite <- size_dom, Hdom, size_dom. done. }
  pose proof (intern_cases σd slice (bytes r) Hstd Hwfd Hqd Hns Hdd) as Hc.
  inversion Hc as [k Hk Hrun | chain s0 q h Hmiss Hhome Hfl Hs0 Hrun
                  | chain sh sh' σ1 h i s' q grows Hmiss Hhome Hfl Hsh Hwf' Hst' Hheap
                      Hshards Hmu Hcnt Hcap Hperm Htr Hrun
                  | chain σ1 h Hmiss Hhome Hfl Hfull Hrun ].
  - rewrite (static_lookup_same σ σd) in Hk by done.
    pose proof (Hsm s r Hs). congruence.
  - destruct (first_live_Some _ _ _ _ _ Hfl) as (_ & q0 & Hq0 & _ & Hbytes & Hnz).
    exfalso. destruct (decide (s0 = s)) as [->|Hne].
    + assert (q0 = r0) as -> by congruence. by apply Hnz.
    + assert (heap σ !! s0 = Some q0) as Hq0'.
      { subst σd. rewrite heap_set_heap in Hq0. by rewrite lookup_insert_ne in Hq0. }
      apply Hne. apply (Hcan s0 q0 s r); try done. lia.
  - assert (s' <> s) as Hne.
    { intros E. apply (is_fresh (dom (heap σd))). fold s'. rewrite E.
      by apply elem_of_dom_2 in Hsd. }
    assert (q = r') as Hq' by (subst q r' h; by rewrite Hh, <- Hlen).
    assert (heap σ1 !! s = Some r0) as Hs1.
    { rewrite Hheap. by rewrite lookup_insert_ne. }
    assert (shard_at (SHARD_IDX (hash r0)) σ1 = Some sh') as Hsh1.
    { unfold shard_at. rewrite Hshards. change (hash r0) with (hash r).
      subst i h. rewrite Hh. apply list_lookup_insert_eq.
      unfold shard_at in Hsh. rewrite Hh in Hsh. by eapply lookup_lt_Some. }
    destruct (run_destroy_dying σ1 s r0 sh' Hwf' Hs1 eq_refl Hsh1 Hmu)
      as (chain1 & chain' & σ2 & _ & _ & Hrun2 & Hwf2 & Hsame2 & Hheap2 & Hshards2).
    assert (heap σ2 = <[s' := r']> (delete s (heap σ))) as Hfinal.
    { rewrite Hheap2, Hheap, Hq'. subst σd. rewrite heap_set_heap.
      rewrite delete_insert_ne by done. by rewrite delete_insert_eq. }
    exists s', σ1, σ2. split; [done|]. split; [by rewrite Hlen|].
    split; [by rewrite Hheap, Hq'|]. split; [done|]. split; [done|].
    assert (same_static σ σ2) as Hsame.
    { eapply same_static_trans; [exact Hsamed|].
      eapply same_static_trans; [exact Hst'|exact Hsame2]. }
    assert (forall s2 q2, heap σ2 !! s2 = Some q2 ->
              (s2 = s' /\ q2 = r') \/ (s2 <> s' /\ s2 <> s /\ heap σ !! s2 = Some q2))
      as Hrec.
    { intros s2 q2. rewrite Hfinal. destruct (decide (s2 = s')) as [->|Hn2].
      - rewrite lookup_insert_eq. intros [= <-]. by left.
      - rewrite lookup_insert_ne by done. intros [? ?]%lookup_delete_Some.
        by right. }
    constructor.
    + by apply (static_ok_same σ).
    + done.
    + intros a ra b rb Ha Hb Hna Hnb Hab.
      destruct (Hrec a ra Ha) as [[-> ->]|(? & ? & Ha')],
               (Hrec b rb Hb) as [[-> ->]|(? & ? & Hb')]; try done.
      * exfalso. assert (b = s); [|done].
        apply (Hcan b rb s r); try done. lia.
      * exfalso. assert (a = s); [|done].
        apply (Hcan a ra s r); try done. lia.
      * by apply (Hcan a ra b rb).
    + intros a ra Ha. rewrite (static_lookup_same σ σ2) by done.
      destruct (Hrec a ra Ha) as [[-> ->]|(? & ? & Ha')].
      * apply (Hsm s r Hs).
      * by apply (Hsm a ra).
    + apply (quiet_insert σ1 σ2 _ _ (quiet_insert σd σ1 _ _ Hqd Hshards Hmu) Hshards2).
      done.
    + intros a ra Ha. destruct (Hrec a ra Ha) as [[-> ->]|(? & ? & Ha')].
      * done.
      * by apply (Hlive a ra).
    + intros a ra Ha. destruct (Hrec a ra Ha) as [[-> ->]|(? & ? & Ha')].
      * done.
      * by apply (Hrange a ra).
  - lia.
Qed.

(** ** The counts of the shards and the store *)

(** The records linked in the shards [l], in the order of the shards. *)
Definition linked (l : list slice_shard) : list addr :=
  concat ((fun sh => concat (strs sh)) <$> l).

Lemma linked_length l :
  (forall sh, sh ∈ l -> count sh = Z.of_nat (List.length (concat (strs sh)))) ->
  Z.of_nat (List.length (linked l)) = foldr (fun sh acc => count sh + acc) 0 l.
Proof.
  induction l as [|sh l IH]; intros Hc; [done|].
  unfold linked in *. cbn [fmap list_fmap concat foldr]. rewrite length_app.
  rewrite Nat2Z.inj_add, IH by (intros; apply Hc; by right).
  rewrite (Hc sh) by left. done.
Qed.

Lemma linked_nodup (hp : gmap addr interned_slice_refcount) l : forall k : nat,
  (forall (j : nat) sh, l !! j = Some sh ->
     NoDup (concat (strs sh)) /\
     forall s, s ∈ concat (strs sh) ->
       exists r, hp !! s = Some r /\ SHARD_IDX (hash r) = Z.of_nat (k + j)) ->
  NoDup (linked l).
Proof.
  induction l as [|sh l IH]; intros k Hl; [constructor|].
  unfold linked in *. cbn [fmap list_fmap concat]. apply NoDup_app.
  destruct (Hl 0%nat sh eq_refl) as [Hnd Hhome]. split; [done|]. split.
  - intros s Hs Hrest. destruct (Hhome s Hs) as (r & Hr & Hi).
    apply elem_of_concat in Hrest as (j & c & Hc & Hsc).
    apply list_lookup_fmap_Some in Hc as (sh' & -> & Hj).
    destruct (Hl (S j) sh' Hj) as [_ Hhome'].
    destruct (Hhome' s Hsc) as (r2 & Hr2 & Hi2).
    assert (r2 = r) as -> by congruence. lia.
  - apply (IH (S k)). intros j sh' Hj. destruct (Hl (S j) sh' Hj) as [Hnd' Hhome'].
    split; [done|]. intros s Hs. destruct (Hhome' s Hs) as (r & Hr & Hi).
    exists r. split; [done|]. rewrite Hi. lia.
Qed.

(** The records linked in the shards are those of the store, each once. *)
Lemma linked_store σ : wf σ -> linked (g_shards σ) ≡ₚ elements (dom (heap σ)).
Proof.
  intros Hwf. apply NoDup_Permutation.
  - apply (linked_nodup (heap σ) _ 0). intros j sh Hj.
    pose proof (wf_shard σ Hwf j sh Hj) as [_ _ _ Hnd Hhome].
    split; [done|]. intros s (idx & c & Hc & Hs)%elem_of_concat.
    destruct (Hhome idx c s Hc Hs) as (r & Hr' & Hi & _). by exists r.
  - apply NoDup_elements.
  - intros s. rewrite elem_of_elements, elem_of_dom. split.
    + intros Hs. apply elem_of_concat in Hs as (j & c & Hc & Hsc).
      apply list_lookup_fmap_Some in Hc as (sh & -> & Hj).
      by apply (chain_in_heap σ (Z.of_nat j) sh); [apply (wf_shard σ Hwf)|].
    + intros [r Hs]. destruct (wf_linked σ Hwf s r Hs) as (chain & Hhome & Hin).
      unfold home_chain, shard_at in Hhome.
      destruct (g_shards σ !! Z.to_nat (SHARD_IDX (hash r))) as [sh|] eqn:Hsh;
        [|done].
      apply elem_of_concat.
      exists (Z.to_nat (SHARD_IDX (hash r))), (concat (strs sh)). split.
      * by apply (list_lookup_fmap_Some_2 (fun sh => concat (strs sh))).
      * apply elem_of_concat. eauto.
Qed.

(** X16. Between the calls of a run the counts of the 32 shards add up to
    the number of the records in the store, and the records linked in the
    shards are the records of the store, each once. *)
Theorem counts_add_up σ :
  table_size_ok -> reachable σ ->
  foldr (fun sh acc => count sh + acc) 0 (g_shards σ) = Z.of_nat (size (heap σ)) /\
  linked (g_shards σ) ≡ₚ elements (dom (heap σ)).
Proof.
  intros Hok Hr. pose proof (reachable_inv σ Hok Hr) as [_ Hwf _ _ _ _ _].
  pose proof (linked_store σ Hwf) as Hperm.
  split; [|done]. rewrite <- linked_length.
  - rewrite Hperm. by rewrite <- size_dom.
  - intros sh [j Hj]%list_elem_of_lookup.
    apply (so_count _ _ _ (wf_shard σ Hwf j sh Hj)).
Qed.

(** The byte strings that the [LEAKED] records of a log dump. *)
Definition leaked_dumps (l : list log_record) : list (list byte) :=
  omap (fun x => match x with LogLeaked d => Some d | _ => None end) l.

Lemma leaked_dumps_shard (hp : gmap addr interned_slice_refcount) sh :
  count sh = Z.of_nat (List.length (concat (strs sh))) ->
  leaked_dumps (leak_records hp sh) =
    (fun s => from_option (fun r => take (Z.to_nat (rlength r)) (bytes r)) [] (hp !! s))
      <$> concat (strs sh).
Proof.
  intros Hc. unfold leak_records. destruct (decide (count sh = 0)) as [H0|H0].
  - destruct (concat (strs sh)); [done|]. cbn [List.length] in Hc. lia.
  - unfold leaked_dumps. cbn [omap list_omap]. generalize (concat (strs sh)).
    intros l. induction l as [|s l IH]; [done|].
    cbn [fmap list_fmap omap list_omap dump_record]. by rewrite <- IH.
Qed.

Lemma leaked_dumps_shards (hp : gmap addr interned_slice_refcount) l :
  (forall sh, sh ∈ l -> count sh = Z.of_nat (List.length (concat (strs sh)))) ->
  leaked_dumps (concat (leak_records hp <$> l)) =
    (fun s => from_option (fun r => take (Z.to_nat (rlength r)) (bytes r)) [] (hp !! s))
      <$> linked l.
Proof.
  induction l as [|sh l IH]; intros Hc; [done|].
  unfold linked, leaked_dumps in *. cbn [fmap list_fmap concat].
  rewrite omap_app, fmap_app. rewrite IH by (intros; apply Hc; by right).
  f_equal. apply leaked_dumps_shard, Hc. left.
Qed.

(** X17. Between the calls of a run, a shutdown without the abort flag
    returns, and the [LEAKED] records it has added to the log dump the
    bytes of the records of the store, each record once. With an empty
    store the shutdown returns and logs nothing, with the flag or
    without. *)
Theorem shutdown_reports_store σ :
  table_size_ok -> reachable σ ->
  (exists σ' new,
     grpc_slice_intern_shutdown false σ = Ok tt σ' /\
     logged σ' = logged σ ++ new /\
     leaked_dumps new ≡ₚ
       (fun s => from_option bytes [] (heap σ !! s)) <$> elements (dom (heap σ))) /\
  (heap σ = ∅ -> forall b, exists σ',
     grpc_slice_intern_shutdown b σ = Ok tt σ' /\ logged σ' = logged σ).
Proof.
  intros Hok Hr. pose proof (reachable_inv σ Hok Hr) as [_ Hwf _ _ _ _ _].
  assert (forall sh, sh ∈ g_shards σ ->
            count sh = Z.of_nat (List.length (concat (strs sh)))) as Hcount.
  { intros sh [j Hj]%list_elem_of_lookup.
    apply (so_count _ _ _ (wf_shard σ Hwf j sh Hj)). }
  assert (forall sh s, sh ∈ g_shards σ -> s ∈ concat (strs sh) ->
            is_Some (heap σ !! s)) as Hin.
  { intros sh s [j Hj]%list_elem_of_lookup Hs.
    by apply (chain_in_heap σ (Z.of_nat j) sh); [apply (wf_shard σ Hwf)|]. }
  assert (forall b, b = false \/ Forall (fun sh => count sh = 0) (g_shards σ) ->
            exists σ', grpc_slice_intern_shutdown b σ = Ok tt σ' /\
              logged σ' = logged σ ++ concat (leak_records (heap σ) <$> g_shards σ))
    as Hrun.
  { intros b Hb. unfold grpc_slice_intern_shutdown. rewrite <- (wf_shards σ Hwf).
    destruct (shutdown_shards_ok b (g_shards σ) [] σ eq_refl Hin Hb)
      as (σ' & Hrun & _ & _ & Hlog). by exists σ'. }
  split.
  - destruct (Hrun false (or_introl eq_refl)) as (σ' & Hrun' & Hlog).
    exists σ', (concat (leak_records (heap σ) <$> g_shards σ)).
    split; [done|]. split; [done|].
    rewrite (leaked_dumps_shards _ _ Hcount), (linked_store σ Hwf).
    assert (forall A (x y : list A), x = y -> x ≡ₚ y) as Heq by (by intros A x y ->).
    apply Heq, list_fmap_ext. intros i s Hs%list_elem_of_lookup_2.
    apply elem_of_elements, elem_of_dom in Hs as [r Hs]. rewrite Hs.
    cbn [from_option]. destruct (wf_record σ Hwf s r Hs) as [Hlen _].
    apply take_ge. lia.
  - intros Hempty b.
    assert (Forall (fun sh => count sh = 0) (g_shards σ)) as Hzero.
    { apply Forall_forall. intros sh Hsh. rewrite (Hcount sh Hsh).
      destruct (concat (strs sh)) as [|s l] eqn:E; [done|].
      destruct (Hin sh s Hsh) as [r Hs]; [rewrite E; left|].
      by rewrite Hempty in Hs. }
    destruct (Hrun b (or_intror Hzero)) as (σ' & Hrun' & Hlog).
    exists σ'. split; [done|]. rewrite Hlog.
    assert (concat (leak_records (heap σ) <$> g_shards σ) = []) as ->;
      [|by rewrite app_nil_r].
    clear -Hzero. induction Hzero as [|sh l H0 _ IH]; [done|].
    cbn [fmap list_fmap concat]. rewrite IH. unfold leak_records.
    by rewrite decide_True.
Qed.

(** ** A last release beside a lookup of the same bytes *)

(** The calls of two threads and the state they share. *)
Definition threads : Type := prog unit * prog grpc_slice * state.

(** One action of one thread: of the first one for [true], of the second
    one for [false]. There is none for a thread that has returned, that
    waits for a mutex, or whose action ends the process. *)
Definition turn (first : bool) (c : threads) : option threads :=
  match c with
  | (p, q, σ) =>
      if first then
        match step p σ with Some (p', σ') => Some (p', q, σ') | None => None end
      else
        match step q σ with Some (q', σ') => Some (p, q', σ') | None => None end
  end.

(** The actions of the two threads in the order given. *)
Fixpoint interleave (order : list bool) (c : threads) : option threads :=
  match order with
  | [] => Some c
  | first :: rest =>
      match turn first c with
      | Some c' => interleave rest c'
      | None => None
      end
  end.

(** The next action of the call ends the process: a failed [GPR_ASSERT],
    an access to memory that is not there, a mutex that is not held. *)
Definition faults {A : Type} (p : prog A) (σ : state) : bool :=
  match p with
  | Ret _ => false
  | Atomic act _ => match act σ with Crash _ _ => true | _ => false end
  end.

Definition returned {A : Type} (p : prog A) : bool :=
  match p with Ret _ => true | Atomic _ _ => false end.

Lemma interleave_app l1 l2 c :
  interleave (l1 ++ l2) c =
    match interleave l1 c with Some c' => interleave l2 c' | None => None end.
Proof.
  revert c. induction l1 as [|x l1 IH]; intros c; [done|].
  cbn [app interleave]. destruct (turn x c); [apply IH|done].
Qed.

Section Guard.

(** One thread releases the last reference of record [s] while another
    one interns a slice of the bytes of [s]. *)
Variable σ0 : state.
Variable s : addr.
Variable r : interned_slice_refcount.
Variable slice : grpc_slice.
Hypothesis Hinv : inv σ0.
Hypothesis Hs : heap σ0 !! s = Some r.
Hypothesis Hone : refcnt r = 1.
Hypothesis Hns : grpc_is_static_metadata_string slice = false.
Hypothesis Hdata : slice_data σ0 slice = Some (bytes r).
Hypothesis Hother : forall off len, slice <> slice_interned s off len.
Hypothesis Hroom : Z.of_nat (size (heap σ0)) < MAX_RECORDS.

Local Abbreviation h := (hash r).
Local Abbreviation i := (SHARD_IDX (hash r)).
Local Abbreviation data := (bytes r).
Local Abbreviation r' := (mk_refcount (Z.of_nat (List.length (bytes r))) 1 (hash r) (bytes r)).

(** The program points of [interned_slice_unref s], by the action that
    comes next: the decrement of line 108; the read of [s->hash] (line
    91); [gpr_mu_lock] (92); the load and the assertion of line 93; the
    unlinking and [gpr_free] (94-102); [gpr_mu_unlock] (103); returned
    after the removal; returned without it. *)
Inductive upoint : Type :=
| U_dec | U_hash | U_lock | U_load | U_check | U_unlink | U_unlock
| U_gone | U_kept.

(** The program points of [grpc_slice_intern slice]: the static probe
    (201-209); [gpr_mu_lock] (214); the read of the bucket (217); the loop
    of line 218 with the records [rest] still to visit; the increment of
    line 220 on [s]; the [gpr_atm_rel_cas] and the assertion of line 225;
    after a hit the [gpr_mu_unlock] of line 228, [materialize] and the
    return; after the creation of record [n] the [gpr_mu_unlock] of line
    252, [materialize] and the return. *)
Inductive ipoint : Type :=
| I_query | I_lock | I_bucket
| I_scan (idx : Z) (rest : list addr)
| I_try (idx : Z) (rest : list addr)
| I_cas (idx : Z) (rest : list addr)
| I_check (idx : Z) (rest : list addr)
| I_hit_unlock | I_hit_ret | I_hit_done
| I_new_unlock (n : addr) | I_new_ret (n : addr) | I_new_done (n : addr).

Definition unref_at (a : upoint) : prog unit :=
  match a with
  | U_dec => interned_slice_unref s
  | U_hash => interned_slice_destroy s
  | U_lock => Atomic (gpr_mu_lock i) (fun _ => destroy_locked i s)
  | U_load => destroy_locked i s
  | U_check =>
      Atomic (GPR_ASSERT (bool_decide (0 = 0))) (fun _ =>
      Atomic (destroy_unlink i s) (fun _ =>
      Atomic (gpr_mu_unlock i) Ret))
  | U_unlink =>
      Atomic (destroy_unlink i s) (fun _ => Atomic (gpr_mu_unlock i) Ret)
  | U_unlock => Atomic (gpr_mu_unlock i) Ret
  | U_gone | U_kept => Ret tt
  end.

Definition intern_at (b : ipoint) : prog grpc_slice :=
  match b with
  | I_query => grpc_slice_intern slice
  | I_lock => intern_dynamic h data
  | I_bucket =>
      Atomic (read (intern_bucket i h)) (fun b =>
      intern_scan i (fst b) h data (snd b))
  | I_scan idx rest => intern_scan i idx h data rest
  | I_try idx rest => intern_try i s (intern_scan i idx h data rest)
  | I_cas idx rest => intern_backout s (intern_scan i idx h data rest)
  | I_check idx rest =>
      Atomic (GPR_ASSERT true) (fun _ => intern_scan i idx h data rest)
  | I_hit_unlock => intern_hit i s
  | I_hit_ret => intern_return s
  | I_hit_done => Ret (slice_interned s 0 (rlength r))
  | I_new_unlock n => Atomic (gpr_mu_unlock i) (fun _ => intern_return n)
  | I_new_ret n => intern_return n
  | I_new_done n => Ret (slice_interned n 0 (rlength r'))
  end.

(** What the two points say of the state. *)
Definition started (a : upoint) : bool :=
  match a with U_dec => false | _ => true end.

Definition gone (a : upoint) : bool :=
  match a with U_unlock | U_gone => true | _ => false end.

Definition holdU (a : upoint) : bool :=
  match a with U_load | U_check | U_unlink | U_unlock => true | _ => false end.

Definition extra (b : ipoint) : bool :=
  match b with
  | I_cas _ _ | I_hit_unlock | I_hit_ret | I_hit_done => true
  | _ => false
  end.

Definition holdI (b : ipoint) : bool :=
  match b with
  | I_bucket | I_scan _ _ | I_try _ _ | I_cas _ _ | I_check _ _
  | I_hit_unlock | I_new_unlock _ => true
  | _ => false
  end.

Definition made (b : ipoint) : option addr :=
  match b with
  | I_new_unlock n | I_new_ret n | I_new_done n => Some n
  | _ => None
  end.

Definition scan_of (b : ipoint) : option (Z * list addr) :=
  match b with
  | I_scan idx rest | I_try idx rest | I_cas idx rest | I_check idx rest =>
      Some (idx, rest)
  | _ => None
  end.

(** The counter of [s]: one reference at the start, less the one released,
    plus the one the lookup has taken. *)
Definition counter (a : upoint) (b : ipoint) : Z :=
  match started a, extra b with
  | false, false => 1
  | false, true => 2
  | true, false => 0
  | true, true => 1
  end.

(** The pairs of points at which the two threads can be. *)
Definition together (a : upoint) (b : ipoint) : bool :=
  match b with
  | I_query | I_lock =>
      match a with U_kept => false | _ => true end
  | I_bucket | I_scan _ _ =>
      match a with U_dec | U_hash | U_lock | U_gone => true | _ => false end
  | I_try _ _ =>
      match a with U_dec | U_hash | U_lock => true | _ => false end
  | I_cas _ _ | I_check _ _ =>
      match a with U_hash | U_lock => true | _ => false end
  | I_hit_unlock | I_hit_ret | I_hit_done =>
      match a with U_dec | U_kept => true | _ => false end
  | I_new_unlock _ =>
      match a with U_hash | U_lock | U_gone => true | _ => false end
  | I_new_ret _ | I_new_done _ =>
      match a with U_dec | U_kept => false | _ => true end
  end.

Definition with_made (b : ipoint) (m : gmap addr interned_slice_refcount)
  : gmap addr interned_slice_refcount :=
  match made b with Some n => <[n := r']> m | None => m end.

Definition heap_of (a : upoint) (b : ipoint) : gmap addr interned_slice_refcount :=
  if gone a then with_made b (delete s (heap σ0))
  else <[s := set_refcnt (counter a b) r]> (with_made b (heap σ0)).

Definition mu_of (a : upoint) (b : ipoint) (j : nat) : mu_state :=
  if (holdU a || holdI b) && bool_decide (j = Z.to_nat i)
  then MuLocked else MuUnlocked.

(** The invariant of the interleavings. *)
Record cinv (a : upoint) (b : ipoint) (σ : state) : Prop := {
  ci_together : together a b = true;
  ci_static : same_static σ0 σ;
  ci_wf : wf σ;
  ci_heap : heap σ = heap_of a b;
  ci_mu : forall (j : nat) sh, g_shards σ !! j = Some sh -> mu sh = mu_of a b j;
  ci_made : forall n, made b = Some n ->
      delete s (heap σ0) !! n = None /\ (gone a = false -> n <> s);
  ci_scan : forall idx rest, scan_of b = Some (idx, rest) ->
      (exists sh, shard_at i σ = Some sh /\ idx = TABLE_IDX h (capacity sh)) /\
      (forall c, c ∈ rest -> is_Some (heap σ !! c));
  ci_pending : forall idx rest, a = U_dec -> b = I_scan idx rest -> s ∈ rest;
  ci_trace : exists evs, trace σ = evs ++ trace σ0 /\
      (gone a = true -> EvFree s ∈ evs) /\
      (forall n, made b = Some n -> EvMalloc n ∈ evs)
}.

Lemma set_refcnt_one : set_refcnt 1 r = r.
Proof. rewrite <- Hone. apply set_refcnt_id. Qed.

Lemma record_r : rlength r = Z.of_nat (List.length data) /\
  h = grpc_slice_default_hash_impl σ0 data.
Proof. apply (wf_record σ0 (inv_wf σ0 Hinv) s r Hs). Qed.

Lemma cinv_init : cinv U_dec I_query σ0.
Proof.
  constructor.
  - done.
  - apply same_static_refl.
  - apply Hinv.
  - unfold heap_of, with_made. cbn [gone made counter started extra].
    rewrite set_refcnt_one. by rewrite insert_id.
  - intros j sh Hj. unfold mu_of. cbn [holdU holdI orb andb].
    apply (inv_quiet σ0 Hinv). by eapply list_elem_of_lookup_2.
  - done.
  - done.
  - done.
  - exists []. done.
Qed.

(** *** The store and the mutexes at a pair of points *)

Lemma heap_of_s a b :
  gone a = false -> heap_of a b !! s = Some (set_refcnt (counter a b) r).
Proof. intros Hg. unfold heap_of. rewrite Hg. apply lookup_insert_eq. Qed.

Lemma heap_of_gone a b :
  gone a = true -> made b = None -> heap_of a b !! s = None.
Proof.
  intros Hg Hm. unfold heap_of, with_made. rewrite Hg, Hm. apply lookup_delete_eq.
Qed.

Lemma heap_of_other a b c :
  c <> s -> made b = None -> heap_of a b !! c = heap σ0 !! c.
Proof.
  intros Hc Hm. unfold heap_of, with_made. rewrite Hm. destruct (gone a).
  - by rewrite lookup_delete_ne.
  - by rewrite lookup_insert_ne.
Qed.

Lemma heap_of_made a b n :
  made b = Some n -> (gone a = false -> n <> s) -> heap_of a b !! n = Some r'.
Proof.
  intros Hm Hn. unfold heap_of, with_made. rewrite Hm. destruct (gone a).
  - apply lookup_insert_eq.
  - rewrite lookup_insert_ne by (intros E; by apply Hn). apply lookup_insert_eq.
Qed.

Lemma heap_of_size a b :
  made b = None -> (size (heap_of a b) <= size (heap σ0))%nat.
Proof.
  intros Hm. unfold heap_of, with_made. rewrite Hm. destruct (gone a).
  - rewrite map_size_delete, Hs. cbn. lia.
  - rewrite map_size_insert, Hs. cbn. lia.
Qed.

Lemma mu_insert a b a' b' (l : list slice_shard) shi :
  (forall (j : nat) sh, l !! j = Some sh -> mu sh = mu_of a b j) ->
  mu shi = (if holdU a' || holdI b' then MuLocked else MuUnlocked) ->
  forall (j : nat) sh,
    <[Z.to_nat i := shi]> l !! j = Some sh -> mu sh = mu_of a' b' j.
Proof.
  intros Hold Hnew j sh Hj. unfold mu_of.
  destruct (decide (j = Z.to_nat i)) as [->|Hne].
  - rewrite bool_decide_eq_true_2 by done. rewrite andb_true_r.
    destruct (decide (Z.to_nat i < List.length l)%nat).
    + rewrite list_lookup_insert_eq in Hj by done. by injection Hj as <-.
    + rewrite list_insert_ge in Hj by lia. apply lookup_lt_Some in Hj. lia.
  - rewrite list_lookup_insert_ne in Hj by done.
    rewrite bool_decide_eq_false_2 by done. rewrite andb_false_r.
    rewrite (Hold j sh Hj). unfold mu_of.
    rewrite bool_decide_eq_false_2 by done. by rewrite andb_false_r.
Qed.

Lemma cinv_shard a b σ :
  cinv a b σ -> exists sh, shard_at i σ = Some sh /\ mu sh = mu_of a b (Z.to_nat i).
Proof.
  intros Hc. destruct (wf_shard_exists σ i (ci_wf _ _ _ Hc) (SHARD_IDX_range h))
    as [sh Hsh].
  exists sh. split; [done|]. by apply (ci_mu _ _ _ Hc).
Qed.

Lemma mu_of_here a b :
  mu_of a b (Z.to_nat i) = if holdU a || holdI b then MuLocked else MuUnlocked.
Proof. unfold mu_of. rewrite bool_decide_eq_true_2 by done. by rewrite andb_true_r. Qed.

(** *** The ways a step changes the state *)

(** A step that leaves the state as it is. *)
Lemma cinv_relabel a b a' b' σ :
  cinv a b σ -> together a' b' = true ->
  heap_of a' b' = heap_of a b ->
  holdU a' || holdI b' = holdU a || holdI b ->
  gone a' = gone a -> made b' = made b ->
  (forall idx rest, scan_of b' = Some (idx, rest) ->
     (exists sh, shard_at i σ = Some sh /\ idx = TABLE_IDX h (capacity sh)) /\
     (forall c, c ∈ rest -> is_Some (heap σ !! c))) ->
  (forall idx rest, a' = U_dec -> b' = I_scan idx rest -> s ∈ rest) ->
  cinv a' b' σ.
Proof.
  intros Hc Ht Hh Hmu Hg Hm Hscan Hpend. constructor.
  - done.
  - apply Hc.
  - apply Hc.
  - rewrite Hh. apply Hc.
  - intros j sh Hj. unfold mu_of. rewrite Hmu. by apply (ci_mu _ _ _ Hc).
  - rewrite Hm, Hg. apply Hc.
  - done.
  - done.
  - rewrite Hm, Hg. apply Hc.
Qed.

(** The scan goes on in the rest of the chain. *)
Lemma scan_rest a b σ idx (rest0 rest : list addr) :
  cinv a b σ -> scan_of b = Some (idx, rest0) ->
  (forall c, c ∈ rest -> c ∈ rest0) ->
  (exists sh, shard_at i σ = Some sh /\ idx = TABLE_IDX h (capacity sh)) /\
  (forall c, c ∈ rest -> is_Some (heap σ !! c)).
Proof.
  intros Hc Hsc Hsub. destruct (ci_scan _ _ _ Hc idx rest0 Hsc) as [Hsh Hin].
  split; [done|]. intros c Hc'. apply Hin. by apply Hsub.
Qed.

(** A step that writes the counter of [s]. *)
Lemma cinv_counter a b a' b' σ v :
  cinv a b σ -> together a' b' = true ->
  gone a = false -> gone a' = false -> made b' = made b ->
  v = counter a' b' ->
  holdU a' || holdI b' = holdU a || holdI b ->
  (forall idx rest, scan_of b' = Some (idx, rest) ->
     exists rest0, scan_of b = Some (idx, rest0) /\ forall c, c ∈ rest -> c ∈ rest0) ->
  (forall idx rest, a' = U_dec -> b' = I_scan idx rest -> s ∈ rest) ->
  cinv a' b' (set_heap (<[s := set_refcnt v r]> (heap σ)) σ).
Proof.
  intros Hc Ht Hg Hg' Hm -> Hmu Hscan Hpend.
  pose proof (ci_heap _ _ _ Hc) as Hh.
  assert (heap σ !! s = Some (set_refcnt (counter a b) r)) as Hl
    by (rewrite Hh; by apply heap_of_s).
  constructor.
  - done.
  - destruct (ci_static _ _ _ Hc) as (?&?&?&?&?). by repeat split.
  - apply (wf_ext σ); [|apply Hc].
    apply (same_tables_set_refcnt s _ (counter a' b') σ Hl).
  - rewrite heap_set_heap, Hh. unfold heap_of, with_made.
    rewrite Hg, Hg', Hm. by rewrite insert_insert_eq.
  - intros j sh Hj. unfold mu_of. rewrite Hmu. by apply (ci_mu _ _ _ Hc).
  - intros n E. rewrite Hm in E. destruct (ci_made _ _ _ Hc n E) as [? Hn].
    split; [done|]. intros _. by apply Hn.
  - intros idx rest Hsc. destruct (Hscan idx rest Hsc) as (rest0 & Hsc0 & Hsub).
    destruct (scan_rest a b σ idx rest0 rest Hc Hsc0 Hsub) as [Hsh Hin].
    split; [done|]. intros c Hc'. rewrite heap_set_heap.
    apply lookup_insert_is_Some'. right. by apply Hin.
  - done.
  - destruct (ci_trace _ _ _ Hc) as (evs & Htr & _ & Hmal).
    exists evs. split; [done|]. split; [congruence|]. by rewrite Hm.
Qed.

(** A step that takes or gives back the mutex of the shard. *)
Lemma cinv_mutex a b a' b' σ sh m e :
  cinv a b σ -> together a' b' = true ->
  shard_at i σ = Some sh ->
  m = (if holdU a' || holdI b' then MuLocked else MuUnlocked) ->
  heap_of a' b' = heap_of a b ->
  gone a' = gone a -> made b' = made b ->
  scan_of b' = None ->
  cinv a' b' (emit e (set_shard i (set_mu m sh) σ)).
Proof.
  intros Hc Ht Hsh -> Hh Hg Hm Hsc. constructor.
  - done.
  - destruct (ci_static _ _ _ Hc) as (?&?&?&?&?). by repeat split.
  - apply (wf_ext σ); [|apply Hc].
    eapply same_tables_trans; [by apply same_tables_set_mu|apply same_tables_emit].
  - rewrite heap_emit, heap_set_shard, Hh. apply Hc.
  - rewrite g_shards_emit, g_shards_set_shard.
    apply (mu_insert a b); [apply Hc|done].
  - rewrite Hm, Hg. apply Hc.
  - intros idx rest E. congruence.
  - intros idx rest _ E. subst b'. done.
  - destruct (ci_trace _ _ _ Hc) as (evs & Htr & Hfree & Hmal).
    exists (e :: evs). rewrite trace_emit, trace_set_shard. split.
    + by rewrite Htr.
    + rewrite Hg, Hm. split.
      * intros E. right. by apply Hfree.
      * intros n E. right. by apply Hmal.
Qed.

Lemma step_no_fault {A : Type} (p : prog A) σ x :
  step p σ = Some x -> faults p σ = false.
Proof.
  destruct p as [a|X act k]; [done|]. cbn [step faults].
  by destruct (act σ).
Qed.

(** *** The steps of [interned_slice_unref] *)

Lemma step_U_dec b σ :
  cinv U_dec b σ ->
  exists a' σ', step (unref_at U_dec) σ = Some (unref_at a', σ') /\ cinv a' b σ' /\
    a' <> U_dec /\ (a' = U_hash \/ a' = U_kept).
Proof.
  intros Hc. pose proof (ci_together _ _ _ Hc) as Ht.
  pose proof (ci_heap _ _ _ Hc) as Hh.
  assert (heap σ !! s = Some (set_refcnt (counter U_dec b) r)) as Hl
    by (rewrite Hh; by apply heap_of_s).
  cbn [unref_at]. unfold interned_slice_unref. cbn [step].
  unfold gpr_atm_fetch_add. rewrite Hl. cbn [refcnt set_refcnt].
  destruct (extra b) eqn:He.
  - assert (counter U_dec b = 2) as -> by (unfold counter; cbn [started]; by rewrite He).
    exists U_kept. eexists. rewrite decide_False by done.
    split; [reflexivity|]. split; [|split; [done|by right]].
    apply (cinv_counter U_dec b U_kept b σ (gpr_atm (2 + -1))); try done.
    + by destruct b.
    + unfold counter. cbn [started]. by rewrite He.
    + intros idx rest E. by exists rest.
  - assert (counter U_dec b = 1) as -> by (unfold counter; cbn [started]; by rewrite He).
    exists U_hash. eexists. rewrite decide_True by done.
    split; [reflexivity|]. split; [|split; [done|by left]].
    apply (cinv_counter U_dec b U_hash b σ (gpr_atm (1 + -1))); try done.
    + by destruct b.
    + unfold counter. cbn [started]. by rewrite He.
    + intros idx rest E. by exists rest.
Qed.

Lemma step_U_hash b σ :
  cinv U_hash b σ ->
  step (unref_at U_hash) σ = Some (unref_at U_lock, σ) /\ cinv U_lock b σ.
Proof.
  intros Hc. pose proof (ci_together _ _ _ Hc) as Ht.
  pose proof (ci_heap _ _ _ Hc) as Hh.
  assert (heap σ !! s = Some (set_refcnt (counter U_hash b) r)) as Hl
    by (rewrite Hh; by apply heap_of_s).
  split.
  - cbn [unref_at]. unfold interned_slice_destroy. cbn [step]. unfold read.
    by rewrite Hl.
  - apply (cinv_relabel U_hash b); try done; try (by destruct b).
    intros idx rest E. by apply (scan_rest U_hash b σ idx rest rest).
Qed.

(** The mutex: taken when the other thread does not hold it. *)
Lemma step_U_lock b σ :
  cinv U_lock b σ ->
  (holdI b = true /\ gpr_mu_lock i σ = Block) \/
  (exists σ', step (unref_at U_lock) σ = Some (unref_at U_load, σ') /\
     cinv U_load b σ').
Proof.
  intros Hc. pose proof (ci_together _ _ _ Hc) as Ht.
  destruct (cinv_shard _ _ _ Hc) as (sh & Hsh & Hmu).
  rewrite mu_of_here in Hmu. cbn [holdU orb] in Hmu.
  cbn [unref_at step]. unfold gpr_mu_lock. rewrite Hsh, Hmu.
  destruct (holdI b) eqn:Hb; [by left|]. right. eexists. split; [reflexivity|].
  apply (cinv_mutex U_lock b U_load b); try done; by destruct b.
Qed.

Lemma together_held a b :
  together a b = true -> holdU a = true ->
  holdI b = false /\ extra b = false /\ scan_of b = None.
Proof. by destruct a, b. Qed.

Lemma step_U_load b σ :
  cinv U_load b σ ->
  step (unref_at U_load) σ = Some (unref_at U_check, σ) /\ cinv U_check b σ.
Proof.
  intros Hc. pose proof (ci_together _ _ _ Hc) as Ht.
  destruct (together_held _ _ Ht eq_refl) as (Hb & He & Hsc).
  pose proof (ci_heap _ _ _ Hc) as Hh.
  assert (heap σ !! s = Some (set_refcnt 0 r)) as Hl.
  { rewrite Hh, heap_of_s by done. unfold counter. cbn [started]. by rewrite He. }
  split.
  - cbn [unref_at]. unfold destroy_locked. cbn [step].
    unfold gpr_atm_no_barrier_load, read. by rewrite Hl.
  - apply (cinv_relabel U_load b); try done; try (by destruct b);
      intros idx rest E; congruence.
Qed.

Lemma step_U_check b σ :
  cinv U_check b σ ->
  step (unref_at U_check) σ = Some (unref_at U_unlink, σ) /\ cinv U_unlink b σ.
Proof.
  intros Hc. pose proof (ci_together _ _ _ Hc) as Ht.
  destruct (together_held _ _ Ht eq_refl) as (Hb & He & Hsc).
  split; [done|].
  apply (cinv_relabel U_check b); try done; try (by destruct b);
    intros idx rest E; congruence.
Qed.

Lemma step_U_unlink b σ :
  cinv U_unlink b σ ->
  exists σ', step (unref_at U_unlink) σ = Some (unref_at U_unlock, σ') /\
    cinv U_unlock b σ'.
Proof.
  intros Hc. pose proof (ci_together _ _ _ Hc) as Ht.
  destruct (together_held _ _ Ht eq_refl) as (Hb & He & Hsc).
  pose proof (ci_heap _ _ _ Hc) as Hh.
  assert (heap σ !! s = Some (set_refcnt 0 r)) as Hl.
  { rewrite Hh, heap_of_s by done. unfold counter. cbn [started]. by rewrite He. }
  destruct (cinv_shard _ _ _ Hc) as (sh & Hsh & Hmu).
  destruct (destroy_unlink_spec σ s (set_refcnt 0 r) sh (ci_wf _ _ _ Hc) Hl Hsh)
    as (chain & chain' & Hchain & Hun & Hrun & Hwf' & _).
  cbn [hash set_refcnt] in Hrun, Hwf'.
  eexists. split; [cbn [unref_at step]; by rewrite Hrun|].
  constructor.
  - by destruct b.
  - destruct (ci_static _ _ _ Hc) as (?&?&?&?&?). by repeat split.
  - exact Hwf'.
  - rewrite heap_emit, heap_set_shard, heap_set_heap, Hh.
    unfold heap_of, with_made. cbn [gone]. rewrite delete_insert_eq.
    destruct (made b) as [n|] eqn:Hm; [|done].
    destruct (ci_made _ _ _ Hc n Hm) as [_ Hn].
    rewrite delete_insert_ne; [done|]. intros E. by apply Hn.
  - rewrite g_shards_emit, g_shards_set_shard, g_shards_set_heap.
    apply (mu_insert U_unlink b); [apply Hc|]. cbn [mu holdU orb].
    rewrite Hmu, mu_of_here. done.
  - intros n Hm. destruct (ci_made _ _ _ Hc n Hm) as [? _]. by split.
  - intros idx rest E. congruence.
  - done.
  - destruct (ci_trace _ _ _ Hc) as (evs & Htr & _ & Hmal).
    exists (EvFree s :: evs). rewrite trace_emit, trace_set_shard, trace_set_heap.
    split; [by rewrite Htr|]. split; [intros _; left|].
    intros n Hm. right. by apply Hmal.
Qed.

Lemma step_U_unlock b σ :
  cinv U_unlock b σ ->
  exists σ', step (unref_at U_unlock) σ = Some (unref_at U_gone, σ') /\
    cinv U_gone b σ'.
Proof.
  intros Hc. pose proof (ci_together _ _ _ Hc) as Ht.
  destruct (together_held _ _ Ht eq_refl) as (Hb & He & Hsc).
  destruct (cinv_shard _ _ _ Hc) as (sh & Hsh & Hmu).
  rewrite mu_of_here in Hmu. cbn [holdU orb] in Hmu.
  cbn [unref_at step]. unfold gpr_mu_unlock. rewrite Hsh, Hmu.
  eexists. split; [reflexivity|].
  apply (cinv_mutex U_unlock b U_gone b); try done; try (by destruct b);
    cbn [holdU orb]; by rewrite Hb.
Qed.

(** *** The steps of [grpc_slice_intern] *)

Lemma hash_data σ : same_static σ0 σ -> grpc_slice_default_hash_impl σ data = h.
Proof.
  intros Hst. rewrite (default_hash_same σ0 σ) by done.
  symmetry. apply record_r.
Qed.

(** Lines 201-209: the bytes are those of a record, so the probe of the
    static table finds nothing. *)
Lemma query_ok a σ :
  cinv a I_query σ -> static_query slice σ = Some (h, data, None).
Proof.
  intros Hc. pose proof (ci_static _ _ _ Hc) as Hst.
  pose proof (ci_wf _ _ _ Hc) as Hwf.
  assert (static_ok σ) as Hok by (apply (static_ok_same σ0); [done|apply Hinv]).
  assert (slice_data σ slice = Some data) as Hd.
  { destruct slice as [d|k|k o l|s2 off len|c d]; try done.
    assert (s2 <> s) as Hne by (intros ->; by apply (Hother off len)).
    unfold slice_data in *. rewrite (ci_heap _ _ _ Hc).
    by rewrite heap_of_other. }
  destruct (static_query_eq σ slice data Hok Hwf Hns Hd) as (probe & Hp & Hq).
  rewrite hash_data in Hp, Hq by done.
  rewrite (static_lookup_same σ0 σ) in Hp by done.
  rewrite (inv_static_miss σ0 Hinv s r Hs) in Hp. by injection Hp as <-.
Qed.

Lemma step_I_query a σ :
  cinv a I_query σ ->
  step (intern_at I_query) σ = Some (intern_at I_lock, σ) /\ cinv a I_lock σ.
Proof.
  intros Hc. split.
  - cbn [intern_at]. unfold grpc_slice_intern. rewrite Hns. cbn [step].
    unfold read. by rewrite (query_ok a σ Hc).
  - apply (cinv_relabel a I_query); try done; apply Hc.
Qed.

Lemma step_I_lock a σ :
  cinv a I_lock σ ->
  (holdU a = true /\ gpr_mu_lock i σ = Block) \/
  (exists σ', step (intern_at I_lock) σ = Some (intern_at I_bucket, σ') /\
     cinv a I_bucket σ').
Proof.
  intros Hc. pose proof (ci_together _ _ _ Hc) as Ht.
  destruct (cinv_shard _ _ _ Hc) as (sh & Hsh & Hmu).
  rewrite mu_of_here in Hmu. cbn [holdI] in Hmu. rewrite orb_false_r in Hmu.
  cbn [intern_at]. unfold intern_dynamic. cbn [step].
  unfold gpr_mu_lock. rewrite Hsh, Hmu.
  destruct (holdU a) eqn:Ha; [by left|]. right. eexists. split; [reflexivity|].
  apply (cinv_mutex a I_lock a I_bucket); try done; by destruct a.
Qed.

Lemma step_I_bucket a σ :
  cinv a I_bucket σ ->
  exists idx chain,
    step (intern_at I_bucket) σ = Some (intern_at (I_scan idx chain), σ) /\
    cinv a (I_scan idx chain) σ.
Proof.
  intros Hc. pose proof (ci_together _ _ _ Hc) as Ht.
  pose proof (ci_wf _ _ _ Hc) as Hwf.
  destruct (home_chain_exists σ h Hwf) as (sh & chain & Hsh & Hchain & Hhome).
  pose proof (wf_shard_at σ i sh Hwf ltac:(pose proof (SHARD_IDX_range h); lia) Hsh)
    as Hok.
  pose proof (so_cap _ _ _ Hok) as Hcap.
  exists (TABLE_IDX h (capacity sh)), chain. split.
  - cbn [intern_at step]. unfold read, intern_bucket. rewrite Hsh.
    rewrite decide_False by lia. by rewrite Hchain.
  - apply (cinv_relabel a I_bucket); try done.
    + intros idx rest [= <- <-]. split; [by exists sh|].
      intros c Hin. pose proof (TABLE_IDX_range h (capacity sh) ltac:(lia)) as Hr.
      destruct (so_home _ _ _ Hok (Z.to_nat (TABLE_IDX h (capacity sh))) chain c
                  Hchain Hin) as (rc & Hrc & _).
      by exists rc.
    + intros idx rest -> [= _ <-].
      assert (heap σ !! s = Some (set_refcnt (counter U_dec I_bucket) r)) as Hl
        by (rewrite (ci_heap _ _ _ Hc); by apply heap_of_s).
      destruct (wf_linked σ Hwf s _ Hl) as (chain' & Hhome' & Hin).
      cbn [hash set_refcnt] in Hhome'. congruence.
Qed.

(** A record of the chain that holds the bytes looked for is [s]: the
    store held them once. *)
Lemma match_is_s a b σ c rc :
  cinv a b σ -> made b = None -> heap σ !! c = Some rc -> data = bytes rc -> c = s.
Proof.
  intros Hc Hm Hrc Hb. destruct (decide (c = s)) as [|Hne]; [done|].
  rewrite (ci_heap _ _ _ Hc), heap_of_other in Hrc by done.
  apply (inv_canonical σ0 Hinv c rc s r); try done.
  - pose proof (inv_live σ0 Hinv c rc Hrc). lia.
  - lia.
Qed.

Lemma step_I_scan_cons a σ idx c rest :
  cinv a (I_scan idx (c :: rest)) σ ->
  exists b',
    step (intern_at (I_scan idx (c :: rest))) σ = Some (intern_at b', σ) /\
    cinv a b' σ /\ (b' = I_try idx rest \/ b' = I_scan idx rest).
Proof.
  intros Hc. pose proof (ci_together _ _ _ Hc) as Ht.
  pose proof (ci_wf _ _ _ Hc) as Hwf.
  destruct (ci_scan _ _ _ Hc idx (c :: rest) eq_refl) as [Hsh Hin].
  destruct (Hin c) as [rc Hrc]; [left|].
  destruct (wf_record σ Hwf c rc Hrc) as [Hlen _].
  cbn [intern_at intern_scan]. unfold intern_visit. cbn [step]. unfold read.
  rewrite (slice_matches_ok σ c rc h data Hrc Hlen).
  destruct (bool_decide (hash rc = h) && bool_decide (data = bytes rc)) eqn:Hm.
  - apply andb_prop in Hm as [_ Hb%bool_decide_eq_true].
    assert (c = s) as -> by (by apply (match_is_s a (I_scan idx (c :: rest)) σ c rc)).
    exists (I_try idx rest). split; [done|]. split; [|by left].
    assert (gone a = false) as Hg.
    { destruct (gone a) eqn:Hg; [|done].
      rewrite (ci_heap _ _ _ Hc), heap_of_gone in Hrc by done. done. }
    apply (cinv_relabel a (I_scan idx (s :: rest))); try done.
    + by destruct a.
    + intros idx' rest' [= <- <-].
      apply (scan_rest a (I_scan idx (s :: rest)) σ idx (s :: rest) rest); try done.
      intros c' ?. by right.
  - exists (I_scan idx rest). split; [done|]. split; [|by right].
    apply (cinv_relabel a (I_scan idx (c :: rest))); try done.
    + intros idx' rest' [= <- <-].
      apply (scan_rest a (I_scan idx (c :: rest)) σ idx (c :: rest) rest); try done.
      intros c' ?. by right.
    + intros idx' rest' -> [= _ <-].
      pose proof (ci_pending _ _ _ Hc idx (c :: rest) eq_refl eq_refl) as Hp.
      apply elem_of_cons in Hp as [<-|Hp]; [|done]. exfalso.
      rewrite (ci_heap _ _ _ Hc), heap_of_s in Hrc by done.
      injection Hrc as <-. cbn [hash bytes set_refcnt] in Hm.
      by rewrite !bool_decide_eq_true_2 in Hm.
Qed.

Lemma step_I_scan_nil a σ idx :
  cinv a (I_scan idx []) σ ->
  exists n σ',
    step (intern_at (I_scan idx [])) σ = Some (intern_at (I_new_unlock n), σ') /\
    cinv a (I_new_unlock n) σ'.
Proof.
  intros Hc. pose proof (ci_together _ _ _ Hc) as Ht.
  pose proof (ci_wf _ _ _ Hc) as Hwf.
  pose proof (ci_heap _ _ _ Hc) as Hh.
  assert (a <> U_dec) as Hna.
  { intros ->. by apply (elem_of_nil s), (ci_pending _ _ _ Hc idx []). }
  destruct (ci_scan _ _ _ Hc idx [] eq_refl) as [(sh & Hsh & Hidx) _].
  destruct (cinv_shard _ _ _ Hc) as (sh0 & Hsh0 & Hmu).
  assert (sh0 = sh) as -> by congruence.
  rewrite mu_of_here in Hmu. cbn [holdI] in Hmu. rewrite orb_true_r in Hmu.
  assert (Z.of_nat (size (heap σ)) < MAX_RECORDS) as Hsize.
  { rewrite Hh. pose proof (heap_of_size a (I_scan idx []) eq_refl). lia. }
  destruct (intern_create_spec σ h data sh Hwf Hsh Hsize)
    as (σ' & sh' & Hrun & Hwf' & Hst' & Hheap & Hshards & Hmu' & _ & _ & _ & Htr).
  { symmetry. apply hash_data, Hc. }
  set (n := fresh (dom (heap σ))) in *.
  assert (heap σ !! n = None) as Hfresh
    by (apply not_elem_of_dom; apply is_fresh).
  exists n, σ'. split.
  { cbn [intern_at intern_scan]. unfold intern_miss. cbn [step].
    rewrite Hidx, Hrun. done. }
  assert (gone a = false -> n <> s) as Hn.
  { intros Hg ->. rewrite Hh, heap_of_s in Hfresh by done. done. }
  assert (delete s (heap σ0) !! n = None) as Hd.
  { rewrite Hh in Hfresh. unfold heap_of, with_made in Hfresh.
    cbn [made] in Hfresh. destruct (gone a) eqn:Hg; [done|].
    apply lookup_delete_None. right.
    rewrite lookup_insert_ne in Hfresh; [done|]. intros E. by apply Hn. }
  constructor.
  - by destruct a.
  - eapply same_static_trans; [apply Hc|done].
  - done.
  - rewrite Hheap, Hh. unfold heap_of, with_made. cbn [made].
    destruct (gone a) eqn:Hg; [done|].
    rewrite insert_insert_ne by (intros E; by apply Hn).
    by destruct a.
  - rewrite Hshards. apply (mu_insert a (I_scan idx [])); [apply Hc|].
    cbn [holdI]. rewrite orb_true_r. congruence.
  - intros n' [= <-]. done.
  - done.
  - done.
  - destruct (ci_trace _ _ _ Hc) as (evs & Hevs & Hfree & _).
    eexists. rewrite Htr, Hevs. rewrite app_comm_cons, app_assoc.
    split; [reflexivity|]. split.
    + intros Hg. apply elem_of_app. right. right. by apply Hfree.
    + intros n' [= <-]. apply elem_of_app. right. left.
Qed.

Lemma step_I_try a σ idx rest :
  cinv a (I_try idx rest) σ ->
  exists b' σ',
    step (intern_at (I_try idx rest)) σ = Some (intern_at b', σ') /\
    cinv a b' σ' /\ (b' = I_cas idx rest \/ b' = I_hit_unlock).
Proof.
  intros Hc. pose proof (ci_together _ _ _ Hc) as Ht.
  pose proof (ci_heap _ _ _ Hc) as Hh.
  assert (gone a = false) as Hg by (by destruct a).
  assert (heap σ !! s = Some (set_refcnt (counter a (I_try idx rest)) r)) as Hl
    by (rewrite Hh; by apply heap_of_s).
  cbn [intern_at]. unfold intern_try. cbn [step].
  unfold gpr_atm_fetch_add. rewrite Hl. cbn [refcnt set_refcnt].
  destruct (started a) eqn:Hst.
  - assert (counter a (I_try idx rest) = 0) as ->
      by (unfold counter; cbn [extra]; by rewrite Hst).
    exists (I_cas idx rest). eexists. rewrite decide_True by done.
    split; [reflexivity|]. split; [|by left].
    apply (cinv_counter a (I_try idx rest) a (I_cas idx rest) σ (gpr_atm (0 + 1)));
      try done; try (by destruct a);
      try (unfold counter; cbn [extra]; by rewrite Hst).
    intros idx' rest' [= <- <-]. by exists rest.
  - assert (counter a (I_try idx rest) = 1) as ->
      by (unfold counter; cbn [extra]; by rewrite Hst).
    exists I_hit_unlock. eexists. rewrite decide_False by done.
    split; [reflexivity|]. split; [|by right].
    apply (cinv_counter a (I_try idx rest) a I_hit_unlock σ (gpr_atm (1 + 1)));
      try done; try (by destruct a);
      unfold counter; cbn [extra]; by rewrite Hst.
Qed.

(** Line 225: the counter is the 1 the increment has left, so the
    [gpr_atm_rel_cas] succeeds. *)
Lemma step_I_cas a σ idx rest :
  cinv a (I_cas idx rest) σ ->
  exists σ',
    gpr_atm_rel_cas s 1 0 σ = Ok true σ' /\
    step (intern_at (I_cas idx rest)) σ = Some (intern_at (I_check idx rest), σ') /\
    cinv a (I_check idx rest) σ'.
Proof.
  intros Hc. pose proof (ci_together _ _ _ Hc) as Ht.
  pose proof (ci_heap _ _ _ Hc) as Hh.
  assert (gone a = false) as Hg by (by destruct a).
  assert (started a = true) as Hst by (by destruct a).
  assert (heap σ !! s = Some (set_refcnt 1 r)) as Hl.
  { rewrite Hh, heap_of_s by done. unfold counter. cbn [extra]. by rewrite Hst. }
  assert (gpr_atm_rel_cas s 1 0 σ
            = Ok true (set_heap (<[s := set_refcnt 0 r]> (heap σ)) σ)) as Hcas.
  { unfold gpr_atm_rel_cas. rewrite Hl. cbn [refcnt set_refcnt].
    by rewrite decide_True. }
  eexists. split; [exact Hcas|]. split.
  - cbn [intern_at]. unfold intern_backout. cbn [step]. by rewrite Hcas.
  - apply (cinv_counter a (I_cas idx rest) a (I_check idx rest) σ 0);
      try done; try (by destruct a);
      try (unfold counter; cbn [extra]; by rewrite Hst).
    intros idx' rest' [= <- <-]. by exists rest.
Qed.

Lemma step_I_check a σ idx rest :
  cinv a (I_check idx rest) σ ->
  step (intern_at (I_check idx rest)) σ = Some (intern_at (I_scan idx rest), σ) /\
  cinv a (I_scan idx rest) σ.
Proof.
  intros Hc. pose proof (ci_together _ _ _ Hc) as Ht. split; [done|].
  apply (cinv_relabel a (I_check idx rest)); try done; try (by destruct a).
  intros idx' rest' [= <- <-].
  by apply (scan_rest a (I_check idx rest) σ idx rest rest).
Qed.

Lemma step_I_hit_unlock a σ :
  cinv a I_hit_unlock σ ->
  exists σ', step (intern_at I_hit_unlock) σ = Some (intern_at I_hit_ret, σ') /\
    cinv a I_hit_ret σ'.
Proof.
  intros Hc. pose proof (ci_together _ _ _ Hc) as Ht.
  destruct (cinv_shard _ _ _ Hc) as (sh & Hsh & Hmu).
  rewrite mu_of_here in Hmu. cbn [holdI] in Hmu. rewrite orb_true_r in Hmu.
  cbn [intern_at]. unfold intern_hit. cbn [step].
  unfold gpr_mu_unlock. rewrite Hsh, Hmu.
  eexists. split; [reflexivity|].
  apply (cinv_mutex a I_hit_unlock a I_hit_ret); try done; by destruct a.
Qed.

Lemma step_I_hit_ret a σ :
  cinv a I_hit_ret σ ->
  step (intern_at I_hit_ret) σ = Some (intern_at I_hit_done, σ) /\
  cinv a I_hit_done σ.
Proof.
  intros Hc. pose proof (ci_together _ _ _ Hc) as Ht.
  assert (gone a = false) as Hg by (by destruct a).
  assert (heap σ !! s = Some (set_refcnt (counter a I_hit_ret) r)) as Hl
    by (rewrite (ci_heap _ _ _ Hc); by apply heap_of_s).
  split.
  - cbn [intern_at]. unfold intern_return. cbn [step].
    unfold materialize, read. by rewrite Hl.
  - apply (cinv_relabel a I_hit_ret); try done; apply Hc.
Qed.

Lemma step_I_new_unlock a σ n :
  cinv a (I_new_unlock n) σ ->
  exists σ', step (intern_at (I_new_unlock n)) σ = Some (intern_at (I_new_ret n), σ') /\
    cinv a (I_new_ret n) σ'.
Proof.
  intros Hc. pose proof (ci_together _ _ _ Hc) as Ht.
  destruct (cinv_shard _ _ _ Hc) as (sh & Hsh & Hmu).
  rewrite mu_of_here in Hmu. cbn [holdI] in Hmu. rewrite orb_true_r in Hmu.
  cbn [intern_at step]. unfold gpr_mu_unlock. rewrite Hsh, Hmu.
  eexists. split; [reflexivity|].
  apply (cinv_mutex a (I_new_unlock n) a (I_new_ret n)); try done;
    by destruct a.
Qed.

Lemma step_I_new_ret a σ n :
  cinv a (I_new_ret n) σ ->
  step (intern_at (I_new_ret n)) σ = Some (intern_at (I_new_done n), σ) /\
  cinv a (I_new_done n) σ.
Proof.
  intros Hc. pose proof (ci_together _ _ _ Hc) as Ht.
  assert (heap σ !! n = Some r') as Hl.
  { rewrite (ci_heap _ _ _ Hc). apply heap_of_made; [done|].
    by apply (ci_made _ _ _ Hc). }
  split.
  - cbn [intern_at]. unfold intern_return. cbn [step].
    unfold materialize, read. by rewrite Hl.
  - apply (cinv_relabel a (I_new_ret n)); try done; apply Hc.
Qed.

(** *** Every interleaving *)

(** The last reference is released: the release is past its decrement and
    on its way to the removal. *)
Definition dying (a : upoint) : bool :=
  match a with U_dec | U_kept => false | _ => true end.

Lemma returned_no_step {A : Type} (p : prog A) σ :
  returned p = true -> step p σ = None.
Proof. by destruct p. Qed.

Lemma block_no_fault {A X : Type} (act : state -> res X) (k : X -> prog A) σ :
  act σ = Block -> faults (Atomic act k) σ = false /\ step (Atomic act k) σ = None.
Proof. intros E. cbn [faults step]. by rewrite E. Qed.

(** The next action of the release: it has returned, it waits for the
    mutex that the lookup holds, or it takes a step. *)
Lemma unref_turn a b σ :
  cinv a b σ ->
  faults (unref_at a) σ = false /\
  ((returned (unref_at a) = true /\ holdU a = false) \/
   (holdI b = true /\ step (unref_at a) σ = None) \/
   (exists a' σ', step (unref_at a) σ = Some (unref_at a', σ') /\
      cinv a' b σ' /\ (dying a = true -> dying a' = true))).
Proof.
  intros Hc. destruct a.
  - destruct (step_U_dec b σ Hc) as (a' & σ' & Hst & Hc' & Hne & _).
    split; [by eapply step_no_fault|]. right. right. by exists a', σ'.
  - destruct (step_U_hash b σ Hc) as [Hst Hc'].
    split; [by eapply step_no_fault|]. right. right. by exists U_lock, σ.
  - destruct (step_U_lock b σ Hc) as [[Hb Hblock]|(σ' & Hst & Hc')].
    + destruct (block_no_fault (A := unit) (gpr_mu_lock i)
                  (fun _ => destroy_locked i s) σ Hblock) as [Hf Hn].
      split; [done|]. right. by left.
    + split; [by eapply step_no_fault|]. right. right. by exists U_load, σ'.
  - destruct (step_U_load b σ Hc) as [Hst Hc'].
    split; [by eapply step_no_fault|]. right. right. by exists U_check, σ.
  - destruct (step_U_check b σ Hc) as [Hst Hc'].
    split; [by eapply step_no_fault|]. right. right. by exists U_unlink, σ.
  - destruct (step_U_unlink b σ Hc) as (σ' & Hst & Hc').
    split; [by eapply step_no_fault|]. right. right. by exists U_unlock, σ'.
  - destruct (step_U_unlock b σ Hc) as (σ' & Hst & Hc').
    split; [by eapply step_no_fault|]. right. right. by exists U_gone, σ'.
  - split; [done|]. by left.
  - split; [done|]. by left.
Qed.

(** The next action of the lookup. *)
Lemma intern_turn a b σ :
  cinv a b σ ->
  faults (intern_at b) σ = false /\
  ((returned (intern_at b) = true /\ holdI b = false /\
      (b = I_hit_done \/ exists n, b = I_new_done n)) \/
   (holdU a = true /\ step (intern_at b) σ = None /\
      returned (intern_at b) = false) \/
   (exists b' σ', step (intern_at b) σ = Some (intern_at b', σ') /\ cinv a b' σ')).
Proof.
  intros Hc. destruct b as [| | |idx rest|idx rest|idx rest|idx rest| | | |n|n|n].
  - destruct (step_I_query a σ Hc) as [Hst Hc'].
    split; [by eapply step_no_fault|]. right. right. by exists I_lock, σ.
  - destruct (step_I_lock a σ Hc) as [[Ha Hblock]|(σ' & Hst & Hc')].
    + destruct (block_no_fault (A := grpc_slice) (gpr_mu_lock i)
                  (fun _ => Atomic (read (intern_bucket i h)) (fun b =>
                     intern_scan i (fst b) h data (snd b))) σ Hblock) as [Hf Hn].
      split; [done|]. right. by left.
    + split; [by eapply step_no_fault|]. right. right. by exists I_bucket, σ'.
  - destruct (step_I_bucket a σ Hc) as (idx & chain & Hst & Hc').
    split; [by eapply step_no_fault|]. right. right. by exists (I_scan idx chain), σ.
  - destruct rest as [|c rest].
    + destruct (step_I_scan_nil a σ idx Hc) as (n & σ' & Hst & Hc').
      split; [by eapply step_no_fault|]. right. right. by exists (I_new_unlock n), σ'.
    + destruct (step_I_scan_cons a σ idx c rest Hc) as (b' & Hst & Hc' & _).
      split; [by eapply step_no_fault|]. right. right. by exists b', σ.
  - destruct (step_I_try a σ idx rest Hc) as (b' & σ' & Hst & Hc' & _).
    split; [by eapply step_no_fault|]. right. right. by exists b', σ'.
  - destruct (step_I_cas a σ idx rest Hc) as (σ' & _ & Hst & Hc').
    split; [by eapply step_no_fault|]. right. right. by exists (I_check idx rest), σ'.
  - destruct (step_I_check a σ idx rest Hc) as [Hst Hc'].
    split; [by eapply step_no_fault|]. right. right. by exists (I_scan idx rest), σ.
  - destruct (step_I_hit_unlock a σ Hc) as (σ' & Hst & Hc').
    split; [by eapply step_no_fault|]. right. right. by exists I_hit_ret, σ'.
  - destruct (step_I_hit_ret a σ Hc) as [Hst Hc'].
    split; [by eapply step_no_fault|]. right. right. by exists I_hit_done, σ.
  - split; [done|]. left. split; [done|]. split; [done|]. by left.
  - destruct (step_I_new_unlock a σ n Hc) as (σ' & Hst & Hc').
    split; [by eapply step_no_fault|]. right. right. by exists (I_new_ret n), σ'.
  - destruct (step_I_new_ret a σ n Hc) as [Hst Hc'].
    split; [by eapply step_no_fault|]. right. right. by exists (I_new_done n), σ.
  - split; [done|]. left. split; [done|]. split; [done|]. right. by exists n.
Qed.

(** The invariant holds along every interleaving. *)
Lemma cinv_interleave order : forall a b σ p q σ',
  cinv a b σ ->
  interleave order (unref_at a, intern_at b, σ) = Some (p, q, σ') ->
  exists a' b', p = unref_at a' /\ q = intern_at b' /\ cinv a' b' σ' /\
    (dying a = true -> dying a' = true).
Proof.
  induction order as [|first order IH]; intros a b σ p q σ' Hc Hrun.
  { injection Hrun as <- <- <-. by exists a, b. }
  cbn [interleave turn] in Hrun. destruct first.
  - destruct (unref_turn a b σ Hc) as [_ [[Hret _]|[[_ Hn]|(a' & σ1 & Hst & Hc' & Hd)]]].
    + by rewrite (returned_no_step _ σ Hret) in Hrun.
    + by rewrite Hn in Hrun.
    + rewrite Hst in Hrun.
      destruct (IH a' b σ1 p q σ' Hc' Hrun) as (a2 & b2 & -> & -> & Hc2 & Hd2).
      exists a2, b2. split; [done|]. split; [done|]. split; [done|].
      intros E. by apply Hd2, Hd.
  - destruct (intern_turn a b σ Hc)
      as [_ [[Hret _]|[(_ & Hn & _)|(b' & σ1 & Hst & Hc')]]].
    + by rewrite (returned_no_step _ σ Hret) in Hrun.
    + by rewrite Hn in Hrun.
    + rewrite Hst in Hrun.
      destruct (IH a b' σ1 p q σ' Hc' Hrun) as (a2 & b2 & -> & -> & Hc2 & Hd2).
      by exists a2, b2.
Qed.

Lemma guard_points order p q σ' :
  interleave order (interned_slice_unref s, grpc_slice_intern slice, σ0)
    = Some (p, q, σ') ->
  exists a b, p = unref_at a /\ q = intern_at b /\ cinv a b σ'.
Proof.
  intros Hrun.
  destruct (cinv_interleave order U_dec I_query σ0 p q σ' cinv_init Hrun)
    as (a & b & ? & ? & ? & _).
  by exists a, b.
Qed.

(** Some thread can go on until both have returned. *)
Lemma cinv_progress a b σ :
  cinv a b σ ->
  returned (unref_at a) && returned (intern_at b) = false ->
  exists first c, turn first (unref_at a, intern_at b, σ) = Some c.
Proof.
  intros Hc Hnot. pose proof (ci_together _ _ _ Hc) as Ht.
  destruct (unref_turn a b σ Hc) as [_ [[Hra Hha]|[[Hb Hn]|(a' & σ1 & Hst & _)]]];
    [| |exists true; eexists; cbn [turn]; by rewrite Hst].
  - destruct (intern_turn a b σ Hc) as [_ [[Hrb _]|[[Ha _]|(b' & σ1 & Hst & _)]]].
    + by rewrite Hra, Hrb in Hnot.
    + congruence.
    + exists false. eexists. cbn [turn]. by rewrite Hst.
  - destruct (intern_turn a b σ Hc) as [_ [[_ [Hhb _]]|[[Ha _]|(b' & σ1 & Hst & _)]]].
    + congruence.
    + destruct (together_held a b Ht Ha) as [? _]. congruence.
    + exists false. eexists. cbn [turn]. by rewrite Hst.
Qed.

(** The slice the lookup returns is the whole of a record that is in the
    store, holds the bytes and is referenced. *)
Lemma cinv_result a b σ res :
  cinv a b σ -> intern_at b = Ret res ->
  exists n rec, res = slice_interned n 0 (rlength rec) /\
    heap σ !! n = Some rec /\ bytes rec = data /\
    rlength rec = Z.of_nat (List.length data) /\ 0 < refcnt rec.
Proof.
  intros Hc Hret. pose proof (ci_together _ _ _ Hc) as Ht.
  destruct (intern_turn a b σ Hc)
    as [_ [[_ [_ [->|[n ->]]]]|[(_ & _ & Hn)|(b' & σ1 & Hst & _)]]].
  - injection Hret as <-. assert (gone a = false) as Hg by (by destruct a).
    exists s, (set_refcnt (counter a I_hit_done) r).
    split; [done|]. split; [rewrite (ci_heap _ _ _ Hc); by apply heap_of_s|].
    split; [done|]. split; [apply record_r|]. by destruct a.
  - injection Hret as <-. exists n, r'. split; [done|].
    split; [|done]. rewrite (ci_heap _ _ _ Hc). apply heap_of_made; [done|].
    by apply (ci_made _ _ _ Hc).
  - rewrite Hret in Hn. done.
  - rewrite Hret in Hst. done.
Qed.

(** A counter of 0 on record [s]: the release is on its way to the
    removal. *)
Lemma cinv_dying a b σ r0 :
  cinv a b σ -> heap σ !! s = Some r0 -> refcnt r0 = 0 -> dying a = true.
Proof.
  intros Hc Hl H0. pose proof (ci_together _ _ _ Hc) as Ht.
  rewrite (ci_heap _ _ _ Hc) in Hl. destruct (gone a) eqn:Hg.
  - unfold heap_of, with_made in Hl. rewrite Hg in Hl.
    destruct (made b) as [n|] eqn:Hm.
    + destruct (decide (n = s)) as [->|Hne].
      * rewrite lookup_insert_eq in Hl. injection Hl as <-. done.
      * rewrite lookup_insert_ne, lookup_delete_eq in Hl by done. done.
    + by rewrite lookup_delete_eq in Hl.
  - rewrite heap_of_s in Hl by done. injection Hl as <-.
    cbn [refcnt set_refcnt] in H0. by destruct a, b.
Qed.

(** After a counter of 0 the lookup returns a record that it has created,
    and the release, once it has returned, has freed [s]. *)
Lemma cinv_fresh a b σ res :
  cinv a b σ -> dying a = true -> intern_at b = Ret res ->
  exists n evs, res = slice_interned n 0 (rlength r) /\
    trace σ = evs ++ trace σ0 /\ EvMalloc n ∈ evs /\
    heap σ !! n = Some (mk_refcount (rlength r) 1 h data) /\
    (returned (unref_at a) = true -> EvFree s ∈ evs /\ a = U_gone).
Proof.
  intros Hc Hd Hret. pose proof (ci_together _ _ _ Hc) as Ht.
  destruct (proj1 record_r).
  destruct (intern_turn a b σ Hc)
    as [_ [[_ [_ [->|[n ->]]]]|[(_ & _ & Hn)|(b' & σ1 & Hst & _)]]].
  - by destruct a.
  - injection Hret as <-.
    destruct (ci_trace _ _ _ Hc) as (evs & Htr & Hfree & Hmal).
    exists n, evs. split; [by rewrite (proj1 record_r)|]. split; [done|].
    split; [by apply Hmal|]. split.
    + rewrite (ci_heap _ _ _ Hc), (proj1 record_r). apply heap_of_made; [done|].
      by apply (ci_made _ _ _ Hc).
    + intros Hr. assert (a = U_gone) as -> by (by destruct a).
      split; [by apply Hfree|done].
  - rewrite Hret in Hn. done.
  - rewrite Hret in Hst. done.
Qed.

(** *** Both calls return *)

(** The lookup, left to run on its own, returns. *)
Definition intern_returns (a : upoint) (b : ipoint) (σ : state) : Prop :=
  exists l b' σ',
    interleave l (unref_at a, intern_at b, σ) = Some (unref_at a, intern_at b', σ') /\
    cinv a b' σ' /\ returned (intern_at b') = true.

(** So does the release. *)
Definition unref_returns (a : upoint) (b : ipoint) (σ : state) : Prop :=
  exists l a' σ',
    interleave l (unref_at a, intern_at b, σ) = Some (unref_at a', intern_at b, σ') /\
    cinv a' b σ' /\ returned (unref_at a') = true.

Lemma intern_returns_now a b σ :
  cinv a b σ -> returned (intern_at b) = true -> intern_returns a b σ.
Proof. intros Hc Hr. by exists [], b, σ. Qed.

Lemma intern_returns_step a b b1 σ σ1 :
  step (intern_at b) σ = Some (intern_at b1, σ1) ->
  intern_returns a b1 σ1 -> intern_returns a b σ.
Proof.
  intros Hst (l & b' & σ' & Hrun & Hc & Hr). exists (false :: l), b', σ'.
  split; [|done]. cbn [interleave turn]. by rewrite Hst.
Qed.

Lemma unref_returns_now a b σ :
  cinv a b σ -> returned (unref_at a) = true -> unref_returns a b σ.
Proof. intros Hc Hr. by exists [], a, σ. Qed.

Lemma unref_returns_step a a1 b σ σ1 :
  step (unref_at a) σ = Some (unref_at a1, σ1) ->
  unref_returns a1 b σ1 -> unref_returns a b σ.
Proof.
  intros Hst (l & a' & σ' & Hrun & Hc & Hr). exists (true :: l), a', σ'.
  split; [|done]. cbn [interleave turn]. by rewrite Hst.
Qed.

Lemma hit_returns a σ : cinv a I_hit_unlock σ -> intern_returns a I_hit_unlock σ.
Proof.
  intros Hc. destruct (step_I_hit_unlock a σ Hc) as (σ1 & Hst1 & Hc1).
  destruct (step_I_hit_ret a σ1 Hc1) as [Hst2 Hc2].
  apply (intern_returns_step a _ _ _ _ Hst1), (intern_returns_step a _ _ _ _ Hst2).
  by apply intern_returns_now.
Qed.

Lemma scan_returns rest : forall a idx σ,
  cinv a (I_scan idx rest) σ -> intern_returns a (I_scan idx rest) σ.
Proof.
  induction rest as [|c rest IH]; intros a idx σ Hc.
  - destruct (step_I_scan_nil a σ idx Hc) as (n & σ1 & Hst1 & Hc1).
    destruct (step_I_new_unlock a σ1 n Hc1) as (σ2 & Hst2 & Hc2).
    destruct (step_I_new_ret a σ2 n Hc2) as [Hst3 Hc3].
    apply (intern_returns_step a _ _ _ _ Hst1), (intern_returns_step a _ _ _ _ Hst2),
      (intern_returns_step a _ _ _ _ Hst3).
    by apply intern_returns_now.
  - destruct (step_I_scan_cons a σ idx c rest Hc) as (b1 & Hst1 & Hc1 & [->| ->]);
      apply (intern_returns_step a _ _ _ _ Hst1); [|by apply IH].
    destruct (step_I_try a σ idx rest Hc1) as (b2 & σ2 & Hst2 & Hc2 & [->| ->]);
      apply (intern_returns_step a _ _ _ _ Hst2); [|by apply hit_returns].
    destruct (step_I_cas a σ2 idx rest Hc2) as (σ3 & _ & Hst3 & Hc3).
    destruct (step_I_check a σ3 idx rest Hc3) as [Hst4 Hc4].
    apply (intern_returns_step a _ _ _ _ Hst3), (intern_returns_step a _ _ _ _ Hst4).
    by apply IH.
Qed.

Lemma intern_returns_alone a b σ :
  cinv a b σ -> holdU a = false -> intern_returns a b σ.
Proof.
  intros Hc Ha. destruct b as [| | |idx rest|idx rest|idx rest|idx rest| | | |n|n|n].
  - destruct (step_I_query a σ Hc) as [Hst1 Hc1].
    destruct (step_I_lock a σ Hc1) as [[E _]|(σ2 & Hst2 & Hc2)]; [congruence|].
    destruct (step_I_bucket a σ2 Hc2) as (idx & chain & Hst3 & Hc3).
    apply (intern_returns_step a _ _ _ _ Hst1), (intern_returns_step a _ _ _ _ Hst2),
      (intern_returns_step a _ _ _ _ Hst3).
    by apply scan_returns.
  - destruct (step_I_lock a σ Hc) as [[E _]|(σ2 & Hst2 & Hc2)]; [congruence|].
    destruct (step_I_bucket a σ2 Hc2) as (idx & chain & Hst3 & Hc3).
    apply (intern_returns_step a _ _ _ _ Hst2), (intern_returns_step a _ _ _ _ Hst3).
    by apply scan_returns.
  - destruct (step_I_bucket a σ Hc) as (idx & chain & Hst3 & Hc3).
    apply (intern_returns_step a _ _ _ _ Hst3). by apply scan_returns.
  - by apply scan_returns.
  - destruct (step_I_try a σ idx rest Hc) as (b2 & σ2 & Hst2 & Hc2 & [->| ->]);
      apply (intern_returns_step a _ _ _ _ Hst2); [|by apply hit_returns].
    destruct (step_I_cas a σ2 idx rest Hc2) as (σ3 & _ & Hst3 & Hc3).
    destruct (step_I_check a σ3 idx rest Hc3) as [Hst4 Hc4].
    apply (intern_returns_step a _ _ _ _ Hst3), (intern_returns_step a _ _ _ _ Hst4).
    by apply scan_returns.
  - destruct (step_I_cas a σ idx rest Hc) as (σ3 & _ & Hst3 & Hc3).
    destruct (step_I_check a σ3 idx rest Hc3) as [Hst4 Hc4].
    apply (intern_returns_step a _ _ _ _ Hst3), (intern_returns_step a _ _ _ _ Hst4).
    by apply scan_returns.
  - destruct (step_I_check a σ idx rest Hc) as [Hst4 Hc4].
    apply (intern_returns_step a _ _ _ _ Hst4). by apply scan_returns.
  - by apply hit_returns.
  - destruct (step_I_hit_ret a σ Hc) as [Hst Hc'].
    apply (intern_returns_step a _ _ _ _ Hst). by apply intern_returns_now.
  - by apply intern_returns_now.
  - destruct (step_I_new_unlock a σ n Hc) as (σ2 & Hst2 & Hc2).
    destruct (step_I_new_ret a σ2 n Hc2) as [Hst3 Hc3].
    apply (intern_returns_step a _ _ _ _ Hst2), (intern_returns_step a _ _ _ _ Hst3).
    by apply intern_returns_now.
  - destruct (step_I_new_ret a σ n Hc) as [Hst3 Hc3].
    apply (intern_returns_step a _ _ _ _ Hst3). by apply intern_returns_now.
  - by apply intern_returns_now.
Qed.

Lemma unref_returns_held a b σ :
  cinv a b σ -> holdI b = false ->
  match a with U_dec | U_hash | U_lock => False | _ => True end ->
  unref_returns a b σ.
Proof.
  intros Hc Hb Ha. destruct a; try done.
  - destruct (step_U_load b σ Hc) as [Hst1 Hc1].
    destruct (step_U_check b σ Hc1) as [Hst2 Hc2].
    destruct (step_U_unlink b σ Hc2) as (σ3 & Hst3 & Hc3).
    destruct (step_U_unlock b σ3 Hc3) as (σ4 & Hst4 & Hc4).
    apply (unref_returns_step _ _ b _ _ Hst1), (unref_returns_step _ _ b _ _ Hst2),
      (unref_returns_step _ _ b _ _ Hst3), (unref_returns_step _ _ b _ _ Hst4).
    by apply unref_returns_now.
  - destruct (step_U_check b σ Hc) as [Hst2 Hc2].
    destruct (step_U_unlink b σ Hc2) as (σ3 & Hst3 & Hc3).
    destruct (step_U_unlock b σ3 Hc3) as (σ4 & Hst4 & Hc4).
    apply (unref_returns_step _ _ b _ _ Hst2),
      (unref_returns_step _ _ b _ _ Hst3), (unref_returns_step _ _ b _ _ Hst4).
    by apply unref_returns_now.
  - destruct (step_U_unlink b σ Hc) as (σ3 & Hst3 & Hc3).
    destruct (step_U_unlock b σ3 Hc3) as (σ4 & Hst4 & Hc4).
    apply (unref_returns_step _ _ b _ _ Hst3), (unref_returns_step _ _ b _ _ Hst4).
    by apply unref_returns_now.
  - destruct (step_U_unlock b σ Hc) as (σ4 & Hst4 & Hc4).
    apply (unref_returns_step _ _ b _ _ Hst4). by apply unref_returns_now.
  - by apply unref_returns_now.
  - by apply unref_returns_now.
Qed.

Lemma unref_returns_alone a b σ :
  cinv a b σ -> holdI b = false -> unref_returns a b σ.
Proof.
  intros Hc Hb.
  assert (forall σ1, cinv U_lock b σ1 -> unref_returns U_lock b σ1) as Hlock.
  { intros σ1 Hc1.
    destruct (step_U_lock b σ1 Hc1) as [[E _]|(σ2 & Hst2 & Hc2)]; [congruence|].
    apply (unref_returns_step _ _ b _ _ Hst2). by apply unref_returns_held. }
  assert (forall σ1, cinv U_hash b σ1 -> unref_returns U_hash b σ1) as Hhash.
  { intros σ1 Hc1. destruct (step_U_hash b σ1 Hc1) as [Hst Hc2].
    apply (unref_returns_step _ _ b _ _ Hst). by apply Hlock. }
  destruct a; try (by apply unref_returns_held); try (by apply Hlock);
    try (by apply Hhash).
  destruct (step_U_dec b σ Hc) as (a' & σ1 & Hst & Hc1 & _ & [->| ->]);
    apply (unref_returns_step _ _ b _ _ Hst).
  - by apply Hhash.
  - by apply unref_returns_now.
Qed.

(** From every point the two calls can be brought to their return. *)
Lemma cinv_returns a b σ :
  cinv a b σ ->
  exists l res σ',
    interleave l (unref_at a, intern_at b, σ) = Some (Ret tt, Ret res, σ').
Proof.
  intros Hc. pose proof (ci_together _ _ _ Hc) as Ht.
  assert (forall a' b' σ', cinv a' b' σ' ->
            returned (unref_at a') = true -> returned (intern_at b') = true ->
            exists res, (unref_at a', intern_at b', σ') = (Ret tt, Ret res, σ'))
    as Hform.
  { intros a' b' σ' Hc' Hra Hrb.
    destruct (intern_turn a' b' σ' Hc')
      as [_ [[_ [_ [->|[n ->]]]]|[(_ & _ & E)|(b2 & σ2 & E & _)]]].
    - eexists. by destruct a'.
    - eexists. by destruct a'.
    - congruence.
    - by rewrite (returned_no_step _ σ' Hrb) in E. }
  destruct (holdU a) eqn:Ha.
  - destruct (together_held a b Ht Ha) as (Hb & _ & _).
    destruct (unref_returns_alone a b σ Hc Hb) as (l1 & a1 & σ1 & Hrun1 & Hc1 & Hr1).
    assert (holdU a1 = false) as Ha1 by (by destruct a1).
    destruct (intern_returns_alone a1 b σ1 Hc1 Ha1)
      as (l2 & b2 & σ2 & Hrun2 & Hc2 & Hr2).
    destruct (Hform a1 b2 σ2 Hc2 Hr1 Hr2) as [res Hres].
    exists (l1 ++ l2), res, σ2. rewrite interleave_app, Hrun1, Hrun2.
    by rewrite Hres.
  - destruct (intern_returns_alone a b σ Hc Ha) as (l1 & b1 & σ1 & Hrun1 & Hc1 & Hr1).
    assert (holdI b1 = false) as Hb1.
    { destruct (intern_turn a b1 σ1 Hc1)
        as [_ [[_ [? _]]|[(_ & _ & E)|(b2 & σ2 & E & _)]]]; [done|congruence|].
      by rewrite (returned_no_step _ σ1 Hr1) in E. }
    destruct (unref_returns_alone a b1 σ1 Hc1 Hb1)
      as (l2 & a2 & σ2 & Hrun2 & Hc2 & Hr2).
    destruct (Hform a2 b1 σ2 Hc2 Hr2 Hr1) as [res Hres].
    exists (l1 ++ l2), res, σ2. rewrite interleave_app, Hrun1, Hrun2.
    by rewrite Hres.
Qed.

(** Both calls have returned: the invariant of the tables holds again. *)
Lemma cinv_end a b σ :
  cinv a b σ ->
  returned (unref_at a) = true -> returned (intern_at b) = true ->
  inv σ /\
  (heap σ = heap σ0 \/
   exists n, heap σ = <[n := mk_refcount (rlength r) 1 h data]> (delete s (heap σ0))).
Proof.
  intros Hc Hra Hrb. pose proof (ci_together _ _ _ Hc) as Ht.
  pose proof Hinv as [Hst Hwf Hcan Hsm Hq Hlive Hrange].
  assert (quiet σ) as Hquiet.
  { intros sh [j Hj]%list_elem_of_lookup. rewrite (ci_mu _ _ _ Hc j sh Hj).
    unfold mu_of.
    destruct (intern_turn a b σ Hc) as [_ [[_ [-> _]]|[(_ & _ & E)|(b' & σ1 & E & _)]]].
    - by destruct a.
    - congruence.
    - by rewrite (returned_no_step _ σ Hrb) in E. }
  destruct (intern_turn a b σ Hc)
    as [_ [[_ [_ [->|[n ->]]]]|[(_ & _ & E)|(b' & σ1 & E & _)]]].
  - assert (a = U_kept) as -> by (by destruct a).
    assert (heap σ = heap σ0) as Hh.
    { rewrite (ci_heap _ _ _ Hc). unfold heap_of, with_made.
      cbn [gone made counter started extra]. rewrite set_refcnt_one.
      by apply insert_id. }
    split; [|by left].
    apply (inv_same_heap σ0); try done; apply Hc.
  - assert (a = U_gone) as -> by (by destruct a).
    assert (heap σ = <[n := r']> (delete s (heap σ0))) as Hh
      by (by rewrite (ci_heap _ _ _ Hc)).
    split; [|right; exists n; by rewrite (proj1 record_r)].
    assert (forall s2 q2, heap σ !! s2 = Some q2 ->
              (s2 = n /\ q2 = r') \/ (s2 <> n /\ heap σ0 !! s2 = Some q2 /\ s2 <> s))
      as Hrec.
    { intros s2 q2. rewrite Hh. destruct (decide (s2 = n)) as [->|Hn2].
      - rewrite lookup_insert_eq. intros [= <-]. by left.
      - rewrite lookup_insert_ne by done. intros [? ?]%lookup_delete_Some.
        by right. }
    pose proof (ci_static _ _ _ Hc) as Hsame.
    constructor.
    + by apply (static_ok_same σ0).
    + apply Hc.
    + intros x rx y ry Hx Hy Hnx Hny Hxy.
      destruct (Hrec x rx Hx) as [[-> ->]|(? & Hx' & ?)],
               (Hrec y ry Hy) as [[-> ->]|(? & Hy' & ?)]; try done.
      * exfalso. assert (y = s); [|done].
        apply (Hcan y ry s r); try done. lia.
      * exfalso. assert (x = s); [|done].
        apply (Hcan x rx s r); try done. lia.
      * by apply (Hcan x rx y ry).
    + intros x rx Hx. rewrite (static_lookup_same σ0 σ) by done.
      destruct (Hrec x rx Hx) as [[-> ->]|(? & Hx' & ?)].
      * apply (Hsm s r Hs).
      * by apply (Hsm x rx).
    + done.
    + intros x rx Hx. destruct (Hrec x rx Hx) as [[-> ->]|(? & Hx' & ?)].
      * done.
      * by apply (Hlive x rx).
    + intros x rx Hx. destruct (Hrec x rx Hx) as [[-> ->]|(? & Hx' & ?)].
      * done.
      * by apply (Hrange x rx).
  - congruence.
  - by rewrite (returned_no_step _ σ Hrb) in E.
Qed.

(** *** The interleavings of the two calls *)

Lemma guard_safe order p q σ' :
  interleave order (interned_slice_unref s, grpc_slice_intern slice, σ0)
    = Some (p, q, σ') ->
  faults p σ' = false /\ faults q σ' = false.
Proof using All.
  intros Hrun. destruct (guard_points order p q σ' Hrun) as (a & b & -> & -> & Hc).
  split; [apply (unref_turn a b σ' Hc)|apply (intern_turn a b σ' Hc)].
Qed.

(** The [gpr_atm_rel_cas] of line 225 succeeds whenever it is reached: its
    failure would fail the assertion of the same line, which is the next
    action of the lookup. *)
Lemma guard_cas order p c k σ' :
  interleave order (interned_slice_unref s, grpc_slice_intern slice, σ0)
    = Some (p, intern_backout c k, σ') ->
  exists σ'', gpr_atm_rel_cas c 1 0 σ' = Ok true σ''.
Proof using All.
  intros Hrun. destruct (guard_safe order _ _ _ Hrun) as [_ Hf].
  unfold intern_backout in Hf. cbn [faults] in Hf.
  destruct (gpr_atm_rel_cas c 1 0 σ') as [ok σ''| |] eqn:E; [|done|].
  - destruct ok; [by exists σ''|]. exfalso.
    assert (interleave (order ++ [false])
              (interned_slice_unref s, grpc_slice_intern slice, σ0)
            = Some (p, Atomic (GPR_ASSERT false) (fun _ => k), σ'')) as Hrun'.
    { rewrite interleave_app, Hrun. cbn [interleave turn].
      unfold intern_backout. cbn [step]. by rewrite E. }
    by destruct (guard_safe _ _ _ _ Hrun') as [_ Hf'].
  - unfold gpr_atm_rel_cas in E. destruct (heap σ' !! c); [|done].
    by destruct (decide _).
Qed.

Lemma guard_progress order p q σ' :
  interleave order (interned_slice_unref s, grpc_slice_intern slice, σ0)
    = Some (p, q, σ') ->
  returned p && returned q = false ->
  exists first c, turn first (p, q, σ') = Some c.
Proof using All.
  intros Hrun. destruct (guard_points order p q σ' Hrun) as (a & b & -> & -> & Hc).
  by apply cinv_progress.
Qed.

Lemma guard_returns order p q σ' :
  interleave order (interned_slice_unref s, grpc_slice_intern slice, σ0)
    = Some (p, q, σ') ->
  exists order' res σ'',
    interleave order' (p, q, σ') = Some (Ret tt, Ret res, σ'').
Proof using All.
  intros Hrun. destruct (guard_points order p q σ' Hrun) as (a & b & -> & -> & Hc).
  by apply cinv_returns.
Qed.

Lemma guard_result order p res σ' :
  interleave order (interned_slice_unref s, grpc_slice_intern slice, σ0)
    = Some (p, Ret res, σ') ->
  exists n rec, res = slice_interned n 0 (rlength rec) /\
    heap σ' !! n = Some rec /\ bytes rec = data /\
    rlength rec = Z.of_nat (List.length data) /\ 0 < refcnt rec.
Proof using All.
  intros Hrun. destruct (guard_points order _ _ σ' Hrun) as (a & b & -> & Hb & Hc).
  by apply (cinv_result a b).
Qed.

Lemma guard_fresh order p q σ' r0 order2 p2 res σ2 :
  interleave order (interned_slice_unref s, grpc_slice_intern slice, σ0)
    = Some (p, q, σ') ->
  heap σ' !! s = Some r0 -> refcnt r0 = 0 ->
  interleave order2 (p, q, σ') = Some (p2, Ret res, σ2) ->
  exists n evs, res = slice_interned n 0 (rlength r) /\
    trace σ2 = evs ++ trace σ0 /\ EvMalloc n ∈ evs /\
    heap σ2 !! n = Some (mk_refcount (rlength r) 1 h data) /\
    (returned p2 = true -> EvFree s ∈ evs).
Proof using All.
  intros Hrun Hl H0 Hrun2.
  destruct (guard_points order p q σ' Hrun) as (a & b & -> & -> & Hc).
  pose proof (cinv_dying a b σ' r0 Hc Hl H0) as Hd.
  destruct (cinv_interleave order2 a b σ' _ _ σ2 Hc Hrun2)
    as (a2 & b2 & -> & Hb2 & Hc2 & Hd2).
  destruct (cinv_fresh a2 b2 σ2 res Hc2 (Hd2 Hd) (eq_sym Hb2))
    as (n & evs & -> & Htr & Hmal & Hn & Hret).
  exists n, evs. split; [done|]. split; [done|]. split; [done|]. split; [done|].
  intros Hr. by destruct (Hret Hr).
Qed.

Lemma guard_end order p q σ' :
  interleave order (interned_slice_unref s, grpc_slice_intern slice, σ0)
    = Some (p, q, σ') ->
  returned p = true -> returned q = true ->
  inv σ' /\
  (heap σ' = heap σ0 \/
   exists n, heap σ' = <[n := mk_refcount (rlength r) 1 h data]> (delete s (heap σ0))).
Proof using All.
  intros Hrun. destruct (guard_points order p q σ' Hrun) as (a & b & -> & -> & Hc).
  by apply cinv_end.
Qed.

End Guard.

(** C2. The resurrection guard of lines 219-226, for every interleaving of
    the two calls it is written for: a thread that releases the last
    reference of the interned record [s] ([interned_slice_unref], which
    at a counter of 1 goes on to [interned_slice_destroy]) and a thread
    that interns a slice of the bytes of [s] ([grpc_slice_intern]), each
    taking its atomic actions in any order ([order]); [p] and [q] are what
    is left of the two calls and [σ'] is the state. The slice is not
    one of record [s] itself (the releasing thread holds the only
    reference), and [gpr_malloc] has room. At every point that an
    interleaving reaches:
    - the next action of neither call fails: no [GPR_ASSERT] (lines 93 and
      225) fails, no freed record is read, no mutex is misused;
    - when the lookup is at the [gpr_atm_rel_cas] of line 225, that is,
      when its increment of line 220 has seen a counter of 0, the compare
      and swap from 1 to 0 succeeds;
    - one of the threads can take a step until both have returned (the
      one that waits for the mutex waits for the other, who can go on),
      and the two calls can be brought to their return from there;
    - when the lookup has returned, its result is the whole of a record
      that is in the store, holds the bytes and has a counter above 0,
      at that point and at every later one: no release frees it;
    - when the counter of [s] is 0, as it is when the increment of line
      220 sees 0, then however the two calls go on, the lookup does not
      return the dying record: its result is a record that it has
      allocated itself (the event [EvMalloc]; its address is a free one,
      which may be the one that the release has given back), with one
      reference; and the release, once it has returned, has freed [s]
      (the event [EvFree]): the thread that brought the counter to 0
      keeps the removal;
    - when both calls have returned, the invariant of the tables holds
      and the store is the one before (the lookup came first and took a
      second reference of [s], which the release then gave back), or the
      one before without [s] and with a new record of the same bytes and
      one reference. *)
Theorem resurrection_guard σ s r slice order p q σ' :
  inv σ -> heap σ !! s = Some r -> refcnt r = 1 ->
  grpc_is_static_metadata_string slice = false ->
  slice_data σ slice = Some (bytes r) ->
  (forall off len, slice <> slice_interned s off len) ->
  Z.of_nat (size (heap σ)) < MAX_RECORDS ->
  interleave order (interned_slice_unref s, grpc_slice_intern slice, σ)
    = Some (p, q, σ') ->
  (faults p σ' = false /\ faults q σ' = false) /\
  (forall c k, q = intern_backout c k ->
     exists σ'', gpr_atm_rel_cas c 1 0 σ' = Ok true σ'') /\
  (returned p && returned q = false ->
     exists first c, turn first (p, q, σ') = Some c) /\
  (exists order' res σ'',
     interleave order' (p, q, σ') = Some (Ret tt, Ret res, σ'')) /\
  (forall res, q = Ret res ->
     exists n rec, res = slice_interned n 0 (rlength rec) /\
       heap σ' !! n = Some rec /\ bytes rec = bytes r /\
       rlength rec = Z.of_nat (List.length (bytes r)) /\ 0 < refcnt rec) /\
  (forall r0 order2 p2 res σ2,
     heap σ' !! s = Some r0 -> refcnt r0 = 0 ->
     interleave order2 (p, q, σ') = Some (p2, Ret res, σ2) ->
     exists n evs, res = slice_interned n 0 (rlength r) /\
       trace σ2 = evs ++ trace σ /\ EvMalloc n ∈ evs /\
       heap σ2 !! n = Some (mk_refcount (rlength r) 1 (hash r) (bytes r)) /\
       (returned p2 = true -> EvFree s ∈ evs)) /\
  (returned p = true -> returned q = true ->
     inv σ' /\
     (heap σ' = heap σ \/
      exists n, heap σ' =
        <[n := mk_refcount (rlength r) 1 (hash r) (bytes r)]> (delete s (heap σ)))).
Proof.
  intros Hinv Hs Hone Hns Hdata Hother Hroom Hrun.
  split; [by apply (guard_safe σ s r slice Hinv Hs Hone Hns Hdata Hother Hroom order)|].
  split.
  { intros c k ->.
    by apply (guard_cas σ s r slice Hinv Hs Hone Hns Hdata Hother Hroom order p c k). }
  split; [by apply (guard_progress σ s r slice Hinv Hs Hone Hns Hdata Hother Hroom order)|].
  split; [by apply (guard_returns σ s r slice Hinv Hs Hone Hns Hdata Hother Hroom order)|].
  split.
  { intros res ->.
    by apply (guard_result σ s r slice Hinv Hs Hone Hns Hdata Hother Hroom order p). }
  split.
  { intros r0 order2 p2 res σ2 Hl H0 Hrun2.
    by apply (guard_fresh σ s r slice Hinv Hs Hone Hns Hdata Hother Hroom
                order p q σ' r0 order2 p2). }
  intros Hp Hq.
  by apply (guard_end σ s r slice Hinv Hs Hone Hns Hdata Hother Hroom order p q).
Qed.

End Intern.

(** ** A small instance, to run the model on *)

Module Toy.

(** A stand-in for the hash: the seed plus the sum of the bytes. *)
Definition toy_hash (data : list byte) (seed : Z) : Z :=
  seed + foldr (fun b acc => Z.of_N (Byte.to_N b) + acc) 0 data.

(** Three static strings: "a", "m" and "z". *)
Definition toy_table : list (list byte) := [[x61]; [x6d]; [x7a]].

Definition boot (seed : Z) : state :=
  match grpc_test_only_set_slice_hash_seed seed (zero_state toy_table) with
  | Ok _ σ =>
      match grpc_slice_intern_init toy_hash toy_table 0 σ with
      | Ok _ σ' => σ'
      | _ => σ
      end
  | _ => zero_state toy_table
  end.

(** The state that a call leaves, [σ] itself if it does not return. *)
Definition after {A} (p : prog A) (σ : state) : state :=
  match run p σ with Ok _ σ' => σ' | _ => σ end.

Definition foo : list byte := [x66; x6f; x6f].
Definition ab : list byte := [x61; x62].

(** After [init] with seed 5; then with "foo" interned; or with "ab". *)
Definition s0 : state := boot 5.
Definition s1 : state := after (grpc_slice_intern toy_hash toy_table (slice_inlined foo)) s0.
Definition sab : state := after (grpc_slice_intern toy_hash toy_table (slice_inlined ab)) s0.

(** A seed that takes the hash of "m" to [2^32 - 1]. *)
Definition sw : state := boot (2 ^ 32 - 1 - 109).

Lemma toy_size_ok : table_size_ok toy_table.
Proof. split; reflexivity. Qed.

Lemma reachable_s0 : reachable toy_hash toy_table s0.
Proof.
  apply (reach_init _ _ (set_seed 5 true (zero_state toy_table)) 0).
  - repeat split; reflexivity.
  - reflexivity.
  - vm_compute. reflexivity.
Qed.

Lemma reachable_sw : reachable toy_hash toy_table sw.
Proof.
  apply (reach_init _ _ (set_seed (2 ^ 32 - 1 - 109) true (zero_state toy_table)) 0).
  - repeat split; reflexivity.
  - reflexivity.
  - vm_compute. reflexivity.
Qed.

Lemma inv_s0 : inv toy_hash toy_table s0.
Proof. apply reachable_inv; [apply toy_size_ok|apply reachable_s0]. Qed.

Lemma no_overflow_s0 : no_overflow s0.
Proof. apply no_overflow_of_list. vm_compute. reflexivity. Qed.

Lemma reachable_s1 : reachable toy_hash toy_table s1.
Proof.
  apply (reach_call _ _ s0 (CallIntern (slice_inlined foo)));
    [apply reachable_s0|apply no_overflow_s0|].
  vm_compute. reflexivity.
Qed.

Lemma reachable_sab : reachable toy_hash toy_table sab.
Proof.
  apply (reach_call _ _ s0 (CallIntern (slice_inlined ab)));
    [apply reachable_s0|apply no_overflow_s0|].
  vm_compute. reflexivity.
Qed.

Lemma inv_s1 : inv toy_hash toy_table s1.
Proof. apply reachable_inv; [apply toy_size_ok|apply reachable_s1]. Qed.

Lemma no_overflow_s1 : no_overflow s1.
Proof. apply no_overflow_of_list. vm_compute. reflexivity. Qed.

Lemma foo_not_static k : static_slice toy_table k <> Some foo.
Proof.
  unfold static_slice. case_decide; [|discriminate].
  destruct (Z.to_nat k) as [|[|[|n]]]; discriminate.
Qed.

(** Closed facts of the instance, by evaluation. *)
Ltac evaluate :=
  cbv zeta;
  repeat match goal with |- _ /\ _ => split end;
  vm_compute; reflexivity.

(** *** The theorems at this instance *)

(** "foo" interned from an inlined slice and then from a slice of some
    other owner: the same record both times. *)
Lemma intern_canonical_witness :
  exists res σ1 σ2,
    run (grpc_slice_intern toy_hash toy_table (slice_inlined foo)) s0 = Ok res σ1 /\
    run (grpc_slice_intern toy_hash toy_table (slice_refcounted 7 foo)) σ1 = Ok res σ2 /\
    exists s r1,
      res = slice_interned s 0 (rlength r1) /\ heap σ1 !! s = Some r1 /\
      bytes r1 = foo /\
      heap σ2 = <[s := set_refcnt (gpr_atm (refcnt r1 + 1)) r1]> (heap σ1).
Proof.
  pose proof inv_s0 as Hinv.
  destruct (intern_canonical toy_hash toy_table s0 (slice_inlined foo)
              (slice_refcounted 7 foo) foo)
    as (res & σ1 & σ2 & Hrun1 & Hrun2 & [(k & _ & Hk & _)|Hrec]);
    [apply Hinv|apply Hinv|apply Hinv|apply Hinv
    |reflexivity|reflexivity|reflexivity|reflexivity|vm_compute; reflexivity| |].
  - destruct (foo_not_static k Hk).
  - destruct Hrec as (s & r1 & Hres & Hs & Hb & _ & _ & Hheap).
    exists res, σ1, σ2. split; [exact Hrun1|]. split; [exact Hrun2|].
    exists s, r1. split; [exact Hres|]. split; [exact Hs|].
    split; [exact Hb|exact Hheap].
Defined.

(** The shard that holds "foo" in [s1]. *)
Definition shard9 : slice_shard :=
  mk_shard MuUnlocked [[]; []; [1%positive]; []; []; []; []; []] 1 8.


(** Seventeen strings whose hash names shard 8 under seed 5. *)
Definition keys16 : list (list byte) :=
  [[x00; x03]; [x00; x23]; [x00; x43]; [x00; x63];
   [x00; x83]; [x00; xa3]; [x00; xc3]; [x00; xe3];
   [x01; x02]; [x01; x22]; [x01; x42]; [x01; x62];
   [x01; x82]; [x01; xa2]; [x01; xc2]; [x01; xe2]].
Definition key17 : list byte := [x02; x01].

Definition intern_all (keys : list (list byte)) (σ : state) : state :=
  foldl (fun σ key =>
           after (grpc_slice_intern toy_hash toy_table (slice_inlined key)) σ) σ keys.

(** Every call of [intern_all] returns and starts with counters in range. *)
Fixpoint interns_ok (keys : list (list byte)) (σ : state) : bool :=
  match keys with
  | [] => true
  | key :: rest =>
      forallb (fun sr => refcnt sr.2 <? 2 ^ 63 - 1) (map_to_list (heap σ)) &&
      match run (grpc_slice_intern toy_hash toy_table (slice_inlined key)) σ with
      | Ok _ σ' => interns_ok rest σ'
      | _ => false
      end
  end.

Lemma reachable_intern_all keys : forall σ,
  reachable toy_hash toy_table σ -> interns_ok keys σ = true ->
  reachable toy_hash toy_table (intern_all keys σ).
Proof.
  induction keys as [|key rest IH]; intros σ Hr Hok; [exact Hr|].
  cbn [interns_ok] in Hok. apply andb_prop in Hok as [Hno Hok].
  destruct (run (grpc_slice_intern toy_hash toy_table (slice_inlined key)) σ)
    as [res σ'| |] eqn:Hrun; try discriminate Hok.
  assert (after (grpc_slice_intern toy_hash toy_table (slice_inlined key)) σ = σ')
    as Hafter by (unfold after; by rewrite Hrun).
  unfold intern_all. cbn [foldl]. rewrite Hafter. apply IH; [|exact Hok].
  apply (reach_call _ _ σ (CallIntern (slice_inlined key)));
    [exact Hr|by apply no_overflow_of_list|].
  cbn [call_prog]. rewrite run_bind, Hrun. reflexivity.
Qed.

(** Shard 8 holds 16 records at capacity 8, then 17 at capacity 16. *)
Definition s16 : state := intern_all keys16 s0.
Definition s17 : state :=
  after (grpc_slice_intern toy_hash toy_table (slice_inlined key17)) s16.

Definition shard8_of_s16 : slice_shard :=
  Eval vm_compute in default (mk_shard MuUninit [] 0 0) (g_shards s16 !! 8%nat).

Lemma reachable_s16 : reachable toy_hash toy_table s16.
Proof. apply reachable_intern_all; [apply reachable_s0|vm_compute; reflexivity]. Qed.

Lemma heap_forall (f : interned_slice_refcount -> bool) σ :
  forallb (fun sr => f sr.2) (map_to_list (heap σ)) = true ->
  forall s r, heap σ !! s = Some r -> f r = true.
Proof.
  intros H s r Hs. apply elem_of_map_to_list in Hs.
  rewrite forallb_forall in H. apply (H (s, r)). by apply list_elem_of_In.
Qed.

Lemma key17_not_static k : static_slice toy_table k <> Some key17.
Proof.
  unfold static_slice. case_decide; [|discriminate].
  destruct (Z.to_nat k) as [|[|[|n]]]; discriminate.
Qed.

Lemma heap_s16_check :
  forallb (fun sr => negb (bool_decide (bytes sr.2 = key17)))
    (map_to_list (heap s16)) = true.
Proof. vm_compute. reflexivity. Qed.

Lemma key17_new s r : heap s16 !! s = Some r -> bytes r <> key17.
Proof.
  intros Hs E.
  pose proof (heap_forall (fun r => negb (bool_decide (bytes r = key17))) s16
                heap_s16_check s r Hs) as H.
  cbv beta in H. rewrite bool_decide_eq_true_2 in H by done. discriminate.
Qed.

Lemma capacity_growth_witness :
  count shard8_of_s16 = 16 /\ capacity shard8_of_s16 = 8 /\
  Forall (fun sh => exists k : nat,
            capacity sh = INITIAL_SHARD_CAPACITY * 2 ^ Z.of_nat k) (g_shards s16) /\
  exists res σ' sh',
    run (grpc_slice_intern toy_hash toy_table (slice_inlined key17)) s16 = Ok res σ' /\
    shard_at 8 σ' = Some sh' /\ count sh' = 17 /\ capacity sh' = 16.
Proof.
  destruct (capacity_growth toy_hash toy_table s16 toy_size_ok reachable_s16)
    as (Hshape & _ & Hinsert).
  split; [reflexivity|]. split; [reflexivity|].
  split; [apply Forall_forall; exact Hshape|].
  destruct (Hinsert (slice_inlined key17) key17 shard8_of_s16 eq_refl eq_refl
              key17_not_static key17_new)
    as (res & σ' & sh' & Hrun & Hsh & Hcnt & Hcap);
    [vm_compute; reflexivity|vm_compute; reflexivity|].
  exists res, σ', sh'. split; [exact Hrun|]. split; [exact Hsh|].
  split; [exact Hcnt|exact Hcap].
Defined.

Lemma reintern_idempotent_witness :
  run (grpc_slice_intern toy_hash toy_table (slice_inlined foo)) s0
    = Ok (slice_interned 1 0 3) s1 /\
  exists r,
    heap s1 !! 1%positive = Some r /\
    run (grpc_slice_intern toy_hash toy_table (slice_interned 1 0 3)) s1 =
      Ok (slice_interned 1 0 3)
        (emit (EvUnlock (SHARD_IDX (hash r)))
           (emit (EvLock (SHARD_IDX (hash r)))
              (set_heap (<[1%positive := set_refcnt (refcnt r + 1) r]> (heap s1)) s1))).
Proof.
  assert (run (grpc_slice_intern toy_hash toy_table (slice_inlined foo)) s0
            = Ok (slice_interned 1 0 3) s1) as Hrun by (vm_compute; reflexivity).
  split; [exact Hrun|].
  destruct (reintern_idempotent toy_hash toy_table s0 (slice_inlined foo)
              (slice_interned 1 0 3) s1 inv_s0 no_overflow_s0 Hrun eq_refl
              no_overflow_s1)
    as (s & r & Hh & Hs & _ & _ & Hagain).
  injection Hh as <- _. exists r. split; [exact Hs|exact Hagain].
Defined.

(** The last reference of "foo" released in [s1]. *)
Lemma last_release_witness :
  (forall sh chain s, sh ∈ g_shards s1 -> chain ∈ strs sh -> s ∈ chain ->
     exists r, heap s1 !! s = Some r /\ 0 < refcnt r) /\
  exists σ',
    run (interned_slice_unref 1) s1 = Ok tt σ' /\
    heap σ' = delete 1%positive (heap s1).
Proof.
  destruct (last_release toy_hash toy_table s1 toy_size_ok reachable_s1)
    as (Hlive & Hlast & _).
  split; [exact Hlive|].
  destruct (Hlast 1%positive (mk_refcount 3 1 329 foo))
    as (sh & chain & chain' & σ' & H); [vm_compute; reflexivity|reflexivity|].
  cbv zeta in H. destruct H as (_ & _ & _ & _ & _ & Hrun & Hheap & _).
  exists σ'. split; [exact Hrun|exact Hheap].
Defined.

(** [s1] after the decrement of line 108 by a thread that releases the
    last reference of "foo": the record is dead and still linked, and an
    [intern] of "foo" by another thread walks over it and makes record 2. *)
Definition s1_dying : state :=
  after (Atomic (gpr_atm_fetch_add 1 (-1)) Ret) s1.

Lemma dying_record_linked :
  step (interned_slice_unref 1) s1 = Some (interned_slice_destroy 1, s1_dying) /\
  g_shards s1_dying !! 9%nat = Some shard9 /\
  strs shard9 !! 2%nat = Some [1%positive] /\
  heap s1_dying !! 1%positive = Some (mk_refcount 3 0 329 foo) /\
  run (grpc_slice_intern toy_hash toy_table (slice_inlined foo)) s1_dying =
    Ok (slice_interned 2 0 3)
      (after (grpc_slice_intern toy_hash toy_table (slice_inlined foo)) s1_dying).
Proof.
  split; [|evaluate].
  unfold interned_slice_unref. cbn [step].
  assert (gpr_atm_fetch_add 1 (-1) s1 = Ok 1 s1_dying) as ->
    by (vm_compute; reflexivity).
  reflexivity.
Qed.

Lemma static_intern_spec_witness :
  exists res σ' k,
    run (grpc_slice_static_intern toy_hash toy_table (slice_inlined [x61])) s0
      = Ok res σ' /\
    no_allocation s0 σ' /\
    res = slice_static k /\ static_slice toy_table k = Some [x61].
Proof.
  destruct (static_intern_spec toy_hash toy_table s0 (slice_inlined [x61]) [x61]
              inv_s0 eq_refl) as (res & σ' & Hrun & Hno & _ & _ & Hmatch).
  destruct (Hmatch eq_refl 0%nat eq_refl ltac:(vm_compute; reflexivity))
    as (k & Hres & Hk & _).
  exists res, σ', k. split; [exact Hrun|]. split; [exact Hno|].
  split; [exact Hres|exact Hk].
Defined.

(** A second static table, "am" and "a": the first byte of the entry "am"
    is a slice with the static counter that holds the bytes of the entry
    "a". *)
Definition toy_table2 : list (list byte) := [[x61; x6d]; [x61]].
Definition s0_table2 : state :=
  match grpc_slice_intern_init toy_hash toy_table2 5 (zero_state toy_table2) with
  | Ok _ σ => σ
  | _ => zero_state toy_table2
  end.

(** The first byte of the interned "ab", a slice that holds the only
    reference of record 1: the static variant takes the mutex of shard 8,
    unlinks the record and frees it. And a part of a static entry that
    holds the bytes of another entry is left as it is. *)
Lemma static_intern_unlinks :
  (slice_data toy_table sab (slice_interned 1 0 1) = Some [x61] /\
   (count <$> g_shards sab !! 8%nat) = Some 1 /\
   let σ' := after (grpc_slice_static_intern toy_hash toy_table
                      (slice_interned 1 0 1)) sab in
   run (grpc_slice_static_intern toy_hash toy_table (slice_interned 1 0 1)) sab
     = Ok (slice_static 0) σ' /\
   (count <$> g_shards σ' !! 8%nat) = Some 0 /\
   heap σ' !! 1%positive = None /\
   firstn 3 (trace σ') = [EvUnlock 8; EvFree 1; EvLock 8]) /\
  (slice_data toy_table2 s0_table2 (slice_static_part 0 0 1) = Some [x61] /\
   static_slice toy_table2 1 = Some [x61] /\
   run (grpc_slice_static_intern toy_hash toy_table2 (slice_static_part 0 0 1))
       s0_table2
     = Ok (slice_static_part 0 0 1) s0_table2).
Proof. evaluate. Qed.

Lemma shutdown_leaks_witness :
  exists σ',
    grpc_slice_intern_shutdown false s1 = Ok tt σ' /\ heap σ' = heap s1 /\
    g_shards σ' = (set_mu MuDestroyed <$> g_shards s1).
Proof.
  destruct (shutdown_leaks toy_hash s1 (inv_wf _ _ _ inv_s1)) as (_ & Hok & _).
  destruct (Hok false (or_introl eq_refl)) as (σ' & Hrun & Hheap & Hsh & _).
  exists σ'. repeat split; assumption.
Defined.

(** With the flag set: no abort when nothing leaked; and with "foo"
    leaked in shard 9 the abort leaves the mutex of shard 31 as it was. *)
Lemma shutdown_abort_cases :
  (count <$> g_shards s0) = replicate 32 0 /\
  grpc_slice_intern_shutdown true s0
    = Ok tt (match grpc_slice_intern_shutdown true s0 with
             | Ok _ σ' => σ' | _ => s0 end) /\
  match grpc_slice_intern_shutdown true s1 with
  | Crash LeakAbort σ' =>
      (mu <$> g_shards σ' !! 9%nat) = Some MuDestroyed /\
      (mu <$> g_shards σ' !! 31%nat) = Some MuUnlocked
  | _ => False
  end.
Proof.
  split; [vm_compute; reflexivity|]. split; [vm_compute; reflexivity|].
  vm_compute. split; reflexivity.
Qed.

(** *** The probe at a hash next to [2^32] *)

(** C5, at a hash next to [2^32]: the recorded probe bound does not let
    the lookup find "m". With the seed of [sw] the hash of "m" is
    [2^32 - 1]; [init] has put
    "m" one slot after the one its hash names, at [(hash + 1) % 12]
    computed in [size_t], and the lookup of lines 202-204, which adds in
    [uint32_t], looks at slot 0 instead and misses it. *)
Lemma static_lookup_wraps :
  toy_table !! 1%nat = Some [x6d] /\
  grpc_slice_default_hash_impl toy_hash sw [x6d] = 2 ^ 32 - 1 /\
  max_static_metadata_hash_probe sw = 1 /\
  (2 ^ 32 - 1 + 1) mod STATIC_HASH_SIZE toy_table = 4 /\
  static_metadata_hash sw !! 4%nat = Some (mk_ent (2 ^ 32 - 1) 1) /\
  uint32_t (2 ^ 32 - 1 + 1) mod STATIC_HASH_SIZE toy_table = 0 /\
  static_metadata_hash sw !! 0%nat = Some (mk_ent 12 2) /\
  static_lookup toy_table sw (2 ^ 32 - 1) [x6d] = Some None.
Proof. evaluate. Qed.

(** C3, in the same state: [grpc_slice_intern] of the static string "m"
    takes the mutex of shard 31 and allocates record 1 instead of
    returning the static slice 1. *)
Lemma static_precedence_fails :
  static_slice toy_table 1 = Some [x6d] /\
  let σ' := after (grpc_slice_intern toy_hash toy_table (slice_inlined [x6d])) sw in
  run (grpc_slice_intern toy_hash toy_table (slice_inlined [x6d])) sw
    = Ok (slice_interned 1 0 1) σ' /\
  firstn 3 (trace σ') = [EvUnlock 31; EvMalloc 1; EvLock 31] /\
  heap σ' !! 1%positive = Some (mk_refcount 1 1 (2 ^ 32 - 1) [x6d]).
Proof. evaluate. Qed.

(** *** More of the file at this instance *)

(** "foo" and then "ab" interned. *)
Definition s2 : state :=
  after (grpc_slice_intern toy_hash toy_table (slice_inlined ab)) s1.

Definition foo_record : interned_slice_refcount := mk_refcount 3 1 329 foo.
Definition ab_record : interned_slice_refcount := mk_refcount 2 1 200 ab.

Lemma reachable_s2 : reachable toy_hash toy_table s2.
Proof.
  apply (reach_call _ _ s1 (CallIntern (slice_inlined ab)));
    [apply reachable_s1|apply no_overflow_s1|].
  vm_compute. reflexivity.
Qed.

Lemma heap_s0 : heap s0 = ∅.
Proof. vm_compute. reflexivity. Qed.

Lemma heap_s1_foo : heap s1 !! 1%positive = Some foo_record.
Proof. vm_compute. reflexivity. Qed.

Lemma run_intern_foo :
  run (grpc_slice_intern toy_hash toy_table (slice_inlined foo)) s0
    = Ok (slice_interned 1 0 3) s1.
Proof. vm_compute. reflexivity. Qed.

Lemma arrays_ok_zero : arrays_ok toy_table (zero_state toy_table).
Proof. repeat split; reflexivity. Qed.


Lemma init_static_table_witness :
  0 <= max_static_metadata_hash_probe s0 < STATIC_HASH_SIZE toy_table /\
  List.length (static_metadata_hash s0) = Z.to_nat (STATIC_HASH_SIZE toy_table).
Proof.
  assert (grpc_slice_intern_init toy_hash toy_table 0
            (set_seed 5 true (zero_state toy_table)) = Ok tt s0) as Hrun
    by (vm_compute; reflexivity).
  destruct (init_static_table toy_hash toy_table 0
              (set_seed 5 true (zero_state toy_table)) s0 toy_size_ok
              arrays_ok_zero Hrun) as (Hmax & Hlen & _).
  split; [exact Hmax|exact Hlen].
Defined.

Lemma slice_hash_by_bytes_witness :
  grpc_slice_hash toy_hash toy_table s1 (slice_interned 1 0 3)
    = Some (grpc_slice_default_hash_impl toy_hash s1 foo) /\
  grpc_static_metadata_index toy_table (slice_static_part 0 0 0) = -1 /\
  grpc_slice_hash toy_hash toy_table s1 (slice_static_part 0 0 0)
    = Some (grpc_slice_default_hash_impl toy_hash s1 []).
Proof.
  split; [|split; [reflexivity|]].
  - apply (slice_hash_by_bytes toy_hash toy_table s1 (slice_interned 1 0 3) foo
             toy_size_ok reachable_s1).
    vm_compute. reflexivity.
  - apply (slice_hash_by_bytes toy_hash toy_table s1 (slice_static_part 0 0 0) []
             toy_size_ok reachable_s1).
    vm_compute. reflexivity.
Defined.

Lemma intern_static_result_witness :
  run (grpc_slice_intern toy_hash toy_table (slice_inlined [x61])) s0
    = Ok (slice_static 0) s0 /\
  slice_data toy_table s0 (slice_static 0) = Some [x61].
Proof.
  assert (run (grpc_slice_intern toy_hash toy_table (slice_inlined [x61])) s0
            = Ok (slice_static 0) s0) as Hrun by (vm_compute; reflexivity).
  split; [exact Hrun|].
  exact (proj1 (proj1 (intern_static_result toy_hash toy_table s0
                         (slice_inlined [x61]) [x61] inv_s0 eq_refl)
                  (slice_static 0) s0 Hrun eq_refl)).
Defined.

Lemma intern_static_precedence_witness :
  exists res,
    run (grpc_slice_intern toy_hash toy_table (slice_inlined [x61])) s0
      = Ok res s0 /\
    exists k, res = slice_static k /\ static_slice toy_table k = Some [x61].
Proof.
  destruct (intern_static_precedence toy_hash toy_table s0 (slice_inlined [x61])
              0%nat [x61] inv_s0)
    as (res & Hrun & _ & _ & _ & Hentry);
    [reflexivity|reflexivity|vm_compute; reflexivity|].
  exists res. split; [exact Hrun|exact (Hentry eq_refl)].
Defined.

(** "foo" interned a second time in [s1]: record 1 goes from one
    reference to two. *)
Definition s1_again : state :=
  after (grpc_slice_intern toy_hash toy_table (slice_refcounted 7 foo)) s1.

Lemma intern_keeps_bytes_witness :
  slice_data toy_table s1_again (slice_interned 1 0 3) = Some foo /\
  exists r', heap s1_again !! 1%positive = Some r' /\
    refcnt r' = refcnt foo_record + 1.
Proof.
  assert (run (grpc_slice_intern toy_hash toy_table (slice_refcounted 7 foo)) s1
            = Ok (slice_interned 1 0 3) s1_again) as Hrun
    by (vm_compute; reflexivity).
  destruct (intern_keeps_bytes toy_hash toy_table s1 (slice_refcounted 7 foo) foo
              (slice_interned 1 0 3) s1_again inv_s1 no_overflow_s1 eq_refl Hrun)
    as [Hbytes Hframe].
  split; [exact Hbytes|].
  destruct (Hframe 1%positive foo_record heap_s1_foo)
    as (r' & Hr' & _ & _ & _ & Hup & _).
  exists r'. split; [exact Hr'|exact (Hup eq_refl)].
Defined.

Lemma intern_locks_one_shard_witness :
  Forall (fun sh => mu sh = MuUnlocked) (g_shards s1).
Proof.
  apply Forall_forall.
  exact (proj1 (intern_locks_one_shard toy_hash toy_table s0 (slice_inlined foo) foo
                  (slice_interned 1 0 3) s1 inv_s0 eq_refl run_intern_foo)).
Defined.

Lemma reachable_unique_bytes_witness :
  heap s2 !! 1%positive = Some foo_record /\
  heap s2 !! 2%positive = Some ab_record /\
  bytes foo_record <> bytes ab_record.
Proof.
  assert (heap s2 !! 1%positive = Some foo_record) as H1 by (vm_compute; reflexivity).
  assert (heap s2 !! 2%positive = Some ab_record) as H2 by (vm_compute; reflexivity).
  split; [exact H1|]. split; [exact H2|]. intros E.
  pose proof (reachable_unique_bytes toy_hash toy_table s2 toy_size_ok reachable_s2
                1%positive foo_record 2%positive ab_record H1 H2 E) as Heq.
  discriminate Heq.
Defined.

Lemma reachable_records_witness :
  0 < refcnt foo_record < 2 ^ 63 /\
  rlength foo_record = Z.of_nat (List.length (bytes foo_record)).
Proof.
  destruct (reachable_records toy_hash toy_table s1 toy_size_ok reachable_s1
              1%positive foo_record heap_s1_foo) as (Hcnt & Hlen & _).
  split; [exact Hcnt|exact Hlen].
Defined.

Lemma reachable_shards_witness : List.length (g_shards s1) = 32%nat.
Proof.
  exact (proj1 (reachable_shards toy_hash toy_table s1 toy_size_ok reachable_s1)).
Defined.

Lemma load_factor_witness :
  Forall (fun sh => count sh <= capacity sh * 2) (g_shards s1).
Proof.
  apply Forall_forall.
  exact (load_factor toy_hash toy_table s1 toy_size_ok reachable_s1).
Defined.

Lemma ref_then_unref_witness :
  run (bind (interned_slice_ref 1) (fun _ => interned_slice_unref 1)) s1 = Ok tt s1.
Proof.
  assert (0 < refcnt foo_record < 2 ^ 63 - 1) as Hr by (split; reflexivity).
  exact (proj2 (proj1 (ref_then_unref s1 1%positive foo_record heap_s1_foo) Hr)).
Defined.

Lemma unref_effect_witness :
  exists σ',
    run (interned_slice_unref 1) s1 = Ok tt σ' /\ heap σ' !! 1%positive = None.
Proof.
  destruct (unref_effect toy_hash toy_table s1 1%positive foo_record inv_s1
              heap_s1_foo) as (σ' & Hrun & _ & Hgone & _).
  exists σ'. split; [exact Hrun|exact Hgone].
Defined.

Lemma intern_unref_roundtrip_witness :
  exists s σ1 σ2,
    run (grpc_slice_intern toy_hash toy_table (slice_inlined foo)) s0
      = Ok (slice_interned s 0 3) σ1 /\
    run (interned_slice_unref s) σ1 = Ok tt σ2 /\
    heap σ2 = heap s0.
Proof.
  destruct (intern_unref_roundtrip toy_hash toy_table s0 (slice_inlined foo) foo
              inv_s0 eq_refl eq_refl foo_not_static)
    as (s & σ1 & σ2 & Hrun & _ & _ & Hun & Hheap & _).
  - intros s r Hs. rewrite heap_s0 in Hs. discriminate Hs.
  - rewrite heap_s0. reflexivity.
  - exists s, σ1, σ2. split; [exact Hrun|]. split; [exact Hun|exact Hheap].
Defined.

Lemma intern_skips_dying_witness :
  exists s' σ1 σ2,
    s' <> 1%positive /\
    run (grpc_slice_intern toy_hash toy_table (slice_inlined foo))
        (set_heap (<[1%positive := set_refcnt 0 foo_record]> (heap s1)) s1)
      = Ok (slice_interned s' 0 3) σ1 /\
    run (interned_slice_destroy 1) σ1 = Ok tt σ2.
Proof.
  destruct (intern_skips_dying toy_hash toy_table s1 1%positive foo_record
              (slice_inlined foo) inv_s1 heap_s1_foo eq_refl eq_refl eq_refl)
    as (_ & s' & σ1 & σ2 & Hne & Hrun & _ & Hdestroy & _).
  - vm_compute. reflexivity.
  - exists s', σ1, σ2. split; [exact Hne|]. split; [exact Hrun|exact Hdestroy].
Defined.

Lemma counts_add_up_witness :
  foldr (fun sh acc => count sh + acc) 0 (g_shards s1) = Z.of_nat (size (heap s1)).
Proof.
  exact (proj1 (counts_add_up toy_hash toy_table s1 toy_size_ok reachable_s1)).
Defined.

Lemma shutdown_reports_store_witness :
  exists σ' new,
    grpc_slice_intern_shutdown false s1 = Ok tt σ' /\
    logged σ' = logged s1 ++ new.
Proof.
  destruct (shutdown_reports_store toy_hash toy_table s1 toy_size_ok reachable_s1)
    as [(σ' & new & Hrun & Hlog & _) _].
  exists σ', new. split; [exact Hrun|exact Hlog].
Defined.

(** The release of the last reference of "foo" beside a lookup of "foo":
    the decrement of the release, then the whole lookup, then the rest of
    the release. *)
Definition guard_rest : list bool := replicate 10 false ++ replicate 6 true.

Definition guard_dying : threads :=
  (interned_slice_destroy 1,
   grpc_slice_intern toy_hash toy_table (slice_inlined foo), s1_dying).

Definition guard_final : state :=
  match interleave guard_rest guard_dying with
  | Some (_, _, σ) => σ
  | None => s1
  end.

Lemma resurrection_guard_witness :
  exists n evs,
    interleave guard_rest guard_dying
      = Some (Ret tt, Ret (slice_interned n 0 3), guard_final) /\
    n <> 1%positive /\
    trace guard_final = evs ++ trace s1 /\
    EvMalloc n ∈ evs /\ EvFree 1 ∈ evs /\
    heap guard_final !! n = Some foo_record /\
    heap guard_final !! 1%positive = None.
Proof.
  assert (interleave [true]
            (interned_slice_unref 1,
             grpc_slice_intern toy_hash toy_table (slice_inlined foo), s1)
          = Some guard_dying) as Hfirst.
  { cbn [interleave turn]. unfold interned_slice_unref. cbn [step].
    assert (gpr_atm_fetch_add 1 (-1) s1 = Ok 1 s1_dying) as ->
      by (vm_compute; reflexivity).
    reflexivity. }
  assert (interleave guard_rest guard_dying
          = Some (Ret tt, Ret (slice_interned 2 0 3), guard_final)) as Hrest
    by (vm_compute; reflexivity).
  destruct (resurrection_guard toy_hash toy_table s1 1%positive foo_record
              (slice_inlined foo) [true] _ _ _ inv_s1 heap_s1_foo eq_refl eq_refl
              eq_refl ltac:(discriminate) ltac:(vm_compute; reflexivity) Hfirst)
    as (_ & _ & _ & _ & _ & Hfresh & _).
  destruct (Hfresh (mk_refcount 3 0 329 foo) guard_rest (Ret tt)
              (slice_interned 2 0 3) guard_final
              ltac:(vm_compute; reflexivity) eq_refl Hrest)
    as (n & evs & Hres & Htr & Hmal & Hn & Hfree).
  injection Hres as <-.
  exists 2%positive, evs. split; [exact Hrest|]. split; [discriminate|].
  split; [exact Htr|]. split; [exact Hmal|]. split; [exact (Hfree eq_refl)|].
  split; [exact Hn|]. vm_compute. reflexivity.
Defined.

End Toy.
